(** * kubestore: a key/value [Store] over ConfigMaps, Secrets, annotations
    and a local directory.

    Shallow embedding of [store.go], [errors.go], [util.go], [configmap.go],
    [secret.go], [annotation.go] and [file.go].  The Kubernetes client
    interfaces the stores are written against are records of state-passing
    functions over a world [W]; the [os]/[ioutil]/[filepath] calls of the
    file store run against an in-memory file system. *)

From stdpp Require Import gmap strings list fin_maps sorting.
From Stdlib Require Import ZArith Ascii DecimalString.

Local Open Scope Z_scope.
Local Open Scope string_scope.
Local Open Scope list_scope.

(** ** Errors *)

(** The [syscall.Errno] values that the modelled calls can produce. *)
Inductive Errno := ENOENT | ENOTDIR | EISDIR | ENOTEMPTY | EBUSY.

(** [metav1.Status], restricted to the fields that are read. *)
Record Status := { Code : Z; Reason : string }.

(** Go [error] values, one constructor per dynamic type. *)
Inductive error :=
| errorString (s : string)                      (* *errors.errorString *)
| StatusError (ErrStatus : Status)              (* *errors.StatusError *)
| wrapError (msg : string) (err : error)        (* *fmt.wrapError *)
| PathError (Op Path : string) (Err : Errno)    (* *fs.PathError *)
| SyntaxError (msg : string).                   (* encoding/json errors *)

(** errors.go *)
Definition ErrorKeyNotFound : error := errorString "key not found".

(** util.go: a type assertion on the dynamic type, then the status code. *)
Definition isResourceMissingError (err : error) : bool :=
  match err with
  | StatusError sterr => Z.eqb (Code sterr) 404
  | _ => false
  end.

(** [os.IsNotExist]. *)
Definition IsNotExist (err : error) : bool :=
  match err with
  | PathError _ _ ENOENT => true
  | _ => false
  end.

(** A Go [(T, error)] result. *)
Inductive result (A : Type) :=
| Ok (a : A)
| Err (e : error).
Arguments Ok {A} a.
Arguments Err {A} e.

(** ** JSON payloads *)

(** The JSON documents that the patch structs marshal to. *)
#[warnings="-register-all"]
Inductive json :=
| JNull
| JString (s : string)
| JObject (fields : list (string * json)).

Fixpoint field (name : string) (fields : list (string * json)) : option json :=
  match fields with
  | [] => None
  | (n, v) :: rest => if String.eqb n name then Some v else field name rest
  end.

(** [json.Marshal] of a [map[string]interface{}] whose values are strings
    or nil; it cannot fail on such a map, so the stores' [err != nil]
    branch after marshalling a patch is never taken. *)
Definition marshal_map (m : gmap string json) : json := JObject (map_to_list m).

(** A struct field tagged [omitempty] whose type is a map. *)
Definition omitempty (name : string) (m : gmap string json) : list (string * json) :=
  if decide (m = ∅) then [] else [(name, marshal_map m)].

(** configmap.go *)
Record configMapPatch := { cmp_Data : gmap string json }.

Definition marshal_configMapPatch (p : configMapPatch) : json :=
  JObject (omitempty "data" (cmp_Data p)).

(** secret.go *)
Record secretPatch := { sp_Data : gmap string json; sp_StringData : gmap string json }.

Definition marshal_secretPatch (p : secretPatch) : json :=
  JObject (omitempty "data" (sp_Data p) ++ omitempty "stringData" (sp_StringData p)).

(** annotation.go *)
Record metadataPatch := { mp_Annotations : gmap string json }.
Record annotationPatch := { ap_Metadata : metadataPatch }.

Definition marshal_annotationPatch (p : annotationPatch) : json :=
  JObject [("metadata", JObject (omitempty "annotations" (mp_Annotations (ap_Metadata p))))].

(** ** Strings *)

(** [strip prefix s] is the rest of [s] after [prefix], when [s] starts
    with it. *)
Fixpoint strip (prefix s : string) : option string :=
  match prefix, s with
  | EmptyString, _ => Some s
  | String a p, String b r => if Ascii.eqb a b then strip p r else None
  | String _ _, EmptyString => None
  end.

(** [strings.HasPrefix] and [strings.TrimPrefix]. *)
Definition HasPrefix (s prefix : string) : bool :=
  match strip prefix s with Some _ => true | None => false end.

Definition TrimPrefix (s prefix : string) : string :=
  match strip prefix s with Some r => r | None => s end.

(** annotation.go *)
Definition annotationPrefix : string := "kubestore".

(** ** Paths: [strings.Join], [filepath.Clean], [filepath.Join] (Unix) *)

Definition Separator : ascii := "/"%char.

(** The elements of a path between separators; [split_path "/a/b"] is
    [[""; "a"; "b"]]. *)
Fixpoint split_path (s : string) : list string :=
  match s with
  | EmptyString => [EmptyString]
  | String c rest =>
      if Ascii.eqb c Separator then EmptyString :: split_path rest
      else match split_path rest with
           | [] => [String c EmptyString]
           | x :: xs => String c x :: xs
           end
  end.

(** [strings.Join(elems, "/")] *)
Fixpoint strings_Join (elems : list string) : string :=
  match elems with
  | [] => ""
  | [x] => x
  | x :: rest => x +:+ "/" +:+ strings_Join rest
  end.

Definition IsAbs (path : string) : bool :=
  match path with
  | String c _ => Ascii.eqb c Separator
  | EmptyString => false
  end.

(** One element of the path against the elements kept so far (last kept
    element first): empty and [.] elements are dropped, [..] removes the
    element before it unless there is none or it is itself [..]. *)
Definition clean_step (rooted : bool) (kept : list string) (c : string) : list string :=
  if decide (c = "" ∨ c = ".") then kept
  else if decide (c = "..") then
    match kept with
    | top :: below => if decide (top = "..") then ".." :: kept else below
    | [] => if rooted then [] else [".."]
    end
  else c :: kept.

Definition clean_elems (rooted : bool) (elems : list string) : list string :=
  rev (fold_left (clean_step rooted) elems []).

(** [filepath.Clean] *)
Definition Clean (path : string) : string :=
  if decide (path = "") then "."
  else
    let rooted := IsAbs path in
    let kept := clean_elems rooted (split_path path) in
    if rooted then "/" +:+ strings_Join kept
    else if decide (kept = []) then "." else strings_Join kept.

(** [filepath.Join]: the elements from the first non-empty one on, joined
    and cleaned. *)
Fixpoint Join (elem : list string) : string :=
  match elem with
  | [] => ""
  | e :: rest => if decide (e = "") then Join rest else Clean (strings_Join elem)
  end.

(** ** An in-memory file system behind [os] and [ioutil] *)

Inductive node :=
| File (data : string)
| Dir.

#[global] Instance node_eq_dec : EqDecision node.
Proof. solve_decision. Defined.

(** Nodes by absolute path (the list of names from the root, which is
    always a directory), and the working directory of the process. *)
Record FS := {
  cwd : list string;
  nodes : gmap (list string) node }.

Definition lookup_node (nd : gmap (list string) node) (p : list string) : option node :=
  match p with
  | [] => Some Dir
  | _ => nd !! p
  end.

Definition parent (p : list string) : list string := removelast p.

Definition walk_step (cur : list string) (c : string) : list string :=
  if decide (c = "" ∨ c = ".") then cur
  else if decide (c = "..") then parent cur
  else cur ++ [c].

(** Path resolution: every element is looked up in a directory that must
    exist; the node named by the last element need not. *)
Fixpoint walk (nd : gmap (list string) node) (cur : list string) (elems : list string)
  : Errno + list string :=
  match elems with
  | [] => inr cur
  | c :: rest =>
      match lookup_node nd cur with
      | None => inl ENOENT
      | Some (File _) => inl ENOTDIR
      | Some Dir => walk nd (walk_step cur c) rest
      end
  end.

Definition start (fs : FS) (path : string) : list string :=
  if IsAbs path then [] else cwd fs.

Definition namei (fs : FS) (path : string) : Errno + list string :=
  if decide (path = "") then inl ENOENT
  else walk (nodes fs) (start fs path) (split_path path).

Definition with_nodes (fs : FS) (nd : gmap (list string) node) : FS :=
  {| cwd := cwd fs; nodes := nd |}.

(** The names of the entries of directory [d]. *)
Definition entry_of (d : list string) (p : list string) : option string :=
  match last p with
  | Some name => if decide (p = d ++ [name]) then Some name else None
  | None => None
  end.

Definition string_le (x y : string) : Prop := String.leb x y = true.

Local Instance string_le_dec : RelDecision string_le.
Proof. intros x y. unfold string_le. apply _. Defined.

Definition entries (nd : gmap (list string) node) (d : list string) : list string :=
  merge_sort string_le (omap (entry_of d) (map_to_list nd).*1).

(** [ioutil.ReadFile] *)
Definition ReadFile (filename : string) (fs : FS) : result string * FS :=
  match namei fs filename with
  | inl e => (Err (PathError "open" filename e), fs)
  | inr p =>
      match lookup_node (nodes fs) p with
      | None => (Err (PathError "open" filename ENOENT), fs)
      | Some Dir => (Err (PathError "read" filename EISDIR), fs)
      | Some (File data) => (Ok data, fs)
      end
  end.

(** [ioutil.WriteFile]: create or truncate, then write. *)
Definition WriteFile (filename : string) (data : string) (fs : FS) : option error * FS :=
  match namei fs filename with
  | inl e => (Some (PathError "open" filename e), fs)
  | inr p =>
      match lookup_node (nodes fs) p with
      | Some Dir => (Some (PathError "open" filename EISDIR), fs)
      | _ => (None, with_nodes fs (<[p := File data]> (nodes fs)))
      end
  end.

(** [os.Remove]: a file, or a directory without entries. *)
Definition Remove (name : string) (fs : FS) : option error * FS :=
  match namei fs name with
  | inl e => (Some (PathError "remove" name e), fs)
  | inr p =>
      match lookup_node (nodes fs) p with
      | None => (Some (PathError "remove" name ENOENT), fs)
      | Some (File _) => (None, with_nodes fs (delete p (nodes fs)))
      | Some Dir =>
          if decide (p = []) then (Some (PathError "remove" name EBUSY), fs)
          else if decide (entries (nodes fs) p = []) then
            (None, with_nodes fs (delete p (nodes fs)))
          else (Some (PathError "remove" name ENOTEMPTY), fs)
      end
  end.

(** [ioutil.ReadDir]: the entries sorted by name. *)
Definition ReadDir (dirname : string) (fs : FS) : result (list string) * FS :=
  match namei fs dirname with
  | inl e => (Err (PathError "open" dirname e), fs)
  | inr p =>
      match lookup_node (nodes fs) p with
      | None => (Err (PathError "open" dirname ENOENT), fs)
      | Some (File _) => (Err (PathError "readdirent" dirname ENOTDIR), fs)
      | Some Dir => (Ok (entries (nodes fs) p), fs)
      end
  end.

(** [os.MkdirAll]: every missing directory along the path is created; an
    element that names a file is an error. *)
Fixpoint mkdir_walk (nd : gmap (list string) node) (cur : list string)
    (elems : list string) : Errno + gmap (list string) node :=
  match elems with
  | [] => inr nd
  | c :: rest =>
      let next := walk_step cur c in
      match lookup_node nd next with
      | Some Dir => mkdir_walk nd next rest
      | Some (File _) => inl ENOTDIR
      | None => mkdir_walk (<[next := Dir]> nd) next rest
      end
  end.

Definition MkdirAll (path : string) (fs : FS) : option error * FS :=
  if decide (path = "") then (Some (PathError "mkdir" path ENOENT), fs)
  else
    match lookup_node (nodes fs) (start fs path) with
    | None => (Some (PathError "mkdir" path ENOENT), fs)
    | Some (File _) => (Some (PathError "mkdir" path ENOTDIR), fs)
    | Some Dir =>
        match mkdir_walk (nodes fs) (start fs path) (split_path path) with
        | inl e => (Some (PathError "mkdir" path e), fs)
        | inr nd => (None, with_nodes fs nd)
        end
    end.

(** ** Kubernetes resources and client interfaces *)

Record ConfigMap := { cm_Name : string; cm_Data : gmap string string }.

Record Secret := {
  sec_Name : string;
  sec_Data : gmap string string;
  sec_StringData : gmap string string }.

(** [unstructured.Unstructured], restricted to name and annotations. *)
Record Unstructured := { u_Name : string; u_Annotations : gmap string string }.

Definition GetAnnotations (u : Unstructured) : gmap string string := u_Annotations u.

Inductive PatchType := JSONPatchType | MergePatchType | StrategicMergePatchType | ApplyPatchType.

(** The four methods of [v1.ConfigMapInterface], [v1.SecretInterface] and
    [dynamic.ResourceInterface] that the stores call; [W] is the state of
    whatever is behind the client. *)
Record ResourceInterface (R W : Type) := {
  Create : R -> W -> result R * W;
  Delete : string -> W -> option error * W;
  Get : string -> W -> result R * W;
  Patch : string -> PatchType -> json -> W -> result R * W }.
Arguments Create {R W}.
Arguments Delete {R W}.
Arguments Get {R W}.
Arguments Patch {R W}.

(** store.go: the [Store] interface.  [Store_Set] takes the number of
    nested calls it may make; [None] means that number was exhausted. *)
Record Store (Value W : Type) := {
  Store_Get : string -> W -> result Value * W;
  Store_Set : nat -> string -> Value -> W -> option (option error * W);
  Store_List : W -> result (list string) * W;
  Store_Delete : string -> W -> option error * W }.
Arguments Store_Get {Value W}.
Arguments Store_Set {Value W}.
Arguments Store_List {Value W}.
Arguments Store_Delete {Value W}.

(** ** Clients to run the stores against *)

(** What a client was asked to do. *)
Inductive call (R : Type) :=
| CallCreate (r : R)
| CallDelete (name : string)
| CallGet (name : string)
| CallPatch (name : string) (pt : PatchType) (data : json).
Arguments CallCreate {R} r.
Arguments CallDelete {R} name.
Arguments CallGet {R} name.
Arguments CallPatch {R} name pt data.

Definition is_patch {R} (c : call R) : bool :=
  match c with CallPatch _ _ _ => true | _ => false end.

Definition is_create {R} (c : call R) : bool :=
  match c with CallCreate _ => true | _ => false end.

Definition is_delete {R} (c : call R) : bool :=
  match c with CallDelete _ => true | _ => false end.

Section Clients.
Context {R : Type}.

(** A client that records every call (latest last) before passing it on. *)
Definition recording {W} (c : ResourceInterface R W)
  : ResourceInterface R (list (call R) * W) := {|
  Create := fun r '(log, w) =>
    let '(res, w) := Create c r w in (res, (log ++ [CallCreate r], w));
  Delete := fun name '(log, w) =>
    let '(res, w) := Delete c name w in (res, (log ++ [CallDelete name], w));
  Get := fun name '(log, w) =>
    let '(res, w) := Get c name w in (res, (log ++ [CallGet name], w));
  Patch := fun name pt data '(log, w) =>
    let '(res, w) := Patch c name pt data w in (res, (log ++ [CallPatch name pt data], w)) |}.

(** A client that answers from a script, one response per call, whatever
    the call is. *)
Definition next_response (script : list (result R)) : result R * list (result R) :=
  match script with
  | [] => (Err (errorString "EOF"), [])
  | r :: rest => (r, rest)
  end.

Definition scripted : ResourceInterface R (list (result R)) := {|
  Create := fun _ script => next_response script;
  Delete := fun _ script =>
    let '(r, script) := next_response script in
    (match r with Ok _ => None | Err e => Some e end, script);
  Get := fun _ script => next_response script;
  Patch := fun _ _ _ script => next_response script |}.

(** Status errors of the API server, as [errors.NewNotFound] and the like
    build them. *)
Definition NotFound : error := StatusError {| Code := 404; Reason := "NotFound" |}.
Definition AlreadyExists : error := StatusError {| Code := 409; Reason := "AlreadyExists" |}.
Definition Forbidden : error := StatusError {| Code := 403; Reason := "Forbidden" |}.

(** The script of [n] rounds of a missing resource and its creation, then
    a response with the resource. *)
Fixpoint rounds (n : nat) (r : R) : list (result R) :=
  match n with
  | O => [Ok r]
  | S n => Err NotFound :: Ok r :: rounds n r
  end.

(** The calls that answer to that script: a patch and a creation per round,
    then the last patch. *)
Fixpoint retry_calls (n : nat) (patch create : call R) : list (call R) :=
  match n with
  | O => [patch]
  | S n => patch :: create :: retry_calls n patch create
  end.

(** A client behind which the resource is missing at every patch although
    every creation succeeds. *)
Definition vanishing : ResourceInterface R unit := {|
  Create := fun r w => (Ok r, w);
  Delete := fun _ w => (None, w);
  Get := fun _ w => (Err NotFound, w);
  Patch := fun _ _ _ w => (Err NotFound, w) |}.

(** An API server holding the resources of one namespace by name.  [named]
    reads a resource's name, [persist] is what the server stores for a
    submitted resource, [merge] applies a merge patch to a stored one. *)
Variable named : R -> string.
Variable persist : R -> R.
Variable merge : json -> R -> result R.

Definition apiserver : ResourceInterface R (gmap string R) := {|
  Create := fun r w =>
    match w !! named r with
    | Some _ => (Err AlreadyExists, w)
    | None => (Ok (persist r), <[named r := persist r]> w)
    end;
  Delete := fun name w =>
    match w !! name with
    | None => (Some NotFound, w)
    | Some _ => (None, delete name w)
    end;
  Get := fun name w =>
    match w !! name with
    | None => (Err NotFound, w)
    | Some r => (Ok r, w)
    end;
  Patch := fun name pt data w =>
    match w !! name with
    | None => (Err NotFound, w)
    | Some r =>
        match pt with
        | MergePatchType =>
            match merge data r with
            | Ok r' => (Ok r', <[name := r']> w)
            | Err e => (Err e, w)
            end
        | _ => (Err (StatusError {| Code := 415; Reason := "UnsupportedMediaType" |}), w)
        end
    end |}.

End Clients.

(** Merge-patch of a flat string map: a string sets the entry, null removes
    it; [decode] reads the string form of a value. *)
Definition Invalid : error := StatusError {| Code := 422; Reason := "Invalid" |}.

Fixpoint merge_entries (decode : string -> option string)
    (entries : list (string * json)) (m : gmap string string)
  : option (gmap string string) :=
  match entries with
  | [] => Some m
  | (k, JNull) :: rest => merge_entries decode rest (delete k m)
  | (k, JString s) :: rest =>
      match decode s with
      | Some v => merge_entries decode rest (<[k := v]> m)
      | None => None
      end
  | (_, JObject _) :: _ => None
  end.

Definition merge_field (decode : string -> option string) (doc : option json)
    (m : gmap string string) : option (gmap string string) :=
  match doc with
  | None => Some m
  | Some JNull => Some ∅
  | Some (JObject entries) => merge_entries decode entries m
  | Some (JString _) => None
  end.

Definition merge_ConfigMap (data : json) (cm : ConfigMap) : result ConfigMap :=
  match data with
  | JObject fields =>
      match merge_field Some (field "data" fields) (cm_Data cm) with
      | Some d => Ok {| cm_Name := cm_Name cm; cm_Data := d |}
      | None => Err Invalid
      end
  | _ => Err Invalid
  end.

(** A Secret's [stringData] is write-only: on every write its entries are
    moved into [data], over what [data] had. *)
Definition persist_Secret (s : Secret) : Secret :=
  {| sec_Name := sec_Name s;
     sec_Data := sec_StringData s ∪ sec_Data s;
     sec_StringData := ∅ |}.

Section SecretServer.
(** The bytes of a base64 text. *)
Variable base64_decode : string -> option string.

Definition merge_Secret (data : json) (s : Secret) : result Secret :=
  match data with
  | JObject fields =>
      match merge_field base64_decode (field "data" fields) (sec_Data s) with
      | Some d =>
          match merge_field Some (field "stringData" fields) ∅ with
          | Some sd =>
              Ok (persist_Secret {| sec_Name := sec_Name s; sec_Data := d; sec_StringData := sd |})
          | None => Err Invalid
          end
      | None => Err Invalid
      end
  | _ => Err Invalid
  end.

Definition secret_apiserver : ResourceInterface Secret (gmap string Secret) :=
  apiserver sec_Name persist_Secret merge_Secret.

End SecretServer.

Definition configMap_apiserver : ResourceInterface ConfigMap (gmap string ConfigMap) :=
  apiserver cm_Name id merge_ConfigMap.

Definition merge_Unstructured (data : json) (u : Unstructured) : result Unstructured :=
  match data with
  | JObject fields =>
      match field "metadata" fields with
      | None => Ok u
      | Some (JObject meta) =>
          match merge_field Some (field "annotations" meta) (u_Annotations u) with
          | Some a => Ok {| u_Name := u_Name u; u_Annotations := a |}
          | None => Err Invalid
          end
      | Some _ => Err Invalid
      end
  | _ => Err Invalid
  end.

Definition dynamic_apiserver : ResourceInterface Unstructured (gmap string Unstructured) :=
  apiserver u_Name id merge_Unstructured.

(** ** File systems to run the file store on *)

(** Only the root. *)
Definition bare_fs : FS := {| cwd := []; nodes := ∅ |}.

(** [/data/store], empty. *)
Definition store_fs : FS :=
  {| cwd := []; nodes := {[ ["data"] := Dir; ["data"; "store"] := Dir ]} |}.

(** [/data/store], empty, next to the file [/data/x]. *)
Definition neighbour_fs (data : string) : FS :=
  with_nodes store_fs (<[ ["data"; "x"] := File data ]> (nodes store_fs)).

(** [/data/store] is a regular file. *)
Definition blocked_fs : FS :=
  {| cwd := []; nodes := {[ ["data"] := Dir; ["data"; "store"] := File "" ]} |}.

(** [/data/store] with the files [a] and [b]. *)
Definition shared_fs : FS :=
  with_nodes store_fs
    (<[ ["data"; "store"; "a"] := File "1" ]>
       (<[ ["data"; "store"; "b"] := File "2" ]> (nodes store_fs))).

(** [/data/store] with the sub-directory [sub]. *)
Definition nested_fs : FS :=
  with_nodes store_fs (<[ ["data"; "store"; "sub"] := Dir ]> (nodes store_fs)).

(** ** A resource to run the annotation store on *)

Definition pod_world : gmap string Unstructured :=
  {[ "pod" := {| u_Name := "pod"; u_Annotations := {[ "other/unrelated" := "123" ]} |} ]}.

(** ** A codec to run the stores with: JSON null, booleans and naturals *)

Inductive scalar :=
| VNull
| VBool (b : bool)
| VNumber (n : nat).

Definition scalar_Marshal (v : scalar) : result string :=
  match v with
  | VNull => Ok "null"
  | VBool true => Ok "true"
  | VBool false => Ok "false"
  | VNumber n => Ok (NilZero.string_of_uint (Nat.to_uint n))
  end.

Definition scalar_Unmarshal (data : string) : result scalar :=
  if decide (data = "null") then Ok VNull
  else if decide (data = "true") then Ok (VBool true)
  else if decide (data = "false") then Ok (VBool false)
  else match NilZero.uint_of_string data with
       | Some u => Ok (VNumber (Nat.of_uint u))
       | None => Err (SyntaxError "invalid character")
       end.

(** A codec that refuses a value, as [json.Marshal] refuses a NaN: [None]
    stands for the value it refuses. *)
Definition partial_Marshal (v : option nat) : result string :=
  match v with
  | Some n => Ok (NilZero.string_of_uint (Nat.to_uint n))
  | None => Err (SyntaxError "json: unsupported value")
  end.

Section Stores.

(** [encoding/json] on caller values. *)
Variable Value : Type.
Variable Marshal : Value -> result string.
Variable Unmarshal : string -> result Value.

Section ConfigMapStore.
Variable W : Type.

Record configMapStore := {
  cms_client : ResourceInterface ConfigMap W;
  cms_name : string }.

Definition configMapStore_create (c : configMapStore) (w : W) : option error * W :=
  let '(r, w) := Create (cms_client c) {| cm_Name := cms_name c; cm_Data := ∅ |} w in
  match r with
  | Ok _ => (None, w)
  | Err err => (Some err, w)
  end.

Definition configMapStore_delete (c : configMapStore) (w : W) : option error * W :=
  Delete (cms_client c) (cms_name c) w.

Definition configMapStore_Get (c : configMapStore) (key : string) (w : W)
  : result Value * W :=
  let '(r, w) := Get (cms_client c) (cms_name c) w in
  match r with
  | Err err =>
      if isResourceMissingError err then (Err ErrorKeyNotFound, w)
      else (Err err, w)
  | Ok configMap =>
      match cm_Data configMap !! key with
      | None => (Err ErrorKeyNotFound, w)
      | Some data => (Unmarshal data, w)
      end
  end.

Fixpoint configMapStore_Set (fuel : nat) (c : configMapStore) (key : string)
    (value : Value) (w : W) : option (option error * W) :=
  match fuel with
  | O => None
  | S fuel =>
      match Marshal value with
      | Err err => Some (Some err, w)
      | Ok data =>
          let patch := {| cmp_Data := {[ key := JString data ]} |} in
          let payload := marshal_configMapPatch patch in
          let '(r, w) := Patch (cms_client c) (cms_name c) MergePatchType payload w in
          match r with
          | Err err =>
              if isResourceMissingError err then
                let '(cerr, w) := configMapStore_create c w in
                match cerr with
                | Some err => Some (Some err, w)
                | None => configMapStore_Set fuel c key value w
                end
              else Some (Some err, w)
          | Ok _ => Some (None, w)
          end
      end
  end.

Definition configMapStore_List (c : configMapStore) (w : W)
  : result (list string) * W :=
  let '(r, w) := Get (cms_client c) (cms_name c) w in
  match r with
  | Err err =>
      if isResourceMissingError err then (Ok [], w)
      else (Err err, w)
  | Ok configMap => (Ok (map_to_list (cm_Data configMap)).*1, w)
  end.

Definition configMapStore_Delete (c : configMapStore) (key : string) (w : W)
  : option error * W :=
  let patch := {| cmp_Data := {[ key := JNull ]} |} in
  let payload := marshal_configMapPatch patch in
  let '(r, w) := Patch (cms_client c) (cms_name c) MergePatchType payload w in
  match r with
  | Err err =>
      if isResourceMissingError err then (None, w)
      else (Some err, w)
  | Ok configMap =>
      if decide (size (cm_Data configMap) = 0%nat) then
        let '(_, w) := configMapStore_delete c w in (None, w)
      else (None, w)
  end.

Definition NewConfigMapStore (c : configMapStore) : Store Value W := {|
  Store_Get := configMapStore_Get c;
  Store_Set := fun fuel => configMapStore_Set fuel c;
  Store_List := configMapStore_List c;
  Store_Delete := configMapStore_Delete c |}.

End ConfigMapStore.
Arguments cms_client {W}.
Arguments cms_name {W}.
Arguments configMapStore_create {W}.
Arguments configMapStore_delete {W}.
Arguments configMapStore_Get {W}.
Arguments configMapStore_Set {W}.
Arguments configMapStore_List {W}.
Arguments configMapStore_Delete {W}.
Arguments NewConfigMapStore {W}.

Section SecretStore.
Variable W : Type.

Record secretStore := {
  ss_client : ResourceInterface Secret W;
  ss_name : string }.

Definition secretStore_create (c : secretStore) (w : W) : option error * W :=
  let '(r, w) := Create (ss_client c)
                   {| sec_Name := ss_name c; sec_Data := ∅; sec_StringData := ∅ |} w in
  match r with
  | Ok _ => (None, w)
  | Err err => (Some err, w)
  end.

Definition secretStore_delete (c : secretStore) (w : W) : option error * W :=
  Delete (ss_client c) (ss_name c) w.

Definition secretStore_Get (c : secretStore) (key : string) (w : W)
  : result Value * W :=
  let '(r, w) := Get (ss_client c) (ss_name c) w in
  match r with
  | Err err =>
      if isResourceMissingError err then (Err ErrorKeyNotFound, w)
      else (Err err, w)
  | Ok secret =>
      match sec_Data secret !! key with
      | None => (Err ErrorKeyNotFound, w)
      | Some data => (Unmarshal data, w)
      end
  end.

Fixpoint secretStore_Set (fuel : nat) (c : secretStore) (key : string)
    (value : Value) (w : W) : option (option error * W) :=
  match fuel with
  | O => None
  | S fuel =>
      match Marshal value with
      | Err err => Some (Some err, w)
      | Ok data =>
          let patch := {| sp_Data := ∅; sp_StringData := {[ key := JString data ]} |} in
          let payload := marshal_secretPatch patch in
          let '(r, w) := Patch (ss_client c) (ss_name c) MergePatchType payload w in
          match r with
          | Err err =>
              if isResourceMissingError err then
                let '(cerr, w) := secretStore_create c w in
                match cerr with
                | Some err => Some (Some err, w)
                | None => secretStore_Set fuel c key value w
                end
              else Some (Some err, w)
          | Ok _ => Some (None, w)
          end
      end
  end.

Definition secretStore_List (c : secretStore) (w : W)
  : result (list string) * W :=
  let '(r, w) := Get (ss_client c) (ss_name c) w in
  match r with
  | Err err =>
      if isResourceMissingError err then (Ok [], w)
      else (Err err, w)
  | Ok secret => (Ok (map_to_list (sec_Data secret)).*1, w)
  end.

Definition secretStore_Delete (c : secretStore) (key : string) (w : W)
  : option error * W :=
  let patch := {| sp_Data := {[ key := JNull ]}; sp_StringData := ∅ |} in
  let payload := marshal_secretPatch patch in
  let '(r, w) := Patch (ss_client c) (ss_name c) MergePatchType payload w in
  match r with
  | Err err =>
      if isResourceMissingError err then (None, w)
      else (Some err, w)
  | Ok secret =>
      if decide (size (sec_Data secret) = 0%nat) then
        let '(_, w) := secretStore_delete c w in (None, w)
      else (None, w)
  end.

Definition NewSecretStore (c : secretStore) : Store Value W := {|
  Store_Get := secretStore_Get c;
  Store_Set := fun fuel => secretStore_Set fuel c;
  Store_List := secretStore_List c;
  Store_Delete := secretStore_Delete c |}.

End SecretStore.
Arguments ss_client {W}.
Arguments ss_name {W}.
Arguments secretStore_create {W}.
Arguments secretStore_delete {W}.
Arguments secretStore_Get {W}.
Arguments secretStore_Set {W}.
Arguments secretStore_List {W}.
Arguments secretStore_Delete {W}.
Arguments NewSecretStore {W}.

Section AnnotationStore.
Variable W : Type.

Record annotationStore := {
  as_client : ResourceInterface Unstructured W;
  as_name : string }.

(** [fmt.Sprintf("%s/%s", annotationPrefix, key)] *)
Definition annotation_of (key : string) : string :=
  annotationPrefix +:+ "/" +:+ key.

Definition annotationStore_Get (c : annotationStore) (key : string) (w : W)
  : result Value * W :=
  let annotation := annotation_of key in
  let '(r, w) := Get (as_client c) (as_name c) w in
  match r with
  | Err err =>
      if isResourceMissingError err then (Err ErrorKeyNotFound, w)
      else (Err err, w)
  | Ok resource =>
      match GetAnnotations resource !! annotation with
      | None => (Err ErrorKeyNotFound, w)
      | Some data => (Unmarshal data, w)
      end
  end.

Definition annotationStore_Set (c : annotationStore) (key : string)
    (value : Value) (w : W) : option error * W :=
  let annotation := annotation_of key in
  match Marshal value with
  | Err err => (Some err, w)
  | Ok data =>
      let patch := {| ap_Metadata :=
                        {| mp_Annotations := {[ annotation := JString data ]} |} |} in
      let payload := marshal_annotationPatch patch in
      let '(r, w) := Patch (as_client c) (as_name c) MergePatchType payload w in
      match r with
      | Err err => (Some err, w)
      | Ok _ => (None, w)
      end
  end.

Definition annotationStore_List (c : annotationStore) (w : W)
  : result (list string) * W :=
  let '(r, w) := Get (as_client c) (as_name c) w in
  match r with
  | Err err =>
      if isResourceMissingError err then (Ok [], w)
      else (Err err, w)
  | Ok resource =>
      let keys :=
        omap (fun annotation =>
                if HasPrefix annotation (annotationPrefix +:+ "/")
                then Some (TrimPrefix annotation (annotationPrefix +:+ "/"))
                else None)
             (map_to_list (GetAnnotations resource)).*1 in
      (Ok keys, w)
  end.

Definition annotationStore_Delete (c : annotationStore) (key : string) (w : W)
  : option error * W :=
  let annotation := annotation_of key in
  let patch := {| ap_Metadata :=
                    {| mp_Annotations := {[ annotation := JNull ]} |} |} in
  let payload := marshal_annotationPatch patch in
  let '(r, w) := Patch (as_client c) (as_name c) MergePatchType payload w in
  match r with
  | Err err =>
      if isResourceMissingError err then (None, w)
      else (Some err, w)
  | Ok _ => (None, w)
  end.

Definition NewAnnotationStore (c : annotationStore) : Store Value W := {|
  Store_Get := annotationStore_Get c;
  Store_Set := fun _ key value w => Some (annotationStore_Set c key value w);
  Store_List := annotationStore_List c;
  Store_Delete := annotationStore_Delete c |}.

End AnnotationStore.
Arguments as_client {W}.
Arguments as_name {W}.
Arguments annotationStore_Get {W}.
Arguments annotationStore_Set {W}.
Arguments annotationStore_List {W}.
Arguments annotationStore_Delete {W}.
Arguments NewAnnotationStore {W}.

Section FileStore.

Record fileStore := { directory : string }.

Definition fileStore_Get (s : fileStore) (key : string) (fs : FS)
  : result Value * FS :=
  let filename := Join [directory s; key] in
  let '(r, fs) := ReadFile filename fs in
  match r with
  | Err err =>
      if IsNotExist err then (Err ErrorKeyNotFound, fs)
      else (Err err, fs)
  | Ok data => (Unmarshal data, fs)
  end.

Definition fileStore_Set (s : fileStore) (key : string) (value : Value) (fs : FS)
  : option error * FS :=
  let filename := Join [directory s; key] in
  match Marshal value with
  | Err err => (Some err, fs)
  | Ok data =>
      let '(err, fs) := MkdirAll (directory s) fs in
      match err with
      | Some err => (Some err, fs)
      | None => WriteFile filename data fs
      end
  end.

Definition fileStore_List (s : fileStore) (fs : FS) : result (list string) * FS :=
  let '(r, fs) := ReadDir (directory s) fs in
  match r with
  | Err _ => (Ok [], fs)
  | Ok infos => (Ok infos, fs)
  end.

Definition fileStore_Delete (s : fileStore) (key : string) (fs : FS)
  : option error * FS :=
  let filename := Join [directory s; key] in
  let '(err, fs) := Remove filename fs in
  match err with
  | Some err => (Some err, fs)
  | None =>
      let '(_, fs) := Remove (directory s) fs in
      (None, fs)
  end.

Definition NewFileStore (directory : string) : Store Value FS :=
  let s := {| directory := directory |} in {|
  Store_Get := fileStore_Get s;
  Store_Set := fun _ key value fs => Some (fileStore_Set s key value fs);
  Store_List := fileStore_List s;
  Store_Delete := fileStore_Delete s |}.

End FileStore.

(** ** Payloads *)

Definition configMap_set_payload (key data : string) : json :=
  marshal_configMapPatch {| cmp_Data := {[ key := JString data ]} |}.
Definition configMap_delete_payload (key : string) : json :=
  marshal_configMapPatch {| cmp_Data := {[ key := JNull ]} |}.
Definition secret_set_payload (key data : string) : json :=
  marshal_secretPatch {| sp_Data := ∅; sp_StringData := {[ key := JString data ]} |}.
Definition secret_delete_payload (key : string) : json :=
  marshal_secretPatch {| sp_Data := {[ key := JNull ]}; sp_StringData := ∅ |}.
Definition annotation_set_payload (key data : string) : json :=
  marshal_annotationPatch
    {| ap_Metadata := {| mp_Annotations := {[ annotation_of key := JString data ]} |} |}.
Definition annotation_delete_payload (key : string) : json :=
  marshal_annotationPatch
    {| ap_Metadata := {| mp_Annotations := {[ annotation_of key := JNull ]} |} |}.

Definition empty_ConfigMap (name : string) : ConfigMap :=
  {| cm_Name := name; cm_Data := ∅ |}.
Definition empty_Secret (name : string) : Secret :=
  {| sec_Name := name; sec_Data := ∅; sec_StringData := ∅ |}.

(** ** The stores as finite maps *)

(** What [Get] returns for the bytes stored under a key, if any. *)
Definition decode (stored : option string) : result Value :=
  match stored with
  | Some data => Unmarshal data
  | None => Err ErrorKeyNotFound
  end.

(** A store behaves as the map [view w] from keys to encoded values, on the
    states that satisfy [inv] and for the keys that satisfy [ok]. *)
Record refines {W} (s : Store Value W) (inv : W → Prop) (ok : string → Prop)
    (view : W → string → option string) : Prop := {
  refines_Get : ∀ key w, inv w → ok key →
    Store_Get s key w = (decode (view w key), w);
  refines_List : ∀ w, inv w →
    ∃ keys, Store_List s w = (Ok keys, w) ∧ NoDup keys ∧ ∀ k, k ∈ keys ↔ is_Some (view w k);
  refines_Set : ∀ fuel key value w w', inv w → ok key →
    Store_Set s fuel key value w = Some (None, w') →
    inv w' ∧ ∃ data, Marshal value = Ok data
                     ∧ ∀ k, view w' k = if decide (k = key) then Some data else view w k;
  refines_Delete : ∀ key w w', inv w → ok key →
    Store_Delete s key w = (None, w') →
    inv w' ∧ ∀ k, view w' k = if decide (k = key) then None else view w k }.

Definition configMap_view (name : string) (w : gmap string ConfigMap) (key : string)
  : option string :=
  match w !! name with
  | Some cm => cm_Data cm !! key
  | None => None
  end.

Definition secret_view (name : string) (w : gmap string Secret) (key : string)
  : option string :=
  match w !! name with
  | Some secret => sec_Data secret !! key
  | None => None
  end.

Definition annotation_view (name : string) (w : gmap string Unstructured) (key : string)
  : option string :=
  match w !! name with
  | Some resource => GetAnnotations resource !! annotation_of key
  | None => None
  end.

(** The annotation [annotation] of the resource, whatever its name is. *)
Definition annotation_at (name : string) (w : gmap string Unstructured) (annotation : string)
  : option string :=
  match w !! name with
  | Some resource => GetAnnotations resource !! annotation
  | None => None
  end.

(** A key that is one file name: no separator in it, and not one of the
    names that path resolution interprets. *)
Definition file_name (key : string) : Prop :=
  split_path key = [key] ∧ key ≠ "" ∧ key ≠ "." ∧ key ≠ "..".

(** The elements of a path that name something. *)
Definition names (elems : list string) : list string :=
  filter (λ c, ¬ (c = "" ∨ c = ".")) elems.

(** Where a directory path without [..] elements leads. *)
Definition dir_path (dir : string) (fs : FS) : list string :=
  start fs dir ++ names (split_path dir).

Definition file_view (dir : string) (fs : FS) (key : string) : option string :=
  match nodes fs !! (dir_path dir fs ++ [key]) with
  | Some (File data) => Some data
  | _ => None
  end.

(** Every node is in a directory. *)
Definition well_formed (nd : gmap (list string) node) : Prop :=
  ∀ p n, nd !! p = Some n → lookup_node nd (parent p) = Some Dir.

(** The states in which the file store over [dir] behaves as a map: no
    element of the directory's path is a regular file, and no entry of
    the directory is itself a directory. *)
Definition file_inv (dir : string) (fs : FS) : Prop :=
  well_formed (nodes fs)
  ∧ (∀ p data, p `prefix_of` dir_path dir fs → nodes fs !! p ≠ Some (File data))
  ∧ (∀ k, nodes fs !! (dir_path dir fs ++ [k]) ≠ Some Dir).

(** The properties of a store that the map gives: a stored value is read
    back; storing or deleting one key leaves what [Get] returns for any
    other key as it was; storing two keys in an empty store and deleting
    the first leaves exactly the second. *)
Definition reads_own_writes {W} (s : Store Value W) (inv : W → Prop) (ok : string → Prop) : Prop :=
  ∀ fuel key value w w',
    inv w → ok key →
    (∀ data, Marshal value = Ok data → Unmarshal data = Ok value) →
    Store_Set s fuel key value w = Some (None, w') →
    Store_Get s key w' = (Ok value, w').

Definition frames_other_keys {W} (s : Store Value W) (inv : W → Prop) (ok : string → Prop) : Prop :=
  ∀ key other w w',
    inv w → ok key → ok other → other ≠ key →
    ((∃ fuel value, Store_Set s fuel key value w = Some (None, w'))
     ∨ Store_Delete s key w = (None, w')) →
    fst (Store_Get s other w') = fst (Store_Get s other w).

Definition isolates_siblings {W} (s : Store Value W) (inv : W → Prop) (ok : string → Prop) : Prop :=
  ∀ f1 f2 k1 k2 v1 v2 w w1 w2 w3,
    inv w → ok k1 → ok k2 → k1 ≠ k2 →
    (∀ data, Marshal v2 = Ok data → Unmarshal data = Ok v2) →
    fst (Store_List s w) = Ok [] →
    Store_Set s f1 k1 v1 w = Some (None, w1) →
    Store_Set s f2 k2 v2 w1 = Some (None, w2) →
    Store_Delete s k1 w2 = (None, w3) →
    Store_Get s k2 w3 = (Ok v2, w3) ∧ Store_List s w3 = (Ok [k2], w3).

(** [List] succeeds before and after a [Set] or [Delete] that succeeds, has
    no duplicates, and has exactly the old keys with the key added or
    removed. *)
Definition List_follows_writes {W} (s : Store Value W) (inv : W → Prop) (ok : string → Prop)
  : Prop :=
  ∀ key w w',
    inv w → ok key →
    ∃ keys,
      Store_List s w = (Ok keys, w) ∧ NoDup keys
      ∧ (∀ fuel value,
           Store_Set s fuel key value w = Some (None, w') →
           ∃ keys', Store_List s w' = (Ok keys', w') ∧ NoDup keys'
                    ∧ ∀ k, k ∈ keys' ↔ k = key ∨ k ∈ keys)
      ∧ (Store_Delete s key w = (None, w') →
           ∃ keys', Store_List s w' = (Ok keys', w') ∧ NoDup keys'
                    ∧ ∀ k, k ∈ keys' ↔ k ≠ key ∧ k ∈ keys).

(** A key that was deleted is not found afterwards. *)
Definition Delete_forgets {W} (s : Store Value W) (inv : W → Prop) (ok : string → Prop)
  : Prop :=
  ∀ key w w',
    inv w → ok key →
    Store_Delete s key w = (None, w') →
    Store_Get s key w' = (Err ErrorKeyNotFound, w').

Lemma omitempty_singleton name k v :
  omitempty name {[ k := v ]} = [(name, JObject [(k, v)])].
Proof.
  unfold omitempty, marshal_map.
  destruct (decide (({[ k := v ]} : gmap string json) = ∅)) as [He|_].
  - exfalso. eapply (insert_non_empty (M := gmap string)). exact He.
  - by rewrite map_to_list_singleton.
Qed.

Lemma omitempty_empty name : omitempty name ∅ = [].
Proof. unfold omitempty. by rewrite decide_True. Qed.

Lemma configMap_set_payload_eq key data :
  configMap_set_payload key data = JObject [("data", JObject [(key, JString data)])].
Proof. unfold configMap_set_payload, marshal_configMapPatch. simpl. by rewrite omitempty_singleton. Qed.

Lemma configMap_delete_payload_eq key :
  configMap_delete_payload key = JObject [("data", JObject [(key, JNull)])].
Proof. unfold configMap_delete_payload, marshal_configMapPatch. simpl. by rewrite omitempty_singleton. Qed.

Lemma secret_set_payload_eq key data :
  secret_set_payload key data = JObject [("stringData", JObject [(key, JString data)])].
Proof.
  unfold secret_set_payload, marshal_secretPatch. simpl.
  by rewrite omitempty_singleton, omitempty_empty.
Qed.

Lemma secret_delete_payload_eq key :
  secret_delete_payload key = JObject [("data", JObject [(key, JNull)])].
Proof.
  unfold secret_delete_payload, marshal_secretPatch. simpl.
  by rewrite omitempty_singleton, omitempty_empty.
Qed.

Lemma annotation_set_payload_eq key data :
  annotation_set_payload key data =
  JObject [("metadata", JObject [("annotations", JObject [(annotation_of key, JString data)])])].
Proof. unfold annotation_set_payload, marshal_annotationPatch. simpl. by rewrite omitempty_singleton. Qed.

Lemma annotation_delete_payload_eq key :
  annotation_delete_payload key =
  JObject [("metadata", JObject [("annotations", JObject [(annotation_of key, JNull)])])].
Proof. unfold annotation_delete_payload, marshal_annotationPatch. simpl. by rewrite omitempty_singleton. Qed.

(** ** The not-found classifier and what the stores do with the rest *)

Lemma isResourceMissingError_spec e :
  isResourceMissingError e = true ↔ ∃ st, e = StatusError st ∧ Code st = 404.
Proof.
  split.
  - destruct e as [| st | | |]; simpl; try discriminate.
    intros H. exists st. split; [done|]. by apply Z.eqb_eq.
  - intros (st & -> & Hc). simpl. by apply Z.eqb_eq.
Qed.

Section Propagation.
Context {W : Type}.

Lemma configMapStore_Get_propagates (c : configMapStore W) key w e w1 :
  Get (cms_client c) (cms_name c) w = (Err e, w1) →
  isResourceMissingError e = false →
  configMapStore_Get c key w = (Err e, w1).
Proof. intros Hg He. unfold configMapStore_Get. by rewrite Hg, He. Qed.

Lemma configMapStore_List_propagates (c : configMapStore W) w e w1 :
  Get (cms_client c) (cms_name c) w = (Err e, w1) →
  isResourceMissingError e = false →
  configMapStore_List c w = (Err e, w1).
Proof. intros Hg He. unfold configMapStore_List. by rewrite Hg, He. Qed.

Lemma configMapStore_Delete_propagates (c : configMapStore W) key w e w1 :
  Patch (cms_client c) (cms_name c) MergePatchType (configMap_delete_payload key) w = (Err e, w1) →
  isResourceMissingError e = false →
  configMapStore_Delete c key w = (Some e, w1).
Proof.
  intros Hp He. unfold configMapStore_Delete.
  fold (configMap_delete_payload key). by rewrite Hp, He.
Qed.

Lemma configMapStore_Set_propagates (c : configMapStore W) fuel key value data w e w1 :
  Marshal value = Ok data →
  Patch (cms_client c) (cms_name c) MergePatchType (configMap_set_payload key data) w = (Err e, w1) →
  isResourceMissingError e = false →
  configMapStore_Set (S fuel) c key value w = Some (Some e, w1).
Proof.
  intros Hm Hp He. simpl. rewrite Hm.
  fold (configMap_set_payload key data). by rewrite Hp, He.
Qed.

Lemma secretStore_Get_propagates (c : secretStore W) key w e w1 :
  Get (ss_client c) (ss_name c) w = (Err e, w1) →
  isResourceMissingError e = false →
  secretStore_Get c key w = (Err e, w1).
Proof. intros Hg He. unfold secretStore_Get. by rewrite Hg, He. Qed.

Lemma secretStore_List_propagates (c : secretStore W) w e w1 :
  Get (ss_client c) (ss_name c) w = (Err e, w1) →
  isResourceMissingError e = false →
  secretStore_List c w = (Err e, w1).
Proof. intros Hg He. unfold secretStore_List. by rewrite Hg, He. Qed.

Lemma secretStore_Delete_propagates (c : secretStore W) key w e w1 :
  Patch (ss_client c) (ss_name c) MergePatchType (secret_delete_payload key) w = (Err e, w1) →
  isResourceMissingError e = false →
  secretStore_Delete c key w = (Some e, w1).
Proof.
  intros Hp He. unfold secretStore_Delete.
  fold (secret_delete_payload key). by rewrite Hp, He.
Qed.

Lemma secretStore_Set_propagates (c : secretStore W) fuel key value data w e w1 :
  Marshal value = Ok data →
  Patch (ss_client c) (ss_name c) MergePatchType (secret_set_payload key data) w = (Err e, w1) →
  isResourceMissingError e = false →
  secretStore_Set (S fuel) c key value w = Some (Some e, w1).
Proof.
  intros Hm Hp He. simpl. rewrite Hm.
  fold (secret_set_payload key data). by rewrite Hp, He.
Qed.

Lemma annotationStore_Get_propagates (c : annotationStore W) key w e w1 :
  Get (as_client c) (as_name c) w = (Err e, w1) →
  isResourceMissingError e = false →
  annotationStore_Get c key w = (Err e, w1).
Proof. intros Hg He. unfold annotationStore_Get. by rewrite Hg, He. Qed.

Lemma annotationStore_List_propagates (c : annotationStore W) w e w1 :
  Get (as_client c) (as_name c) w = (Err e, w1) →
  isResourceMissingError e = false →
  annotationStore_List c w = (Err e, w1).
Proof. intros Hg He. unfold annotationStore_List. by rewrite Hg, He. Qed.

Lemma annotationStore_Delete_propagates (c : annotationStore W) key w e w1 :
  Patch (as_client c) (as_name c) MergePatchType (annotation_delete_payload key) w = (Err e, w1) →
  isResourceMissingError e = false →
  annotationStore_Delete c key w = (Some e, w1).
Proof.
  intros Hp He. unfold annotationStore_Delete.
  fold (annotation_delete_payload key). by rewrite Hp, He.
Qed.

Lemma annotationStore_Set_propagates (c : annotationStore W) key value data w e w1 :
  Marshal value = Ok data →
  Patch (as_client c) (as_name c) MergePatchType (annotation_set_payload key data) w = (Err e, w1) →
  annotationStore_Set c key value w = (Some e, w1).
Proof.
  intros Hm Hp. unfold annotationStore_Set. rewrite Hm.
  fold (annotation_set_payload key data). by rewrite Hp.
Qed.

End Propagation.

(** C9.  An error counts as "the container is absent" exactly when it is a
    [StatusError] itself whose code is 404.  The same error wrapped in
    another error is not, and neither is any other error: with a fetch or
    patch that fails with such an error [e], the ConfigMap, Secret and
    annotation stores return [e] itself from [Get], [List] and [Delete],
    not the not-found sentinel, an empty list or success. *)
Theorem isResourceMissingError_direct_404_only (e : error) :
  (isResourceMissingError e = true ↔ ∃ st, e = StatusError st ∧ Code st = 404)
  ∧ (∀ msg, isResourceMissingError (wrapError msg e) = false)
  ∧ (isResourceMissingError e = false →
     (∀ W (c : configMapStore W) key w w1,
        (Get (cms_client c) (cms_name c) w = (Err e, w1) →
         configMapStore_Get c key w = (Err e, w1)
         ∧ configMapStore_List c w = (Err e, w1))
        ∧ (Patch (cms_client c) (cms_name c) MergePatchType
             (configMap_delete_payload key) w = (Err e, w1) →
           configMapStore_Delete c key w = (Some e, w1)))
     ∧ (∀ W (c : secretStore W) key w w1,
        (Get (ss_client c) (ss_name c) w = (Err e, w1) →
         secretStore_Get c key w = (Err e, w1)
         ∧ secretStore_List c w = (Err e, w1))
        ∧ (Patch (ss_client c) (ss_name c) MergePatchType
             (secret_delete_payload key) w = (Err e, w1) →
           secretStore_Delete c key w = (Some e, w1)))
     ∧ (∀ W (c : annotationStore W) key w w1,
        (Get (as_client c) (as_name c) w = (Err e, w1) →
         annotationStore_Get c key w = (Err e, w1)
         ∧ annotationStore_List c w = (Err e, w1))
        ∧ (Patch (as_client c) (as_name c) MergePatchType
             (annotation_delete_payload key) w = (Err e, w1) →
           annotationStore_Delete c key w = (Some e, w1)))).
Proof.
  split; [apply isResourceMissingError_spec|].
  split; [done|].
  intros He. repeat split; intros.
  - by apply configMapStore_Get_propagates.
  - by apply configMapStore_List_propagates.
  - by apply configMapStore_Delete_propagates.
  - by apply secretStore_Get_propagates.
  - by apply secretStore_List_propagates.
  - by apply secretStore_Delete_propagates.
  - by apply annotationStore_Get_propagates.
  - by apply annotationStore_List_propagates.
  - by apply annotationStore_Delete_propagates.
Qed.

(** ** Creation on demand in [Set] *)

Section CreateOnDemand.
Context {W : Type}.

Lemma configMapStore_Set_create_fails (c : configMapStore W) fuel key value data w e w1 e' w2 :
  Marshal value = Ok data →
  Patch (cms_client c) (cms_name c) MergePatchType (configMap_set_payload key data) w = (Err e, w1) →
  isResourceMissingError e = true →
  Create (cms_client c) (empty_ConfigMap (cms_name c)) w1 = (Err e', w2) →
  configMapStore_Set (S fuel) c key value w = Some (Some e', w2).
Proof.
  intros Hm Hp He Hc. simpl. rewrite Hm.
  fold (configMap_set_payload key data). rewrite Hp, He.
  unfold configMapStore_create. fold (empty_ConfigMap (cms_name c)). by rewrite Hc.
Qed.

Lemma configMapStore_Set_retries (c : configMapStore W) fuel key value data w e w1 r w2 :
  Marshal value = Ok data →
  Patch (cms_client c) (cms_name c) MergePatchType (configMap_set_payload key data) w = (Err e, w1) →
  isResourceMissingError e = true →
  Create (cms_client c) (empty_ConfigMap (cms_name c)) w1 = (Ok r, w2) →
  configMapStore_Set (S fuel) c key value w = configMapStore_Set fuel c key value w2.
Proof.
  intros Hm Hp He Hc. simpl. rewrite Hm.
  fold (configMap_set_payload key data). rewrite Hp, He.
  unfold configMapStore_create. fold (empty_ConfigMap (cms_name c)). by rewrite Hc.
Qed.

Lemma configMapStore_Set_patched (c : configMapStore W) fuel key value data w r w1 :
  Marshal value = Ok data →
  Patch (cms_client c) (cms_name c) MergePatchType (configMap_set_payload key data) w = (Ok r, w1) →
  configMapStore_Set (S fuel) c key value w = Some (None, w1).
Proof.
  intros Hm Hp. simpl. rewrite Hm.
  fold (configMap_set_payload key data). by rewrite Hp.
Qed.

Lemma secretStore_Set_create_fails (c : secretStore W) fuel key value data w e w1 e' w2 :
  Marshal value = Ok data →
  Patch (ss_client c) (ss_name c) MergePatchType (secret_set_payload key data) w = (Err e, w1) →
  isResourceMissingError e = true →
  Create (ss_client c) (empty_Secret (ss_name c)) w1 = (Err e', w2) →
  secretStore_Set (S fuel) c key value w = Some (Some e', w2).
Proof.
  intros Hm Hp He Hc. simpl. rewrite Hm.
  fold (secret_set_payload key data). rewrite Hp, He.
  unfold secretStore_create. fold (empty_Secret (ss_name c)). by rewrite Hc.
Qed.

Lemma secretStore_Set_retries (c : secretStore W) fuel key value data w e w1 r w2 :
  Marshal value = Ok data →
  Patch (ss_client c) (ss_name c) MergePatchType (secret_set_payload key data) w = (Err e, w1) →
  isResourceMissingError e = true →
  Create (ss_client c) (empty_Secret (ss_name c)) w1 = (Ok r, w2) →
  secretStore_Set (S fuel) c key value w = secretStore_Set fuel c key value w2.
Proof.
  intros Hm Hp He Hc. simpl. rewrite Hm.
  fold (secret_set_payload key data). rewrite Hp, He.
  unfold secretStore_create. fold (empty_Secret (ss_name c)). by rewrite Hc.
Qed.

Lemma secretStore_Set_patched (c : secretStore W) fuel key value data w r w1 :
  Marshal value = Ok data →
  Patch (ss_client c) (ss_name c) MergePatchType (secret_set_payload key data) w = (Ok r, w1) →
  secretStore_Set (S fuel) c key value w = Some (None, w1).
Proof.
  intros Hm Hp. simpl. rewrite Hm.
  fold (secret_set_payload key data). by rewrite Hp.
Qed.

Lemma configMapStore_Set_unmarshalable (c : configMapStore W) fuel key value e w :
  Marshal value = Err e →
  configMapStore_Set (S fuel) c key value w = Some (Some e, w).
Proof. intros Hm. simpl. by rewrite Hm. Qed.

Lemma secretStore_Set_unmarshalable (c : secretStore W) fuel key value e w :
  Marshal value = Err e →
  secretStore_Set (S fuel) c key value w = Some (Some e, w).
Proof. intros Hm. simpl. by rewrite Hm. Qed.

End CreateOnDemand.

(** C4, as the code has it.  When the first merge-patch of [Set] fails with
    the not-found classification and the creation of the container fails
    with any error [e'] (that the container already exists included), [Set]
    returns [e'] and asks nothing more of the client: the calls made are
    that one patch and that one creation. *)
Theorem Set_returns_creation_failure :
  (∀ W (c0 : ResourceInterface ConfigMap W) name fuel key value data w e w1 e' w2,
     Marshal value = Ok data →
     Patch c0 name MergePatchType (configMap_set_payload key data) w = (Err e, w1) →
     isResourceMissingError e = true →
     Create c0 (empty_ConfigMap name) w1 = (Err e', w2) →
     configMapStore_Set (S fuel) {| cms_client := recording c0; cms_name := name |}
       key value ([], w)
     = Some (Some e',
             ([CallPatch name MergePatchType (configMap_set_payload key data);
               CallCreate (empty_ConfigMap name)], w2)))
  ∧ (∀ W (c0 : ResourceInterface Secret W) name fuel key value data w e w1 e' w2,
     Marshal value = Ok data →
     Patch c0 name MergePatchType (secret_set_payload key data) w = (Err e, w1) →
     isResourceMissingError e = true →
     Create c0 (empty_Secret name) w1 = (Err e', w2) →
     secretStore_Set (S fuel) {| ss_client := recording c0; ss_name := name |}
       key value ([], w)
     = Some (Some e',
             ([CallPatch name MergePatchType (secret_set_payload key data);
               CallCreate (empty_Secret name)], w2))).
Proof.
  split; intros W c0 name fuel key value data w e w1 e' w2 Hm Hp He Hc.
  - apply configMapStore_Set_create_fails with
      (data := data) (e := e)
      (w1 := ([CallPatch name MergePatchType (configMap_set_payload key data)], w1));
      [done | simpl; by rewrite Hp | done | simpl; by rewrite Hc].
  - apply secretStore_Set_create_fails with
      (data := data) (e := e)
      (w1 := ([CallPatch name MergePatchType (secret_set_payload key data)], w1));
      [done | simpl; by rewrite Hp | done | simpl; by rewrite Hc].
Qed.

(** ** How often [Set] retries *)

Lemma retry_calls_patches {R} n (r : R) name pt payload :
  length (List.filter is_patch (retry_calls n (CallPatch name pt payload) (CallCreate r))) = S n
  ∧ length (List.filter is_create (retry_calls n (CallPatch name pt payload) (CallCreate r))) = n.
Proof. induction n as [|n [IH1 IH2]]; simpl; [done|]. by rewrite IH1, IH2. Qed.

Lemma configMapStore_Set_rounds n name key value data log :
  Marshal value = Ok data →
  configMapStore_Set (S n) {| cms_client := recording scripted; cms_name := name |}
    key value (log, rounds n (empty_ConfigMap name))
  = Some (None,
          (log ++ retry_calls n (CallPatch name MergePatchType (configMap_set_payload key data))
                    (CallCreate (empty_ConfigMap name)), [])).
Proof.
  intros Hm. revert log. induction n as [|n IH]; intros log.
  - by erewrite configMapStore_Set_patched.
  - erewrite configMapStore_Set_retries; [| done | by simpl | done | by simpl].
    rewrite IH. by rewrite <- !app_assoc.
Qed.

Lemma secretStore_Set_rounds n name key value data log :
  Marshal value = Ok data →
  secretStore_Set (S n) {| ss_client := recording scripted; ss_name := name |}
    key value (log, rounds n (empty_Secret name))
  = Some (None,
          (log ++ retry_calls n (CallPatch name MergePatchType (secret_set_payload key data))
                    (CallCreate (empty_Secret name)), [])).
Proof.
  intros Hm. revert log. induction n as [|n IH]; intros log.
  - by erewrite secretStore_Set_patched.
  - erewrite secretStore_Set_retries; [| done | by simpl | done | by simpl].
    rewrite IH. by rewrite <- !app_assoc.
Qed.

Lemma configMapStore_Set_vanishing fuel name key value data :
  Marshal value = Ok data →
  configMapStore_Set fuel {| cms_client := vanishing; cms_name := name |} key value () = None.
Proof.
  intros Hm. induction fuel as [|fuel IH]; [done|].
  by erewrite configMapStore_Set_retries.
Qed.

Lemma secretStore_Set_vanishing fuel name key value data :
  Marshal value = Ok data →
  secretStore_Set fuel {| ss_client := vanishing; ss_name := name |} key value () = None.
Proof.
  intros Hm. induction fuel as [|fuel IH]; [done|].
  by erewrite secretStore_Set_retries.
Qed.

(** C5, as the code has it.  [Set] calls itself again after every creation
    that succeeds, without a bound of its own: for every [n], against a
    client whose first [n] merge-patches fail with the not-found
    classification, each followed by a creation that succeeds, and whose
    next merge-patch succeeds, [Set] returns success after [n + 1]
    merge-patch attempts and [n] creations, and with fewer than [n + 1]
    nested calls it has not returned; against a client whose every
    merge-patch fails with the not-found classification and whose every
    creation succeeds, [Set] does not return, however many nested calls it
    is given. *)
Theorem Set_retries_after_every_creation (n : nat) name key value data :
  Marshal value = Ok data →
  let cm := {| cms_client := recording scripted; cms_name := name |} in
  let sec := {| ss_client := recording scripted; ss_name := name |} in
  (∃ log,
     configMapStore_Set (S n) cm key value ([], rounds n (empty_ConfigMap name))
     = Some (None, (log, []))
     ∧ length (List.filter is_patch log) = S n
     ∧ length (List.filter is_create log) = n)
  ∧ (∃ log,
     secretStore_Set (S n) sec key value ([], rounds n (empty_Secret name))
     = Some (None, (log, []))
     ∧ length (List.filter is_patch log) = S n
     ∧ length (List.filter is_create log) = n)
  ∧ (∀ fuel, (fuel ≤ n)%nat →
       configMapStore_Set fuel cm key value ([], rounds n (empty_ConfigMap name)) = None
       ∧ secretStore_Set fuel sec key value ([], rounds n (empty_Secret name)) = None)
  ∧ (∀ fuel,
       configMapStore_Set fuel {| cms_client := vanishing; cms_name := name |} key value () = None
       ∧ secretStore_Set fuel {| ss_client := vanishing; ss_name := name |} key value () = None).
Proof.
  intros Hm cm sec. repeat split.
  - eexists. split; [by apply configMapStore_Set_rounds|]. apply retry_calls_patches.
  - eexists. split; [by apply secretStore_Set_rounds|]. apply retry_calls_patches.
  - revert n H. generalize (@nil (call ConfigMap)).
    induction fuel as [|fuel IH]; intros log n Hle; [done|].
    destruct n as [|n]; [lia|].
    subst cm. erewrite configMapStore_Set_retries; [| done | by simpl | done | by simpl].
    apply IH. lia.
  - revert n H. generalize (@nil (call Secret)).
    induction fuel as [|fuel IH]; intros log n Hle; [done|].
    destruct n as [|n]; [lia|].
    subst sec. erewrite secretStore_Set_retries; [| done | by simpl | done | by simpl].
    apply IH. lia.
  - by eapply configMapStore_Set_vanishing.
  - by eapply secretStore_Set_vanishing.
Qed.

(** ** Cleaning up after [Delete] *)

(** C6.  When the removal of the key succeeds and the container that comes
    back has no entries (ConfigMap, Secret), or simply when the removal of
    the file succeeds (directory), [Delete] goes on to delete the container,
    and whatever that deletion returns, an error included, [Delete] returns
    success. *)
Theorem Delete_cleanup_failure_not_surfaced :
  (∀ W (c : configMapStore W) key w configMap w1 cleanup w2,
     Patch (cms_client c) (cms_name c) MergePatchType (configMap_delete_payload key) w
       = (Ok configMap, w1) →
     cm_Data configMap = ∅ →
     Delete (cms_client c) (cms_name c) w1 = (cleanup, w2) →
     configMapStore_Delete c key w = (None, w2))
  ∧ (∀ W (c : secretStore W) key w secret w1 cleanup w2,
     Patch (ss_client c) (ss_name c) MergePatchType (secret_delete_payload key) w
       = (Ok secret, w1) →
     sec_Data secret = ∅ →
     Delete (ss_client c) (ss_name c) w1 = (cleanup, w2) →
     secretStore_Delete c key w = (None, w2))
  ∧ (∀ (s : fileStore) key fs fs1 cleanup fs2,
     Remove (Join [directory s; key]) fs = (None, fs1) →
     Remove (directory s) fs1 = (cleanup, fs2) →
     fileStore_Delete s key fs = (None, fs2)).
Proof.
  repeat split.
  - intros W c key w configMap w1 cleanup w2 Hp He Hd.
    unfold configMapStore_Delete. fold (configMap_delete_payload key).
    rewrite Hp, He, map_size_empty. simpl.
    unfold configMapStore_delete. by rewrite Hd.
  - intros W c key w secret w1 cleanup w2 Hp He Hd.
    unfold secretStore_Delete. fold (secret_delete_payload key).
    rewrite Hp, He, map_size_empty. simpl.
    unfold secretStore_delete. by rewrite Hd.
  - intros s key fs fs1 cleanup fs2 Hr Hd.
    unfold fileStore_Delete. by rewrite Hr, Hd.
Qed.

(** ** The fields the Secret store writes and reads *)

Lemma secretStore_Set_calls {W} (c0 : ResourceInterface Secret W) name fuel key value data
    log w res log' w' :
  Marshal value = Ok data →
  secretStore_Set fuel {| ss_client := recording c0; ss_name := name |} key value (log, w)
    = Some (res, (log', w')) →
  ∃ n, log' = log ++ retry_calls n (CallPatch name MergePatchType (secret_set_payload key data))
                       (CallCreate (empty_Secret name))
       ∨ log' = log ++ retry_calls n (CallPatch name MergePatchType (secret_set_payload key data))
                       (CallCreate (empty_Secret name))
                    ++ [CallCreate (empty_Secret name)].
Proof.
  intros Hm. revert log w. induction fuel as [|fuel IH]; intros log w; [done|].
  simpl. rewrite Hm. fold (secret_set_payload key data).
  destruct (Patch c0 name MergePatchType (secret_set_payload key data) w) as [[r|e] w1] eqn:Hp.
  - intros [= <- <- <-]. exists 0%nat. by left.
  - destruct (isResourceMissingError e).
    + unfold secretStore_create. simpl. fold (empty_Secret name).
      destruct (Create c0 (empty_Secret name) w1) as [[r|e'] w2] eqn:Hc.
      * intros Hs. apply IH in Hs as [n [-> | ->]]; exists (S n); [left|right];
          simpl; by rewrite <- !app_assoc.
      * intros [= <- <- <-]. exists 0%nat. right. by rewrite <- !app_assoc.
    + intros [= <- <- <-]. exists 0%nat. by left.
Qed.

Lemma retry_calls_Forall {R} (P : call R → Prop) n patch create :
  P patch → P create → Forall P (retry_calls n patch create).
Proof. intros Hp Hc. induction n; simpl; repeat constructor; done. Qed.

(** C7.  The patch that the Secret store's [Set] sends has the encoded
    value under [stringData] and has no [data] field, and [Set] sends no
    other patch; [Get] returns what the [Data] map of the fetched Secret
    has under the key, whatever its [StringData] is; the patch that
    [Delete] sends has the null under [data] and has no [stringData]
    field, and it is the one patch [Delete] sends. *)
Theorem secretStore_writes_stringData_reads_data :
  (∀ key data,
     secret_set_payload key data = JObject [("stringData", JObject [(key, JString data)])])
  ∧ (∀ key, secret_delete_payload key = JObject [("data", JObject [(key, JNull)])])
  ∧ (∀ W (c0 : ResourceInterface Secret W) name fuel key value data w res log w',
     Marshal value = Ok data →
     secretStore_Set fuel {| ss_client := recording c0; ss_name := name |} key value ([], w)
       = Some (res, (log, w')) →
     Forall (λ called, is_patch called = true →
                       called = CallPatch name MergePatchType (secret_set_payload key data)) log
     ∧ (1 ≤ length (List.filter is_patch log))%nat)
  ∧ (∀ W (c : secretStore W) key w secret w1,
     Get (ss_client c) (ss_name c) w = (Ok secret, w1) →
     secretStore_Get c key w
     = (match sec_Data secret !! key with
        | Some data => Unmarshal data
        | None => Err ErrorKeyNotFound
        end, w1))
  ∧ (∀ W (c0 : ResourceInterface Secret W) name key w,
     List.filter is_patch
       (fst (snd (secretStore_Delete {| ss_client := recording c0; ss_name := name |} key ([], w))))
     = [CallPatch name MergePatchType (secret_delete_payload key)]).
Proof.
  split; [apply secret_set_payload_eq|].
  split; [apply secret_delete_payload_eq|].
  split; [|split].
  - intros W c0 name fuel key value data w res log w' Hm Hs.
    destruct (secretStore_Set_calls _ _ _ _ _ _ _ _ _ _ _ Hm Hs) as [n Hlog].
    simpl in Hlog.
    assert (Hall : Forall (λ called : call Secret, is_patch called = true →
               called = CallPatch name MergePatchType (secret_set_payload key data))
             (retry_calls n (CallPatch name MergePatchType (secret_set_payload key data))
                (CallCreate (empty_Secret name)))).
    { apply retry_calls_Forall; [done|]. by intros [=]. }
    destruct (retry_calls_patches n (empty_Secret name) name MergePatchType
                (secret_set_payload key data)) as [Hn _].
    destruct Hlog as [-> | ->].
    + split; [done|]. rewrite Hn. lia.
    + split.
      * apply Forall_app. split; [done|]. repeat constructor. by intros [=].
      * rewrite List.filter_app, length_app, Hn. lia.
  - intros W c key w secret w1 Hg. unfold secretStore_Get. rewrite Hg.
    by destruct (sec_Data secret !! key).
  - intros W c0 name key w. unfold secretStore_Delete. simpl.
    fold (secret_delete_payload key).
    destruct (Patch c0 name MergePatchType (secret_delete_payload key) w) as [[r|e] w1].
    + destruct (decide (size (sec_Data r) = 0%nat)); [|done].
      unfold secretStore_delete. simpl. by destruct (Delete c0 name w1).
    + by destruct (isResourceMissingError e).
Qed.

(** ** What follows from behaving as a map *)

Section Refinement.
Context {W : Type} (s : Store Value W) (inv : W → Prop) (ok : string → Prop)
        (view : W → string → option string).
Hypothesis Href : refines s inv ok view.

Lemma refines_reads_own_writes : reads_own_writes s inv ok.
Proof.
  intros fuel key value w w' Hinv Hok Hrt Hset.
  destruct (refines_Set _ _ _ _ Href _ _ _ _ _ Hinv Hok Hset) as (Hinv' & data & Hm & Hv).
  rewrite (refines_Get _ _ _ _ Href) by done.
  rewrite Hv, decide_True by done. simpl. by rewrite (Hrt _ Hm).
Qed.

Lemma refines_frames_other_keys : frames_other_keys s inv ok.
Proof.
  intros key other w w' Hinv Hok Hok' Hne [(fuel & value & Hset) | Hdel].
  - destruct (refines_Set _ _ _ _ Href _ _ _ _ _ Hinv Hok Hset) as (Hinv' & data & Hm & Hv).
    rewrite !(refines_Get _ _ _ _ Href) by done. simpl.
    by rewrite Hv, decide_False.
  - destruct (refines_Delete _ _ _ _ Href _ _ _ Hinv Hok Hdel) as (Hinv' & Hv).
    rewrite !(refines_Get _ _ _ _ Href) by done. simpl.
    by rewrite Hv, decide_False.
Qed.

Lemma refines_isolates_siblings : isolates_siblings s inv ok.
Proof.
  intros f1 f2 k1 k2 v1 v2 w w1 w2 w3 Hinv Hok1 Hok2 Hne Hrt Hempty Hs1 Hs2 Hdel.
  destruct (refines_List _ _ _ _ Href _ Hinv) as (keys & Hl & _ & Hkeys).
  rewrite Hl in Hempty. simpl in Hempty. injection Hempty as ->.
  assert (Hnone : ∀ k, view w k = None).
  { intros k. destruct (view w k) eqn:Hk; [|done].
    exfalso. eapply not_elem_of_nil. apply Hkeys. by rewrite Hk. }
  destruct (refines_Set _ _ _ _ Href _ _ _ _ _ Hinv Hok1 Hs1) as (Hinv1 & d1 & Hm1 & Hv1).
  destruct (refines_Set _ _ _ _ Href _ _ _ _ _ Hinv1 Hok2 Hs2) as (Hinv2 & d2 & Hm2 & Hv2).
  destruct (refines_Delete _ _ _ _ Href _ _ _ Hinv2 Hok1 Hdel) as (Hinv3 & Hv3).
  assert (Hview : ∀ k, view w3 k = if decide (k = k2) then Some d2 else None).
  { intros k. rewrite Hv3, Hv2, Hv1, Hnone.
    repeat case_decide; congruence. }
  split.
  - rewrite (refines_Get _ _ _ _ Href) by done.
    rewrite Hview, decide_True by done. simpl. by rewrite (Hrt _ Hm2).
  - destruct (refines_List _ _ _ _ Href _ Hinv3) as (keys3 & Hl3 & Hnd & Hkeys3).
    rewrite Hl3. f_equal. f_equal.
    apply Permutation_singleton_r, NoDup_Permutation; [done | apply NoDup_singleton |].
    intros k. rewrite Hkeys3, Hview, list_elem_of_singleton.
    case_decide; split; intros Hx; try done; by destruct Hx.
Qed.

End Refinement.

(** ** The ConfigMap store against the API server *)

Lemma NoDup_keys (m : gmap string string) : NoDup (map_to_list m).*1.
Proof. apply NoDup_fst_map_to_list. Qed.

Lemma elem_of_keys (m : gmap string string) k :
  k ∈ (map_to_list m).*1 ↔ is_Some (m !! k).
Proof.
  rewrite list_elem_of_fmap. split.
  - intros ([k' v] & -> & Hin). apply elem_of_map_to_list in Hin. by exists v.
  - intros [v Hv]. exists (k, v). split; [done|]. by apply elem_of_map_to_list.
Qed.

Section ApiServer.
Context {R : Type} (named : R → string) (persist : R → R) (merge : json → R → result R).

Lemma apiserver_Get_present name w r :
  w !! name = Some r → Get (apiserver named persist merge) name w = (Ok r, w).
Proof. intros Hw. simpl. by rewrite Hw. Qed.

Lemma apiserver_Get_absent name w :
  w !! name = None → Get (apiserver named persist merge) name w = (Err NotFound, w).
Proof. intros Hw. simpl. by rewrite Hw. Qed.

Lemma apiserver_Patch_present name data w r r' :
  w !! name = Some r → merge data r = Ok r' →
  Patch (apiserver named persist merge) name MergePatchType data w = (Ok r', <[name := r']> w).
Proof. intros Hw Hmerge. simpl. by rewrite Hw, Hmerge. Qed.

Lemma apiserver_Patch_absent name pt data w :
  w !! name = None →
  Patch (apiserver named persist merge) name pt data w = (Err NotFound, w).
Proof. intros Hw. simpl. by rewrite Hw. Qed.

Lemma apiserver_Create_absent r w :
  w !! named r = None →
  Create (apiserver named persist merge) r w = (Ok (persist r), <[named r := persist r]> w).
Proof. intros Hw. simpl. by rewrite Hw. Qed.

Lemma apiserver_Delete_present name w r :
  w !! name = Some r → Delete (apiserver named persist merge) name w = (None, delete name w).
Proof. intros Hw. simpl. by rewrite Hw. Qed.

End ApiServer.

Section ConfigMapServer.
Variable name : string.

Let store : configMapStore (gmap string ConfigMap) :=
  {| cms_client := configMap_apiserver; cms_name := name |}.

Lemma configMapStore_Get_apiserver key w :
  configMapStore_Get store key w = (decode (configMap_view name w key), w).
Proof.
  unfold configMapStore_Get, configMap_view. simpl.
  destruct (w !! name) as [cm|]; simpl; [|done].
  by destruct (cm_Data cm !! key).
Qed.

Lemma configMapStore_List_apiserver w :
  ∃ keys, configMapStore_List store w = (Ok keys, w) ∧ NoDup keys
          ∧ ∀ k, k ∈ keys ↔ is_Some (configMap_view name w k).
Proof.
  unfold configMapStore_List, configMap_view. simpl.
  destruct (w !! name) as [cm|]; simpl.
  - eexists. split; [done|]. split; [apply NoDup_keys|]. apply elem_of_keys.
  - exists []. split; [done|]. split; [constructor|].
    intros k. split; [by intros ?%not_elem_of_nil | by intros [? ?]].
Qed.

Lemma merge_ConfigMap_set key data cm :
  merge_ConfigMap (configMap_set_payload key data) cm
  = Ok {| cm_Name := cm_Name cm; cm_Data := <[key := data]> (cm_Data cm) |}.
Proof. by rewrite configMap_set_payload_eq. Qed.

Lemma merge_ConfigMap_delete key cm :
  merge_ConfigMap (configMap_delete_payload key) cm
  = Ok {| cm_Name := cm_Name cm; cm_Data := delete key (cm_Data cm) |}.
Proof. by rewrite configMap_delete_payload_eq. Qed.

Lemma configMap_view_insert w cm k :
  configMap_view name (<[name := cm]> w) k = cm_Data cm !! k.
Proof. unfold configMap_view. by rewrite lookup_insert_eq. Qed.

Lemma configMapStore_Set_present fuel key value data w cm :
  Marshal value = Ok data → w !! name = Some cm →
  configMapStore_Set (S fuel) store key value w
  = Some (None, <[name := {| cm_Name := cm_Name cm; cm_Data := <[key := data]> (cm_Data cm) |}]> w).
Proof.
  intros Hm Hw. eapply configMapStore_Set_patched; [done|].
  eapply apiserver_Patch_present; [done|]. apply merge_ConfigMap_set.
Qed.

Lemma configMapStore_Set_absent fuel key value data w :
  Marshal value = Ok data → w !! name = None →
  configMapStore_Set (S (S fuel)) store key value w
  = Some (None, <[name := {| cm_Name := name; cm_Data := {[ key := data ]} |}]> w).
Proof.
  intros Hm Hw.
  erewrite configMapStore_Set_retries;
    [| done | by apply apiserver_Patch_absent | done | by apply apiserver_Create_absent].
  change (cm_Name (empty_ConfigMap (cms_name store))) with name.
  erewrite configMapStore_Set_present; [| done | apply lookup_insert_eq].
  simpl. by rewrite insert_insert_eq, insert_empty.
Qed.

Lemma configMapStore_Set_apiserver fuel key value w res w' :
  configMapStore_Set fuel store key value w = Some (res, w') →
  (∃ e, Marshal value = Err e ∧ res = Some e ∧ w' = w)
  ∨ (∃ data, Marshal value = Ok data ∧ res = None
             ∧ ∀ k, configMap_view name w' k
                    = if decide (k = key) then Some data else configMap_view name w k).
Proof.
  destruct fuel as [|fuel]; [done|].
  destruct (Marshal value) as [data|e] eqn:Hm.
  2:{ erewrite configMapStore_Set_unmarshalable by done. intros [= <- <-]. left. by exists e. }
  intros Hs. right. exists data. split; [done|].
  destruct (w !! name) as [cm|] eqn:Hw.
  - erewrite configMapStore_Set_present in Hs by done. injection Hs as <- <-. split; [done|].
    intros k. rewrite configMap_view_insert. unfold configMap_view. rewrite Hw. simpl.
    case_decide as Hk; [subst; by rewrite lookup_insert_eq | by rewrite lookup_insert_ne].
  - destruct fuel as [|fuel].
    + erewrite configMapStore_Set_retries in Hs;
        [| done | by apply apiserver_Patch_absent | done | by apply apiserver_Create_absent].
      done.
    + erewrite configMapStore_Set_absent in Hs by done. injection Hs as <- <-. split; [done|].
      intros k. rewrite configMap_view_insert. unfold configMap_view. rewrite Hw. simpl.
      case_decide as Hk; [subst; by rewrite lookup_singleton_eq | by rewrite lookup_singleton_ne].
Qed.

Lemma configMapStore_Set_apiserver_returns key value data w :
  Marshal value = Ok data →
  ∃ w', configMapStore_Set 2 store key value w = Some (None, w').
Proof.
  intros Hm. destruct (w !! name) as [cm|] eqn:Hw.
  - erewrite configMapStore_Set_present by done. by eexists.
  - erewrite configMapStore_Set_absent by done. by eexists.
Qed.

Lemma configMapStore_Delete_apiserver key w :
  ∃ w', configMapStore_Delete store key w = (None, w')
        ∧ ∀ k, configMap_view name w' k
               = if decide (k = key) then None else configMap_view name w k.
Proof.
  unfold configMapStore_Delete, configMapStore_delete, store.
  fold (configMap_delete_payload key).
  cbn [cms_client cms_name]. unfold configMap_apiserver.
  destruct (w !! name) as [cm|] eqn:Hw.
  - erewrite apiserver_Patch_present; [| done | apply merge_ConfigMap_delete]. simpl cm_Data.
    destruct (decide (size (delete key (cm_Data cm)) = 0%nat)) as [Hz|Hnz].
    + erewrite apiserver_Delete_present by apply lookup_insert_eq.
      eexists. split; [done|]. intros k. unfold configMap_view.
      rewrite delete_insert_eq, lookup_delete_eq, Hw.
      apply map_size_empty_inv in Hz.
      case_decide as Hk; [done|].
      by rewrite <- (lookup_delete_ne (cm_Data cm) key k), Hz, lookup_empty.
    + eexists. split; [done|]. intros k. rewrite configMap_view_insert.
      unfold configMap_view. rewrite Hw. simpl.
      case_decide as Hk; [subst; by rewrite lookup_delete_eq | by rewrite lookup_delete_ne].
  - erewrite apiserver_Patch_absent by done. simpl.
    eexists. split; [done|]. intros k. unfold configMap_view. rewrite Hw. by case_decide.
Qed.

Lemma configMapStore_refines :
  refines (NewConfigMapStore store) (λ _, True) (λ _, True)
          (configMap_view name).
Proof.
  split; simpl.
  - intros key w _ _. apply configMapStore_Get_apiserver.
  - intros w _. apply configMapStore_List_apiserver.
  - intros fuel key value w w' _ _ Hs. split; [done|].
    apply configMapStore_Set_apiserver in Hs as [(e & _ & [=] & _) | (data & Hm & _ & Hv)].
    by exists data.
  - intros key w w' _ _ Hd. split; [done|].
    destruct (configMapStore_Delete_apiserver key w) as (w'' & Hd' & Hv).
    rewrite Hd in Hd'. by injection Hd' as ->.
Qed.

End ConfigMapServer.

(** ** The Secret store against the API server *)

Section SecretApiServer.
Variable base64_decode : string → option string.
Variable name : string.

Let store : secretStore (gmap string Secret) :=
  {| ss_client := secret_apiserver base64_decode; ss_name := name |}.

Lemma secretStore_Get_apiserver key w :
  secretStore_Get store key w = (decode (secret_view name w key), w).
Proof.
  unfold secretStore_Get, secret_view. simpl.
  destruct (w !! name) as [secret|]; simpl; [|done].
  by destruct (sec_Data secret !! key).
Qed.

Lemma secretStore_List_apiserver w :
  ∃ keys, secretStore_List store w = (Ok keys, w) ∧ NoDup keys
          ∧ ∀ k, k ∈ keys ↔ is_Some (secret_view name w k).
Proof.
  unfold secretStore_List, secret_view. simpl.
  destruct (w !! name) as [secret|]; simpl.
  - eexists. split; [done|]. split; [apply NoDup_keys|]. apply elem_of_keys.
  - exists []. split; [done|]. split; [constructor|].
    intros k. split; [by intros ?%not_elem_of_nil | by intros [? ?]].
Qed.

Lemma merge_Secret_set key data secret :
  merge_Secret base64_decode (secret_set_payload key data) secret
  = Ok {| sec_Name := sec_Name secret;
          sec_Data := <[key := data]> (sec_Data secret);
          sec_StringData := ∅ |}.
Proof.
  rewrite secret_set_payload_eq. unfold merge_Secret, persist_Secret. simpl.
  by rewrite insert_empty, <- insert_union_singleton_l.
Qed.

Lemma merge_Secret_delete key secret :
  merge_Secret base64_decode (secret_delete_payload key) secret
  = Ok {| sec_Name := sec_Name secret;
          sec_Data := delete key (sec_Data secret);
          sec_StringData := ∅ |}.
Proof.
  rewrite secret_delete_payload_eq. unfold merge_Secret, persist_Secret. simpl.
  by rewrite (left_id_L ∅ (∪)).
Qed.

Lemma secret_view_insert w secret k :
  secret_view name (<[name := secret]> w) k = sec_Data secret !! k.
Proof. unfold secret_view. by rewrite lookup_insert_eq. Qed.

Lemma secretStore_Set_present fuel key value data w secret :
  Marshal value = Ok data → w !! name = Some secret →
  secretStore_Set (S fuel) store key value w
  = Some (None, <[name := {| sec_Name := sec_Name secret;
                             sec_Data := <[key := data]> (sec_Data secret);
                             sec_StringData := ∅ |}]> w).
Proof.
  intros Hm Hw. eapply secretStore_Set_patched; [done|].
  eapply apiserver_Patch_present; [done|]. apply merge_Secret_set.
Qed.

Lemma secretStore_Set_absent fuel key value data w :
  Marshal value = Ok data → w !! name = None →
  secretStore_Set (S (S fuel)) store key value w
  = Some (None, <[name := {| sec_Name := name; sec_Data := {[ key := data ]};
                             sec_StringData := ∅ |}]> w).
Proof.
  intros Hm Hw.
  erewrite secretStore_Set_retries;
    [| done | by apply apiserver_Patch_absent | done | by apply apiserver_Create_absent].
  change (sec_Name (empty_Secret (ss_name store))) with name.
  erewrite secretStore_Set_present; [| done | apply lookup_insert_eq].
  simpl. by rewrite insert_insert_eq, (left_id_L ∅ (∪)), insert_empty.
Qed.

Lemma secretStore_Set_apiserver fuel key value w res w' :
  secretStore_Set fuel store key value w = Some (res, w') →
  (∃ e, Marshal value = Err e ∧ res = Some e ∧ w' = w)
  ∨ (∃ data, Marshal value = Ok data ∧ res = None
             ∧ ∀ k, secret_view name w' k
                    = if decide (k = key) then Some data else secret_view name w k).
Proof.
  destruct fuel as [|fuel]; [done|].
  destruct (Marshal value) as [data|e] eqn:Hm.
  2:{ erewrite secretStore_Set_unmarshalable by done. intros [= <- <-]. left. by exists e. }
  intros Hs. right. exists data. split; [done|].
  destruct (w !! name) as [secret|] eqn:Hw.
  - erewrite secretStore_Set_present in Hs by done. injection Hs as <- <-. split; [done|].
    intros k. rewrite secret_view_insert. unfold secret_view. rewrite Hw. simpl.
    case_decide as Hk; [subst; by rewrite lookup_insert_eq | by rewrite lookup_insert_ne].
  - destruct fuel as [|fuel].
    + erewrite secretStore_Set_retries in Hs;
        [| done | by apply apiserver_Patch_absent | done | by apply apiserver_Create_absent].
      done.
    + erewrite secretStore_Set_absent in Hs by done. injection Hs as <- <-. split; [done|].
      intros k. rewrite secret_view_insert. unfold secret_view. rewrite Hw. simpl.
      case_decide as Hk; [subst; by rewrite lookup_singleton_eq | by rewrite lookup_singleton_ne].
Qed.

Lemma secretStore_Set_apiserver_returns key value data w :
  Marshal value = Ok data →
  ∃ w', secretStore_Set 2 store key value w = Some (None, w').
Proof.
  intros Hm. destruct (w !! name) as [secret|] eqn:Hw.
  - erewrite secretStore_Set_present by done. by eexists.
  - erewrite secretStore_Set_absent by done. by eexists.
Qed.

Lemma secretStore_Delete_apiserver key w :
  ∃ w', secretStore_Delete store key w = (None, w')
        ∧ ∀ k, secret_view name w' k
               = if decide (k = key) then None else secret_view name w k.
Proof.
  unfold secretStore_Delete, secretStore_delete, store.
  fold (secret_delete_payload key).
  cbn [ss_client ss_name]. unfold secret_apiserver.
  destruct (w !! name) as [secret|] eqn:Hw.
  - erewrite apiserver_Patch_present; [| done | apply merge_Secret_delete]. simpl sec_Data.
    destruct (decide (size (delete key (sec_Data secret)) = 0%nat)) as [Hz|Hnz].
    + erewrite apiserver_Delete_present by apply lookup_insert_eq.
      eexists. split; [done|]. intros k. unfold secret_view.
      rewrite delete_insert_eq, lookup_delete_eq, Hw.
      apply map_size_empty_inv in Hz.
      case_decide as Hk; [done|].
      by rewrite <- (lookup_delete_ne (sec_Data secret) key k), Hz, lookup_empty.
    + eexists. split; [done|]. intros k. rewrite secret_view_insert.
      unfold secret_view. rewrite Hw. simpl.
      case_decide as Hk; [subst; by rewrite lookup_delete_eq | by rewrite lookup_delete_ne].
  - erewrite apiserver_Patch_absent by done. simpl.
    eexists. split; [done|]. intros k. unfold secret_view. rewrite Hw. by case_decide.
Qed.

Lemma secretStore_refines :
  refines (NewSecretStore store) (λ _, True) (λ _, True) (secret_view name).
Proof.
  split; simpl.
  - intros key w _ _. apply secretStore_Get_apiserver.
  - intros w _. apply secretStore_List_apiserver.
  - intros fuel key value w w' _ _ Hs. split; [done|].
    apply secretStore_Set_apiserver in Hs as [(e & _ & [=] & _) | (data & Hm & _ & Hv)].
    by exists data.
  - intros key w w' _ _ Hd. split; [done|].
    destruct (secretStore_Delete_apiserver key w) as (w'' & Hd' & Hv).
    rewrite Hd in Hd'. by injection Hd' as ->.
Qed.

End SecretApiServer.

(** ** The annotation store against the API server *)

Lemma strip_app prefix rest : strip prefix (prefix +:+ rest) = Some rest.
Proof. induction prefix as [|a p IH]; simpl; [done|]. by rewrite Ascii.eqb_refl. Qed.

Lemma strip_Some prefix s rest : strip prefix s = Some rest → s = prefix +:+ rest.
Proof.
  revert s. induction prefix as [|a p IH]; intros s; simpl; [by intros [= ->]|].
  destruct s as [|b r]; [done|].
  destruct (Ascii.eqb_spec a b) as [->|]; [|done].
  intros Hs. by rewrite (IH _ Hs).
Qed.

Lemma annotation_of_prefix key : annotation_of key = (annotationPrefix +:+ "/") +:+ key.
Proof. reflexivity. Qed.

Lemma annotation_of_inj k1 k2 : annotation_of k1 = annotation_of k2 → k1 = k2.
Proof. unfold annotation_of, annotationPrefix. simpl. by intros [=]. Qed.

Lemma HasPrefix_annotation_of key : HasPrefix (annotation_of key) (annotationPrefix +:+ "/") = true.
Proof. unfold HasPrefix. by rewrite annotation_of_prefix, strip_app. Qed.

Lemma NoDup_omap_inj {A B} (f : A → option B) (l : list A) :
  (∀ x y z, f x = Some z → f y = Some z → x = y) →
  NoDup l → NoDup (omap f l).
Proof.
  intros Hinj. induction 1 as [|x l Hx Hnd IH]; simpl; [constructor|].
  destruct (f x) as [z|] eqn:Hfx; [|done].
  constructor; [|done].
  intros (y & Hy & Hfy)%list_elem_of_omap.
  by rewrite (Hinj _ _ _ Hfx Hfy) in Hx.
Qed.

(** The key that [List] reports for an annotation, if it reports one. *)
Lemma listed_key_spec annotation key :
  (if HasPrefix annotation (annotationPrefix +:+ "/")
   then Some (TrimPrefix annotation (annotationPrefix +:+ "/"))
   else None) = Some key
  ↔ annotation = annotation_of key.
Proof.
  unfold HasPrefix, TrimPrefix. rewrite annotation_of_prefix.
  destruct (strip (annotationPrefix +:+ "/") annotation) as [rest|] eqn:Hs; split.
  - intros [= ->]. by apply strip_Some.
  - intros ->. rewrite strip_app in Hs. by injection Hs as ->.
  - done.
  - intros ->. by rewrite strip_app in Hs.
Qed.

Section AnnotationServer.
Variable name : string.

Let store : annotationStore (gmap string Unstructured) :=
  {| as_client := dynamic_apiserver; as_name := name |}.

Lemma annotation_view_at w key :
  annotation_view name w key = annotation_at name w (annotation_of key).
Proof. done. Qed.

Lemma annotationStore_Get_apiserver key w :
  annotationStore_Get store key w = (decode (annotation_view name w key), w).
Proof.
  unfold annotationStore_Get, annotation_view. simpl.
  destruct (w !! name) as [resource|]; simpl; [|done].
  by destruct (GetAnnotations resource !! annotation_of key).
Qed.

Lemma annotationStore_List_apiserver w :
  ∃ keys, annotationStore_List store w = (Ok keys, w) ∧ NoDup keys
          ∧ ∀ k, k ∈ keys ↔ is_Some (annotation_view name w k).
Proof.
  unfold annotationStore_List, annotation_view. simpl.
  destruct (w !! name) as [resource|]; simpl.
  - eexists. split; [done|]. split.
    + apply NoDup_omap_inj; [|apply NoDup_keys].
      intros x y z Hx%listed_key_spec Hy%listed_key_spec. congruence.
    + intros k. rewrite list_elem_of_omap. split.
      * intros (a & Ha & Hk%listed_key_spec). subst a. by apply elem_of_keys.
      * intros Hk. exists (annotation_of k). split; [by apply elem_of_keys|].
        by apply listed_key_spec.
  - exists []. split; [done|]. split; [constructor|].
    intros k. split; [by intros ?%not_elem_of_nil | by intros [? ?]].
Qed.

Lemma merge_Unstructured_set key data resource :
  merge_Unstructured (annotation_set_payload key data) resource
  = Ok {| u_Name := u_Name resource;
          u_Annotations := <[annotation_of key := data]> (u_Annotations resource) |}.
Proof. by rewrite annotation_set_payload_eq. Qed.

Lemma merge_Unstructured_delete key resource :
  merge_Unstructured (annotation_delete_payload key) resource
  = Ok {| u_Name := u_Name resource;
          u_Annotations := delete (annotation_of key) (u_Annotations resource) |}.
Proof. by rewrite annotation_delete_payload_eq. Qed.

(** [Set] against the API server: without the resource it fails with the
    server's not-found error; with it, it sets the one annotation. *)
Lemma annotationStore_Set_apiserver key value w :
  annotationStore_Set store key value w
  = match Marshal value with
    | Err e => (Some e, w)
    | Ok data =>
        match w !! name with
        | None => (Some NotFound, w)
        | Some resource =>
            (None, <[name := {| u_Name := u_Name resource;
                                u_Annotations := <[annotation_of key := data]>
                                                   (u_Annotations resource) |}]> w)
        end
    end.
Proof.
  unfold annotationStore_Set, store. cbn [as_client as_name].
  destruct (Marshal value) as [data|e]; [|done].
  fold (annotation_set_payload key data). unfold dynamic_apiserver.
  destruct (w !! name) as [resource|] eqn:Hw.
  - by erewrite apiserver_Patch_present; [| done | apply merge_Unstructured_set].
  - by erewrite apiserver_Patch_absent.
Qed.

Lemma annotationStore_Delete_apiserver key w :
  annotationStore_Delete store key w
  = (None, match w !! name with
           | None => w
           | Some resource =>
               <[name := {| u_Name := u_Name resource;
                            u_Annotations := delete (annotation_of key)
                                               (u_Annotations resource) |}]> w
           end).
Proof.
  unfold annotationStore_Delete, store. cbn [as_client as_name].
  fold (annotation_delete_payload key). unfold dynamic_apiserver.
  destruct (w !! name) as [resource|] eqn:Hw.
  - by erewrite apiserver_Patch_present; [| done | apply merge_Unstructured_delete].
  - by erewrite apiserver_Patch_absent.
Qed.

Lemma annotationStore_Set_at key value w res w' annotation :
  annotationStore_Set store key value w = (res, w') →
  annotation ≠ annotation_of key →
  annotation_at name w' annotation = annotation_at name w annotation.
Proof.
  rewrite annotationStore_Set_apiserver. unfold annotation_at.
  destruct (Marshal value) as [data|e]; [|by intros [= <- <-]].
  destruct (w !! name) as [resource|] eqn:Hw; intros [= <- <-] Hne; [|by rewrite Hw].
  rewrite lookup_insert_eq. unfold GetAnnotations. simpl. by rewrite lookup_insert_ne.
Qed.

Lemma annotationStore_Delete_at key w res w' annotation :
  annotationStore_Delete store key w = (res, w') →
  annotation ≠ annotation_of key →
  annotation_at name w' annotation = annotation_at name w annotation.
Proof.
  rewrite annotationStore_Delete_apiserver. unfold annotation_at.
  intros [= <- <-] Hne.
  destruct (w !! name) as [resource|] eqn:Hw; [|by rewrite Hw].
  rewrite lookup_insert_eq. unfold GetAnnotations. simpl. by rewrite lookup_delete_ne.
Qed.

Lemma annotationStore_refines :
  refines (NewAnnotationStore store) (λ _, True) (λ _, True) (annotation_view name).
Proof.
  split; simpl.
  - intros key w _ _. apply annotationStore_Get_apiserver.
  - intros w _. apply annotationStore_List_apiserver.
  - intros _ key value w w' _ _ [= Hs]. split; [done|].
    pose proof Hs as Hs'. rewrite annotationStore_Set_apiserver in Hs'.
    destruct (Marshal value) as [data|e]; [|done].
    exists data. split; [done|]. intros k. rewrite !annotation_view_at.
    case_decide as Hk.
    + subst k. destruct (w !! name) as [resource|] eqn:Hw; [|done].
      injection Hs' as <-. unfold annotation_at. rewrite lookup_insert_eq.
      unfold GetAnnotations. simpl. by rewrite lookup_insert_eq.
    + eapply annotationStore_Set_at; [done|]. by intros ?%annotation_of_inj.
  - intros key w w' _ _ Hd. split; [done|]. intros k. rewrite !annotation_view_at.
    case_decide as Hk.
    + subst k. rewrite annotationStore_Delete_apiserver in Hd. injection Hd as <-.
      unfold annotation_at. destruct (w !! name) as [resource|] eqn:Hw; [|by rewrite Hw].
      rewrite lookup_insert_eq. unfold GetAnnotations. simpl. by rewrite lookup_delete_eq.
    + eapply annotationStore_Delete_at; [done|]. by intros ?%annotation_of_inj.
Qed.

(** Annotations without the prefix: no key is listed for one, and no [Set]
    or [Delete] changes one. *)
Lemma annotationStore_unprefixed annotation :
  HasPrefix annotation (annotationPrefix +:+ "/") = false →
  (∀ key, annotation ≠ annotation_of key)
  ∧ (∀ key value w res w',
       annotationStore_Set store key value w = (res, w') →
       annotation_at name w' annotation = annotation_at name w annotation)
  ∧ (∀ key w res w',
       annotationStore_Delete store key w = (res, w') →
       annotation_at name w' annotation = annotation_at name w annotation).
Proof.
  intros Hp.
  assert (Hne : ∀ key, annotation ≠ annotation_of key).
  { intros key ->. by rewrite HasPrefix_annotation_of in Hp. }
  split; [done|]. split.
  - intros key value w res w' Hs. by eapply annotationStore_Set_at.
  - intros key w res w' Hd. by eapply annotationStore_Delete_at.
Qed.

End AnnotationServer.

(** ** Paths *)

Lemma split_path_nonempty s : split_path s ≠ [].
Proof.
  destruct s as [|c r]; simpl; [done|].
  destruct (Ascii.eqb c Separator); [done|]. by destruct (split_path r).
Qed.

Lemma split_path_app a b :
  split_path (a +:+ "/" +:+ b) = split_path a ++ split_path b.
Proof.
  induction a as [|c r IH]; [done|].
  change (String c r +:+ "/" +:+ b) with (String c (r +:+ "/" +:+ b)).
  simpl. destruct (Ascii.eqb c Separator); [by rewrite IH|].
  rewrite IH. pose proof (split_path_nonempty r). by destruct (split_path r).
Qed.

Lemma split_path_elem s x : x ∈ split_path s → split_path x = [x].
Proof.
  revert x. induction s as [|c r IH]; intros x; simpl.
  - by intros ->%list_elem_of_singleton.
  - destruct (Ascii.eqb c Separator) eqn:Hc.
    + intros [-> | Hx]%elem_of_cons; [done | by apply IH].
    + pose proof (split_path_nonempty r).
      destruct (split_path r) as [|y ys] eqn:Hr; [done|].
      intros [-> | Hx]%elem_of_cons.
      * simpl. rewrite Hc. rewrite (IH y) by left. done.
      * apply IH. by right.
Qed.

Lemma split_path_strings_Join (l : list string) :
  l ≠ [] → (∀ x, x ∈ l → split_path x = [x]) → split_path (strings_Join l) = l.
Proof.
  induction l as [|x l IH]; [done|]. intros _ Hl.
  destruct l as [|y l]; [apply Hl; left|].
  change (strings_Join (x :: y :: l)) with (x +:+ "/" +:+ strings_Join (y :: l)).
  rewrite split_path_app, IH; [| done | intros z Hz; apply Hl; by right].
  rewrite (Hl x) by left. done.
Qed.

Lemma IsAbs_app a b : a ≠ "" → IsAbs (a +:+ b) = IsAbs a.
Proof. by destruct a. Qed.

Lemma IsAbs_file_name x : split_path x = [x] → x ≠ "" → IsAbs x = false.
Proof.
  destruct x as [|c r]; [done|]. simpl.
  destruct (Ascii.eqb c Separator); [|done]. intros [=].
Qed.

Lemma IsAbs_strings_Join x l :
  split_path x = [x] → x ≠ "" → IsAbs (strings_Join (x :: l)) = false.
Proof.
  intros Hx Hne. destruct l as [|y l]; simpl strings_Join.
  - by apply IsAbs_file_name.
  - rewrite IsAbs_app by done. by apply IsAbs_file_name.
Qed.

Lemma clean_step_names rooted (l kept : list string) :
  ".." ∉ l → fold_left (clean_step rooted) l kept = rev (names l) ++ kept.
Proof.
  revert kept. induction l as [|c l IH]; intros kept Hl; [done|].
  apply not_elem_of_cons in Hl as [Hc Hl]. simpl.
  rewrite IH by done. unfold clean_step, names. rewrite filter_cons.
  destruct (decide (c = "" ∨ c = ".")) as [Hd|Hd].
  - rewrite (decide_False (P := ¬ (c = "" ∨ c = "."))) by tauto. done.
  - rewrite (decide_True (P := ¬ (c = "" ∨ c = "."))) by done.
    rewrite (decide_False (P := c = "..")) by congruence.
    simpl. by rewrite <- app_assoc.
Qed.

Lemma clean_elems_names rooted (l : list string) :
  ".." ∉ l → clean_elems rooted l = names l.
Proof.
  intros Hl. unfold clean_elems. rewrite clean_step_names by done.
  by rewrite app_nil_r, rev_involutive.
Qed.

Lemma names_app (l1 l2 : list string) : names (l1 ++ l2) = names l1 ++ names l2.
Proof. apply filter_app. Qed.

Lemma names_file_name key : file_name key → names [key] = [key].
Proof.
  intros (_ & H1 & H2 & _). unfold names. rewrite filter_cons, decide_True; [done|]. tauto.
Qed.

Lemma names_elem l x : x ∈ names l → x ∈ l ∧ x ≠ "" ∧ x ≠ ".".
Proof. unfold names. rewrite list_elem_of_filter. tauto. Qed.

Lemma names_idemp l : names (names l) = names l.
Proof.
  unfold names. induction l as [|c l IH]; [done|].
  rewrite filter_cons. case_decide; [|done].
  rewrite filter_cons, decide_True by done. by rewrite IH.
Qed.

(** The elements of the path of a key's file. *)
Lemma Join_file_name dir key :
  dir ≠ "" → ".." ∉ split_path dir → file_name key →
  Join [dir; key] ≠ ""
  ∧ IsAbs (Join [dir; key]) = IsAbs dir
  ∧ ∃ pre, split_path (Join [dir; key]) = pre ++ [key]
           ∧ names pre = names (split_path dir) ∧ ".." ∉ pre.
Proof.
  intros Hdir Hdd Hkey. pose proof Hkey as (Hsplit & Hne & Hdot & Hdotdot).
  unfold Join. rewrite decide_False by done.
  change (strings_Join [dir; key]) with (dir +:+ "/" +:+ key).
  unfold Clean. rewrite decide_False by by destruct dir.
  rewrite IsAbs_app by done.
  rewrite split_path_app, Hsplit.
  rewrite clean_elems_names
    by (rewrite elem_of_app, list_elem_of_singleton; intros [?|?]; [done | congruence]).
  rewrite names_app, names_file_name by done.
  set (l := names (split_path dir) ++ [key]).
  assert (Hl : ∀ x, x ∈ l → split_path x = [x] ∧ x ≠ "" ∧ x ≠ "." ∧ x ≠ "..").
  { intros x [Hx | ->%list_elem_of_singleton]%elem_of_app; [|done].
    apply names_elem in Hx as (Hx & ? & ?).
    split; [by eapply split_path_elem|]. split; [done|]. split; [done|].
    by intros ->. }
  assert (Hnil : l ≠ []) by (subst l; by destruct (names (split_path dir))).
  assert (Hsp : split_path (strings_Join l) = l).
  { apply split_path_strings_Join; [done|]. intros x Hx. by apply Hl. }
  assert (Hpre : ".." ∉ names (split_path dir)).
  { intros Hx. destruct (Hl "..") as (_ & _ & _ & ?); [|done].
    subst l. apply elem_of_app. by left. }
  destruct (IsAbs dir) eqn:Habs.
  - split; [done|]. split; [done|].
    change (split_path ("/" +:+ strings_Join l)) with ("" :: split_path (strings_Join l)).
    rewrite Hsp. exists ("" :: names (split_path dir)). split; [done|]. split.
    + unfold names at 1. rewrite filter_cons.
      rewrite (decide_False (P := ¬ ("" = "" ∨ "" = "."))) by tauto. apply names_idemp.
    + by intros [[=] | Hx]%elem_of_cons.
  - rewrite decide_False by done. rewrite Hsp.
    split; [|split].
    + destruct l as [|x l']; [done|]. destruct (Hl x) as (_ & Hx & _); [left|].
      destruct x; [done|]. by destruct l'.
    + destruct l as [|x l']; [done|]. destruct (Hl x) as (Hx1 & Hx2 & _); [left|].
      by apply IsAbs_strings_Join.
    + exists (names (split_path dir)). split; [done|]. split; [apply names_idemp | done].
Qed.

(** ** Path resolution *)

Section Resolution.
Implicit Types (nd : gmap (list string) node) (cur p q : list string) (l : list string).

Lemma lookup_node_insert_ne nd p q n :
  p ≠ q → lookup_node (<[q := n]> nd) p = lookup_node nd p.
Proof. intros Hne. destruct p; [done|]. simpl. by rewrite lookup_insert_ne. Qed.

Lemma lookup_node_insert_eq nd q n :
  q ≠ [] → lookup_node (<[q := n]> nd) q = Some n.
Proof. intros Hne. destruct q; [done|]. simpl. by rewrite lookup_insert_eq. Qed.

Lemma lookup_node_delete_ne nd p q :
  p ≠ q → lookup_node (delete q nd) p = lookup_node nd p.
Proof. intros Hne. destruct p; [done|]. simpl. by rewrite lookup_delete_ne. Qed.

Lemma lookup_node_cons nd p : p ≠ [] → lookup_node nd p = nd !! p.
Proof. by destruct p. Qed.

Lemma lookup_node_Some nd p n : nd !! p = Some n → p ≠ [] → lookup_node nd p = Some n.
Proof. intros Hp Hne. by rewrite lookup_node_cons. Qed.

Lemma walk_app nd cur l1 l2 :
  walk nd cur (l1 ++ l2)
  = match walk nd cur l1 with
    | inr p => walk nd p l2
    | inl e => inl e
    end.
Proof.
  revert cur. induction l1 as [|c l1 IH]; intros cur; [done|]. simpl.
  destruct (lookup_node nd cur) as [[|]|]; [done | apply IH | done].
Qed.

(** Writing a file where no directory was leaves resolution as it is. *)
Lemma walk_insert_file nd cur l p q data :
  lookup_node nd q ≠ Some Dir →
  walk nd cur l = inr p →
  walk (<[q := File data]> nd) cur l = inr p.
Proof.
  intros Hq. revert cur. induction l as [|c l IH]; intros cur; [done|]. simpl.
  destruct (lookup_node nd cur) as [[|]|] eqn:Hcur; [done | | done].
  rewrite lookup_node_insert_ne, Hcur by congruence. apply IH.
Qed.

Lemma walk_step_names cur c l :
  c ≠ ".." → walk_step cur c ++ names l = cur ++ names (c :: l).
Proof.
  intros Hc. unfold walk_step, names. rewrite filter_cons.
  destruct (decide (c = "" ∨ c = ".")) as [Hd|Hd].
  - by rewrite (decide_False (P := ¬ (c = "" ∨ c = "."))) by tauto.
  - rewrite (decide_True (P := ¬ (c = "" ∨ c = "."))) by done.
    rewrite decide_False by done. by rewrite <- app_assoc.
Qed.

Lemma walk_step_prefix cur c : c ≠ ".." → cur `prefix_of` walk_step cur c.
Proof.
  intros Hc. unfold walk_step. case_decide; [done|].
  rewrite decide_False by done. by apply prefix_app_r.
Qed.

(** Without [..] elements a path leads to its names under where it starts. *)
Lemma walk_names nd cur l p :
  ".." ∉ l → walk nd cur l = inr p → p = cur ++ names l.
Proof.
  revert cur. induction l as [|c l IH]; intros cur Hl; simpl.
  - intros [= <-]. by rewrite app_nil_r.
  - apply not_elem_of_cons in Hl as [Hc Hl].
    destruct (lookup_node nd cur) as [[|]|]; [done | | done].
    intros Hw. rewrite (IH _ Hl Hw). by apply walk_step_names.
Qed.

Lemma walk_dirs nd cur l :
  ".." ∉ l →
  (∀ q, cur `prefix_of` q → q `prefix_of` cur ++ names l → lookup_node nd q = Some Dir) →
  walk nd cur l = inr (cur ++ names l).
Proof.
  revert cur. induction l as [|c l IH]; intros cur Hl Hdirs; simpl.
  - by rewrite app_nil_r.
  - apply not_elem_of_cons in Hl as [Hc Hl].
    rewrite Hdirs; [| done | by apply prefix_app_r].
    rewrite <- walk_step_names by done. apply IH; [done|].
    intros q Hq1 Hq2. apply Hdirs.
    + etrans; [|done]. by apply walk_step_prefix.
    + by rewrite <- walk_step_names.
Qed.

Lemma walk_ENOENT nd cur l e :
  ".." ∉ l →
  (∀ q data, q `prefix_of` cur ++ names l → nd !! q ≠ Some (File data)) →
  walk nd cur l = inl e → e = ENOENT.
Proof.
  revert cur. induction l as [|c l IH]; intros cur Hl Hfiles; simpl; [done|].
  apply not_elem_of_cons in Hl as [Hc Hl].
  destruct (lookup_node nd cur) as [[data|]|] eqn:Hcur.
  - exfalso. destruct cur as [|x cur]; [done|]. simpl in Hcur.
    eapply Hfiles; [|done]. by apply prefix_app_r.
  - apply IH; [done|]. intros q data Hq. apply Hfiles. by rewrite <- walk_step_names.
  - by intros [= <-].
Qed.

Lemma parent_snoc p x : parent (p ++ [x]) = p.
Proof. apply removelast_last. Qed.

Lemma well_formed_prefix nd p q n :
  well_formed nd → lookup_node nd q = Some n → p `prefix_of` q → p ≠ q →
  lookup_node nd p = Some Dir.
Proof.
  intros Hwf Hq [k ->] Hne. revert n Hq Hne.
  induction k as [|x k IH] using rev_ind; intros n Hq Hne.
  - by rewrite app_nil_r in Hne.
  - rewrite app_assoc in Hq. rewrite lookup_node_cons in Hq by by destruct (p ++ k).
    apply Hwf in Hq. rewrite parent_snoc in Hq.
    destruct k as [|y k' _] using rev_ind; [by rewrite app_nil_r in Hq|].
    eapply IH; [done|]. intros Heq. apply (f_equal length) in Heq.
    rewrite !length_app in Heq. simpl in Heq. lia.
Qed.

End Resolution.

(** ** The file store: reading back what was written *)

Lemma WriteFile_ReadFile filename data fs fs' :
  WriteFile filename data fs = (None, fs') →
  ReadFile filename fs' = (Ok data, fs').
Proof.
  unfold WriteFile, ReadFile, namei.
  destruct (decide (filename = "")) as [|Hne]; [done|].
  destruct (walk (nodes fs) (start fs filename) (split_path filename)) as [e|p] eqn:Hw; [done|].
  assert (Hroot : lookup_node (nodes fs) p ≠ Some Dir → p ≠ []) by (by intros ? ->).
  destruct (lookup_node (nodes fs) p) as [[|]|] eqn:Hp; [| done |];
    intros [= <-]; simpl; change (start (with_nodes fs _) filename) with (start fs filename);
    (rewrite (walk_insert_file _ _ _ p) by congruence);
    by rewrite lookup_node_insert_eq by by apply Hroot.
Qed.

Lemma fileStore_reads_own_writes dir :
  reads_own_writes (NewFileStore dir) (λ _, True) (λ _, True).
Proof.
  intros fuel key value fs fs' _ _ Hrt. simpl. intros [= Hset].
  unfold fileStore_Set in Hset. unfold fileStore_Get. cbn [directory] in *.
  destruct (Marshal value) as [data|e] eqn:Hm; [|done].
  destruct (MkdirAll dir fs) as [[e|] fs1]; [done|].
  by rewrite (WriteFile_ReadFile _ _ _ _ Hset), (Hrt _ eq_refl).
Qed.

(** C2.  With each of the four stores, a [Set] that succeeds is followed by
    a [Get] of the same key that returns the value that was set, for every
    key and every value that the codec reads back from its own encoding:
    the file store on any file system, the ConfigMap, Secret and annotation
    stores against the API server.  Against the API server the ConfigMap
    and Secret stores' [Set] does succeed, within two nested calls,
    whenever the value can be encoded. *)
Theorem Get_after_Set_returns_value :
  (∀ directory, reads_own_writes (NewFileStore directory) (λ _, True) (λ _, True))
  ∧ (∀ name,
       let store := {| cms_client := configMap_apiserver; cms_name := name |} in
       reads_own_writes (NewConfigMapStore store) (λ _, True) (λ _, True)
       ∧ ∀ key value data w, Marshal value = Ok data →
           ∃ w', configMapStore_Set 2 store key value w = Some (None, w'))
  ∧ (∀ base64_decode name,
       let store := {| ss_client := secret_apiserver base64_decode; ss_name := name |} in
       reads_own_writes (NewSecretStore store) (λ _, True) (λ _, True)
       ∧ ∀ key value data w, Marshal value = Ok data →
           ∃ w', secretStore_Set 2 store key value w = Some (None, w'))
  ∧ (∀ name,
       reads_own_writes
         (NewAnnotationStore {| as_client := dynamic_apiserver; as_name := name |})
         (λ _, True) (λ _, True)).
Proof.
  split; [apply fileStore_reads_own_writes|].
  split; [|split].
  - intros name store. split.
    + eapply refines_reads_own_writes, configMapStore_refines.
    + intros. by eapply configMapStore_Set_apiserver_returns.
  - intros base64_decode name store. split.
    + eapply refines_reads_own_writes, secretStore_refines.
    + intros. by eapply secretStore_Set_apiserver_returns.
  - intros name. eapply refines_reads_own_writes, annotationStore_refines.
Qed.

(** ** Creating directories and listing them *)

Section Directories.
Implicit Types (nd : gmap (list string) node) (cur p q d : list string) (l : list string).

Lemma walk_step_between cur c q r :
  c ≠ ".." → cur `prefix_of` q → q `prefix_of` walk_step cur c ++ r →
  walk_step cur c `prefix_of` q ∨ q = cur.
Proof.
  intros Hc [k ->] Hq. unfold walk_step in *.
  case_decide; [left; by apply prefix_app_r|].
  rewrite decide_False in * by done.
  destruct k as [|x k]; [right; by rewrite app_nil_r|]. left.
  rewrite <- app_assoc in Hq. apply prefix_app_inv in Hq.
  simpl in Hq. apply prefix_cons_inv_1 in Hq as ->.
  apply prefix_app, prefix_cons, prefix_nil.
Qed.

Lemma lookup_node_mono nd nd' q n :
  (∀ q n, nd !! q = Some n → nd' !! q = Some n) →
  lookup_node nd q = Some n → lookup_node nd' q = Some n.
Proof. intros Hmono. destruct q; [done|]. apply Hmono. Qed.

(** What [os.MkdirAll] leaves behind: the directories along the path, the
    nodes that were there, and nothing else. *)
Lemma mkdir_walk_spec nd cur l nd' :
  lookup_node nd cur = Some Dir → ".." ∉ l → mkdir_walk nd cur l = inr nd' →
  (∀ q, cur `prefix_of` q → q `prefix_of` cur ++ names l → lookup_node nd' q = Some Dir)
  ∧ (∀ q n, nd !! q = Some n → nd' !! q = Some n)
  ∧ (∀ q, nd !! q = None → is_Some (nd' !! q) →
          cur `prefix_of` q ∧ q ≠ cur ∧ q `prefix_of` cur ++ names l).
Proof.
  revert nd cur. induction l as [|c l IH]; intros nd cur Hcur Hl; simpl.
  - intros [= <-]. rewrite app_nil_r. split; [|split].
    + intros q H1 H2. by rewrite (anti_symm prefix q cur).
    + done.
    + intros q Hq [n Hn]. congruence.
  - apply not_elem_of_cons in Hl as [Hc%not_eq_sym Hl].
    set (next := walk_step cur c).
    assert (Hnext : cur `prefix_of` next) by by apply walk_step_prefix.
    assert (Hend : next ++ names l = cur ++ names (c :: l)) by by apply walk_step_names.
    assert (Hcommon : ∀ nd1,
      lookup_node nd1 next = Some Dir →
      (∀ q n, nd !! q = Some n → nd1 !! q = Some n) →
      (∀ q, nd !! q = None → is_Some (nd1 !! q) → q = next ∧ next ≠ cur) →
      mkdir_walk nd1 next l = inr nd' →
      (∀ q, cur `prefix_of` q → q `prefix_of` cur ++ names (c :: l) →
            lookup_node nd' q = Some Dir)
      ∧ (∀ q n, nd !! q = Some n → nd' !! q = Some n)
      ∧ (∀ q, nd !! q = None → is_Some (nd' !! q) →
              cur `prefix_of` q ∧ q ≠ cur ∧ q `prefix_of` cur ++ names (c :: l))).
    { intros nd1 H1 H2 H3 Hrec.
      destruct (IH nd1 next H1 Hl Hrec) as (Hi & Hii & Hiii).
      rewrite <- Hend. split; [|split].
      - intros q Hq1 Hq2.
        destruct (walk_step_between cur c q (names l) Hc Hq1 Hq2) as [Hq | ->].
        + by apply Hi.
        + eapply lookup_node_mono; [apply Hii|].
          eapply lookup_node_mono; [apply H2|]. done.
      - intros q n Hq. by apply Hii, H2.
      - intros q Hq Hsome. destruct (nd1 !! q) as [n1|] eqn:Hq1.
        + destruct (H3 q Hq) as [-> Hne]; [by rewrite Hq1|].
          split; [done|]. split; [done|]. by apply prefix_app_r.
        + destruct (Hiii q Hq1 Hsome) as (Ha & Hb & Hc').
          split; [by etrans|]. split; [|done].
          intros ->. apply Hb. by apply (anti_symm prefix). }
    destruct (lookup_node nd next) as [[data|]|] eqn:Hlook; [done | |].
    + apply Hcommon; [done | done |]. intros q Hq [n Hn]. congruence.
    + assert (Hne : next ≠ []) by (by intros Heq; rewrite Heq in Hlook).
      assert (Hnc : next ≠ cur) by congruence.
      apply Hcommon.
      * by apply lookup_node_insert_eq.
      * intros q n Hq. rewrite lookup_insert_ne; [done|].
        intros <-. rewrite lookup_node_cons in Hlook by done. congruence.
      * intros q Hq Hsome. destruct (decide (q = next)) as [->|Hqn]; [done|].
        rewrite lookup_insert_ne in Hsome by done. destruct Hsome. congruence.
Qed.

Lemma entry_of_spec d p name : entry_of d p = Some name ↔ p = d ++ [name].
Proof.
  unfold entry_of. split.
  - destruct (last p) as [x|]; [|done]. case_decide; [|done]. by intros [= <-].
  - intros ->. rewrite last_snoc. by rewrite decide_True.
Qed.

Lemma elem_of_entries nd d k : k ∈ entries nd d ↔ is_Some (nd !! (d ++ [k])).
Proof.
  unfold entries. rewrite merge_sort_Permutation, list_elem_of_omap. split.
  - intros (p & Hp & ->%entry_of_spec).
    apply list_elem_of_fmap in Hp as ([p n] & -> & Hin).
    apply elem_of_map_to_list in Hin. by exists n.
  - intros [n Hn]. exists (d ++ [k]). split; [|by apply entry_of_spec].
    apply list_elem_of_fmap. exists (d ++ [k], n). split; [done|].
    by apply elem_of_map_to_list.
Qed.

Lemma NoDup_entries nd d : NoDup (entries nd d).
Proof.
  unfold entries. rewrite merge_sort_Permutation.
  apply NoDup_omap_inj; [|apply NoDup_fst_map_to_list].
  intros x y z Hx%entry_of_spec Hy%entry_of_spec. congruence.
Qed.

Lemma entries_nil nd d : entries nd d = [] ↔ ∀ k, nd !! (d ++ [k]) = None.
Proof.
  split.
  - intros He k. destruct (nd !! (d ++ [k])) eqn:Hk; [|done].
    exfalso. eapply not_elem_of_nil. rewrite <- He. apply elem_of_entries. by rewrite Hk.
  - intros Hnone. destruct (entries nd d) as [|k ks] eqn:He; [done|].
    assert (Hk : k ∈ entries nd d) by (rewrite He; left).
    apply elem_of_entries in Hk as [n Hn]. by rewrite Hnone in Hn.
Qed.

End Directories.

(** ** The file store as a map *)

Section FileStoreMap.
Variable dir : string.
Hypothesis dir_nonempty : dir ≠ "".
Hypothesis dir_no_dotdot : ".." ∉ split_path dir.

Let store : fileStore := {| directory := dir |}.

Lemma namei_dir fs : namei fs dir = walk (nodes fs) (start fs dir) (split_path dir).
Proof. unfold namei. by rewrite decide_False. Qed.

Lemma dirs_above (nd : gmap (list string) node) d q :
  well_formed nd → lookup_node nd d = Some Dir → q `prefix_of` d →
  lookup_node nd q = Some Dir.
Proof.
  intros Hwf Hd Hq. destruct (decide (q = d)) as [->|Hne]; [done|].
  by eapply well_formed_prefix.
Qed.

Lemma no_entry_without_directory (nd : gmap (list string) node) d k :
  well_formed nd → lookup_node nd d ≠ Some Dir → nd !! (d ++ [k]) = None.
Proof.
  intros Hwf Hd. destruct (nd !! (d ++ [k])) as [n|] eqn:Hk; [|done].
  apply Hwf in Hk. by rewrite parent_snoc in Hk.
Qed.

Lemma namei_dir_inr fs p : namei fs dir = inr p → p = dir_path dir fs.
Proof. rewrite namei_dir. by apply walk_names. Qed.

Lemma namei_dir_Dir fs :
  well_formed (nodes fs) → lookup_node (nodes fs) (dir_path dir fs) = Some Dir →
  namei fs dir = inr (dir_path dir fs).
Proof.
  intros Hwf Hd. rewrite namei_dir. apply walk_dirs; [done|].
  intros q _ Hq. by eapply dirs_above.
Qed.

Lemma walk_step_file_name cur key : file_name key → walk_step cur key = cur ++ [key].
Proof.
  intros (_ & H1 & H2 & H3). unfold walk_step.
  rewrite decide_False by tauto. by rewrite decide_False.
Qed.

Lemma namei_file fs key :
  file_name key →
  ∃ pre, names pre = names (split_path dir) ∧ (".." ∉ pre)
         ∧ namei fs (Join [dir; key])
           = match walk (nodes fs) (start fs dir) pre with
             | inl e => inl e
             | inr d =>
                 match lookup_node (nodes fs) d with
                 | Some Dir => inr (d ++ [key])
                 | Some (File _) => inl ENOTDIR
                 | None => inl ENOENT
                 end
             end.
Proof.
  intros Hkey.
  destruct (Join_file_name dir key dir_nonempty dir_no_dotdot Hkey)
    as (Hne & Habs & pre & Hsplit & Hnames & Hpre).
  exists pre. split; [done|]. split; [done|].
  unfold namei. rewrite decide_False by done.
  unfold start. rewrite Habs. fold (start fs dir).
  rewrite Hsplit, walk_app.
  destruct (walk (nodes fs) (start fs dir) pre) as [e|d]; [done|]. simpl.
  by rewrite walk_step_file_name.
Qed.

Lemma namei_file_Dir fs key :
  file_name key → well_formed (nodes fs) →
  lookup_node (nodes fs) (dir_path dir fs) = Some Dir →
  namei fs (Join [dir; key]) = inr (dir_path dir fs ++ [key]).
Proof.
  intros Hkey Hwf Hd. destruct (namei_file fs key Hkey) as (pre & Hnames & Hpre & ->).
  rewrite walk_dirs; [| done |].
  - rewrite Hnames. fold (dir_path dir fs). by rewrite Hd.
  - intros q _ Hq. rewrite Hnames in Hq. by eapply dirs_above.
Qed.

Lemma namei_file_inr fs key p :
  file_name key → namei fs (Join [dir; key]) = inr p →
  p = dir_path dir fs ++ [key] ∧ lookup_node (nodes fs) (dir_path dir fs) = Some Dir.
Proof.
  intros Hkey. destruct (namei_file fs key Hkey) as (pre & Hnames & Hpre & ->).
  destruct (walk (nodes fs) (start fs dir) pre) as [e|d] eqn:Hw; [done|].
  apply walk_names in Hw as ->; [|done]. rewrite Hnames. fold (dir_path dir fs).
  destruct (lookup_node (nodes fs) (dir_path dir fs)) as [[data|]|]; [done | | done].
  by intros [= <-].
Qed.

Lemma namei_file_missing fs key :
  file_name key → file_inv dir fs →
  lookup_node (nodes fs) (dir_path dir fs) ≠ Some Dir →
  namei fs (Join [dir; key]) = inl ENOENT.
Proof.
  intros Hkey (Hwf & Hfiles & _) Hd.
  destruct (namei_file fs key Hkey) as (pre & Hnames & Hpre & ->).
  destruct (walk (nodes fs) (start fs dir) pre) as [e|d] eqn:Hw.
  - f_equal. eapply walk_ENOENT; [done | | done].
    intros q data Hq. apply Hfiles. unfold dir_path. by rewrite <- Hnames.
  - apply walk_names in Hw as ->; [|done]. rewrite Hnames. fold (dir_path dir fs).
    destruct (lookup_node (nodes fs) (dir_path dir fs)) as [[data|]|] eqn:Hl; [| done | done].
    exfalso. eapply (Hfiles _ data); [done|].
    rewrite <- Hl, lookup_node_cons; [done|]. intros Heq. by rewrite Heq in Hl.
Qed.

Lemma file_view_missing fs key :
  well_formed (nodes fs) → lookup_node (nodes fs) (dir_path dir fs) ≠ Some Dir →
  file_view dir fs key = None.
Proof. intros Hwf Hd. unfold file_view. by rewrite no_entry_without_directory. Qed.

Lemma fileStore_Get_view key fs :
  file_inv dir fs → file_name key →
  fileStore_Get store key fs = (decode (file_view dir fs key), fs).
Proof.
  intros Hinv Hkey. pose proof Hinv as (Hwf & Hfiles & Hentries).
  unfold fileStore_Get, ReadFile. cbn [directory store].
  destruct (decide (lookup_node (nodes fs) (dir_path dir fs) = Some Dir)) as [Hd|Hd].
  - rewrite namei_file_Dir by done. unfold file_view.
    rewrite lookup_node_cons by by destruct (dir_path dir fs).
    destruct (nodes fs !! (dir_path dir fs ++ [key])) as [[data|]|] eqn:Hk; [done | | done].
    by destruct (Hentries key).
  - rewrite namei_file_missing by done. by rewrite file_view_missing.
Qed.

Lemma fileStore_List_view fs :
  file_inv dir fs →
  ∃ keys, fileStore_List store fs = (Ok keys, fs) ∧ NoDup keys
          ∧ ∀ k, k ∈ keys ↔ is_Some (file_view dir fs k).
Proof.
  intros (Hwf & Hfiles & Hentries).
  unfold fileStore_List, ReadDir. cbn [directory store].
  destruct (decide (lookup_node (nodes fs) (dir_path dir fs) = Some Dir)) as [Hd|Hd].
  - rewrite namei_dir_Dir, Hd by done.
    eexists. split; [done|]. split; [apply NoDup_entries|].
    intros k. rewrite elem_of_entries. unfold file_view.
    destruct (nodes fs !! (dir_path dir fs ++ [k])) as [[data|]|] eqn:Hk.
    + split; intros _; by eexists.
    + by destruct (Hentries k).
    + split; by intros [? ?].
  - exists []. split; [|split; [constructor|]].
    + destruct (namei fs dir) as [e|p] eqn:Hn; [done|].
      apply namei_dir_inr in Hn as ->.
      by destruct (lookup_node (nodes fs) (dir_path dir fs)) as [[data|]|].
    + intros k. rewrite file_view_missing by done.
      split; [by intros ?%not_elem_of_nil | by intros [? ?]].
Qed.

Lemma not_prefix_snoc (d : list string) k : ¬ (d ++ [k]) `prefix_of` d.
Proof. intros H%prefix_length. rewrite length_app in H. simpl in H. lia. Qed.

Lemma snoc_ne (d : list string) k : d ++ [k] ≠ d.
Proof. intros H%(f_equal length). rewrite length_app in H. simpl in H. lia. Qed.

Lemma file_inv_insert_file fs key data :
  file_inv dir fs → lookup_node (nodes fs) (dir_path dir fs) = Some Dir →
  file_inv dir (with_nodes fs (<[dir_path dir fs ++ [key] := File data]> (nodes fs))).
Proof.
  intros (Hwf & Hfiles & Hentries) Hd.
  change (dir_path dir (with_nodes fs ?nd)) with (dir_path dir fs).
  set (d := dir_path dir fs) in *. unfold file_inv. cbn [nodes with_nodes]. split; [|split].
  - intros q n Hq. destruct (decide (q = d ++ [key])) as [->|Hne].
    + rewrite parent_snoc, lookup_node_insert_ne by (symmetry; apply snoc_ne). done.
    + rewrite lookup_insert_ne in Hq by done. pose proof (Hwf _ _ Hq) as Hp.
      rewrite lookup_node_insert_ne; [done|]. intros Heq. rewrite Heq in Hp.
      rewrite lookup_node_cons in Hp by by destruct d. by destruct (Hentries key).
  - intros q data' Hq. rewrite lookup_insert_ne; [by apply Hfiles|].
    intros <-. by apply not_prefix_snoc in Hq.
  - intros k. destruct (decide (k = key)) as [->|Hne].
    + by rewrite lookup_insert_eq.
    + rewrite lookup_insert_ne; [apply Hentries|]. by intros [= ?]%(inj (app d)).
Qed.

Lemma file_inv_delete_file fs key data :
  file_inv dir fs → nodes fs !! (dir_path dir fs ++ [key]) = Some (File data) →
  file_inv dir (with_nodes fs (delete (dir_path dir fs ++ [key]) (nodes fs))).
Proof.
  intros (Hwf & Hfiles & Hentries) Hk.
  change (dir_path dir (with_nodes fs ?nd)) with (dir_path dir fs).
  set (d := dir_path dir fs) in *. unfold file_inv. cbn [nodes with_nodes]. split; [|split].
  - intros q n Hq. apply lookup_delete_Some in Hq as [Hne Hq].
    pose proof (Hwf _ _ Hq) as Hp.
    rewrite lookup_node_delete_ne; [done|]. intros Heq. rewrite Heq in Hp.
    rewrite lookup_node_cons in Hp by by destruct d. congruence.
  - intros q data' Hq. rewrite lookup_delete_ne; [by apply Hfiles|].
    intros <-. by apply not_prefix_snoc in Hq.
  - intros k Hdel. apply lookup_delete_Some in Hdel as [_ Hdel]. by destruct (Hentries k).
Qed.

Lemma file_inv_delete_dir fs :
  file_inv dir fs → (∀ k, nodes fs !! (dir_path dir fs ++ [k]) = None) →
  file_inv dir (with_nodes fs (delete (dir_path dir fs) (nodes fs))).
Proof.
  intros (Hwf & Hfiles & Hentries) Hnone.
  change (dir_path dir (with_nodes fs ?nd)) with (dir_path dir fs).
  set (d := dir_path dir fs) in *. unfold file_inv. cbn [nodes with_nodes]. split; [|split].
  - intros q n Hq. apply lookup_delete_Some in Hq as [Hne Hq].
    pose proof (Hwf _ _ Hq) as Hp.
    rewrite lookup_node_delete_ne; [done|]. intros Heq.
    destruct q as [|x q] using rev_ind; [by rewrite <- Heq in Hne|].
    rewrite parent_snoc in Heq. subst q. by rewrite Hnone in Hq.
  - intros q data' Hq Hdel. apply lookup_delete_Some in Hdel as [_ Hdel].
    by eapply Hfiles.
  - intros k Hdel. apply lookup_delete_Some in Hdel as [_ Hdel]. by destruct (Hentries k).
Qed.

Lemma MkdirAll_spec fs fs1 :
  file_inv dir fs → MkdirAll dir fs = (None, fs1) →
  file_inv dir fs1
  ∧ dir_path dir fs1 = dir_path dir fs
  ∧ lookup_node (nodes fs1) (dir_path dir fs) = Some Dir
  ∧ ∀ k, nodes fs1 !! (dir_path dir fs ++ [k]) = nodes fs !! (dir_path dir fs ++ [k]).
Proof.
  intros (Hwf & Hfiles & Hentries). unfold MkdirAll. rewrite decide_False by done.
  destruct (lookup_node (nodes fs) (start fs dir)) as [[data|]|] eqn:Hstart; [done | | done].
  destruct (mkdir_walk (nodes fs) (start fs dir) (split_path dir)) as [e|nd1] eqn:Hmk; [done|].
  intros [= <-].
  destruct (mkdir_walk_spec _ _ _ _ Hstart dir_no_dotdot Hmk) as (Hi & Hii & Hiii).
  fold (dir_path dir fs) in Hi, Hiii.
  change (dir_path dir (with_nodes fs nd1)) with (dir_path dir fs).
  set (d := dir_path dir fs) in *. simpl.
  assert (Hstart_d : start fs dir `prefix_of` d) by by apply prefix_app_r.
  assert (Hsame : ∀ q, ¬ q `prefix_of` d → nd1 !! q = nodes fs !! q).
  { intros q Hq. destruct (nodes fs !! q) as [n|] eqn:Hn; [by apply Hii|].
    destruct (nd1 !! q) as [n|] eqn:Hn1; [|done].
    destruct (Hiii q Hn) as (_ & _ & ?); [by rewrite Hn1 | done]. }
  split; [|split; [done|split]].
  - unfold file_inv. change (dir_path dir (with_nodes fs nd1)) with d.
    cbn [nodes with_nodes]. split; [|split].
    + intros q n Hq. destruct (nodes fs !! q) as [n'|] eqn:Hn.
      * eapply lookup_node_mono; [apply Hii|]. by eapply Hwf.
      * destruct (Hiii q Hn) as ([k ->] & Hne & Hqd); [by rewrite Hq|].
        destruct k as [|x k _] using rev_ind; [by rewrite app_nil_r in Hne|].
        rewrite app_assoc, parent_snoc. apply Hi; [by apply prefix_app_r|].
        trans (start fs dir ++ k ++ [x]); [|done].
        rewrite app_assoc. by apply prefix_app_r.
    + intros q data Hq Hfile. destruct (nodes fs !! q) as [n'|] eqn:Hn.
      * pose proof (Hii _ _ Hn) as Hn1. rewrite Hfile in Hn1. injection Hn1 as <-.
        by eapply Hfiles.
      * destruct (Hiii q Hn) as (Hq1 & Hne & Hqd); [by rewrite Hfile|].
        specialize (Hi q Hq1 Hqd). rewrite lookup_node_cons in Hi; [congruence|].
        intros ->. apply Hne. symmetry. by apply prefix_nil_inv.
    + intros k. rewrite Hsame by apply not_prefix_snoc. apply Hentries.
  - by apply Hi.
  - intros k. apply Hsame, not_prefix_snoc.
Qed.

Lemma fileStore_Set_view key value fs fs' :
  file_inv dir fs → file_name key →
  fileStore_Set store key value fs = (None, fs') →
  file_inv dir fs'
  ∧ ∃ data, Marshal value = Ok data
            ∧ ∀ k, file_view dir fs' k = if decide (k = key) then Some data else file_view dir fs k.
Proof.
  intros Hinv Hkey. unfold fileStore_Set. cbn [directory store].
  destruct (Marshal value) as [data|e]; [|done].
  destruct (MkdirAll dir fs) as [[e|] fs1] eqn:Hmk; [done|].
  destruct (MkdirAll_spec _ _ Hinv Hmk) as (Hinv1 & Hpath & Hd & Hsame).
  pose proof Hinv1 as (Hwf1 & _ & Hentries1).
  unfold WriteFile. rewrite <- Hpath in Hd. rewrite namei_file_Dir by done.
  rewrite lookup_node_cons by by destruct (dir_path dir fs1).
  assert (Hfs' : fs' = with_nodes fs1 (<[dir_path dir fs1 ++ [key] := File data]> (nodes fs1)) →
    file_inv dir fs'
    ∧ ∃ data0, Ok data = Ok data0
        ∧ ∀ k, file_view dir fs' k
               = if decide (k = key) then Some data0 else file_view dir fs k).
  { intros ->. split; [by apply file_inv_insert_file|].
    exists data. split; [done|]. intros k. unfold file_view.
    change (dir_path dir (with_nodes fs1 ?nd)) with (dir_path dir fs1). simpl.
    case_decide as Hk.
    - subst k. by rewrite lookup_insert_eq.
    - rewrite lookup_insert_ne by by intros [= ?]%(inj (app _)).
      by rewrite Hpath, Hsame. }
  destruct (nodes fs1 !! (dir_path dir fs1 ++ [key])) as [[data'|]|] eqn:Hk.
  - intros [= <-]. by apply Hfs'.
  - by destruct (Hentries1 key).
  - intros [= <-]. by apply Hfs'.
Qed.

Lemma fileStore_Delete_view key fs fs' :
  file_inv dir fs → file_name key →
  fileStore_Delete store key fs = (None, fs') →
  file_inv dir fs'
  ∧ ∀ k, file_view dir fs' k = if decide (k = key) then None else file_view dir fs k.
Proof.
  intros Hinv Hkey. pose proof Hinv as (Hwf & Hfiles & Hentries).
  unfold fileStore_Delete. cbn [directory store]. unfold Remove at 1.
  destruct (namei fs (Join [dir; key])) as [e|p] eqn:Hn; [done|].
  apply namei_file_inr in Hn as [-> Hd]; [|done].
  rewrite lookup_node_cons by by destruct (dir_path dir fs).
  destruct (nodes fs !! (dir_path dir fs ++ [key])) as [[data|]|] eqn:Hk;
    [| by destruct (Hentries key) | done].
  set (fs1 := with_nodes fs (delete (dir_path dir fs ++ [key]) (nodes fs))).
  assert (Hinv1 : file_inv dir fs1) by by eapply file_inv_delete_file.
  assert (Hview1 : ∀ k, file_view dir fs1 k
                        = if decide (k = key) then None else file_view dir fs k).
  { intros k. unfold file_view, fs1.
    change (dir_path dir (with_nodes fs ?nd)) with (dir_path dir fs). simpl.
    case_decide as Hne; [subst k; by rewrite lookup_delete_eq|].
    by rewrite lookup_delete_ne by by intros [= ?]%(inj (app _)). }
  assert (Hd1 : lookup_node (nodes fs1) (dir_path dir fs1) = Some Dir).
  { unfold fs1. change (dir_path dir (with_nodes fs ?nd)) with (dir_path dir fs). simpl.
    rewrite lookup_node_delete_ne; [done|]. symmetry. apply snoc_ne. }
  unfold Remove. rewrite namei_dir_Dir by (done || apply Hinv1). rewrite Hd1.
  destruct (decide (dir_path dir fs1 = [])); [by intros [= <-]|].
  destruct (decide (entries (nodes fs1) (dir_path dir fs1) = [])) as [Hempty|];
    [|by intros [= <-]].
  intros [= <-]. rewrite entries_nil in Hempty. split; [by apply file_inv_delete_dir|].
  intros k. rewrite <- Hview1. unfold file_view.
  change (dir_path dir (with_nodes fs1 ?nd)) with (dir_path dir fs1). simpl.
  by rewrite lookup_delete_ne by (symmetry; apply snoc_ne).
Qed.

Lemma fileStore_refines : refines (NewFileStore dir) (file_inv dir) file_name (file_view dir).
Proof.
  split; simpl.
  - intros key fs Hinv Hkey. by apply fileStore_Get_view.
  - intros fs Hinv. by apply fileStore_List_view.
  - intros _ key value fs fs' Hinv Hkey [= Hs]. by eapply fileStore_Set_view.
  - intros key fs fs' Hinv Hkey Hd. by eapply fileStore_Delete_view.
Qed.

End FileStoreMap.

(** ** Other keys and other annotations *)

(** C8, as the code has it.  Against the API server the ConfigMap, Secret
    and annotation stores keep keys apart: a [Set] or [Delete] of one key
    that succeeds leaves what [Get] returns for every other key as it was,
    and after [Set k1], [Set k2], [Delete k1] on an empty store, [Get k2]
    returns the second value and [List] is exactly [k2].  The file store
    does the same for a directory path that is not empty and has no [..]
    element, keys that are single file names, and a file system in which
    no element of the directory's path is a regular file and the directory
    holds no directory.  For the annotation store, [List] has a key exactly
    for each annotation that carries the prefix, and no [Set] or [Delete],
    whatever it returns, changes an annotation that does not carry it. *)
Theorem Set_and_Delete_keep_other_keys :
  (∀ name,
     let s := NewConfigMapStore {| cms_client := configMap_apiserver; cms_name := name |} in
     frames_other_keys s (λ _, True) (λ _, True)
     ∧ isolates_siblings s (λ _, True) (λ _, True))
  ∧ (∀ base64_decode name,
     let s := NewSecretStore
                {| ss_client := secret_apiserver base64_decode; ss_name := name |} in
     frames_other_keys s (λ _, True) (λ _, True)
     ∧ isolates_siblings s (λ _, True) (λ _, True))
  ∧ (∀ name,
     let store := {| as_client := dynamic_apiserver; as_name := name |} in
     let s := NewAnnotationStore store in
     frames_other_keys s (λ _, True) (λ _, True)
     ∧ isolates_siblings s (λ _, True) (λ _, True)
     ∧ (∀ w, ∃ keys, annotationStore_List store w = (Ok keys, w)
                     ∧ ∀ k, k ∈ keys ↔ is_Some (annotation_at name w (annotation_of k)))
     ∧ (∀ annotation,
          HasPrefix annotation (annotationPrefix +:+ "/") = false →
          (∀ key, annotation ≠ annotation_of key)
          ∧ (∀ key value w res w',
               annotationStore_Set store key value w = (res, w') →
               annotation_at name w' annotation = annotation_at name w annotation)
          ∧ (∀ key w res w',
               annotationStore_Delete store key w = (res, w') →
               annotation_at name w' annotation = annotation_at name w annotation)))
  ∧ (∀ directory,
     directory ≠ "" → ".." ∉ split_path directory →
     let s := NewFileStore directory in
     frames_other_keys s (file_inv directory) file_name
     ∧ isolates_siblings s (file_inv directory) file_name).
Proof.
  split; [|split; [|split]].
  - intros name s. split.
    + eapply refines_frames_other_keys, configMapStore_refines.
    + eapply refines_isolates_siblings, configMapStore_refines.
  - intros base64_decode name s. split.
    + eapply refines_frames_other_keys, secretStore_refines.
    + eapply refines_isolates_siblings, secretStore_refines.
  - intros name store s. split; [|split; [|split]].
    + eapply refines_frames_other_keys, annotationStore_refines.
    + eapply refines_isolates_siblings, annotationStore_refines.
    + intros w. destruct (annotationStore_List_apiserver name w) as (keys & Hl & _ & Hk).
      by exists keys.
    + apply annotationStore_unprefixed.
  - intros directory Hne Hdd s. split.
    + eapply refines_frames_other_keys, fileStore_refines; done.
    + eapply refines_isolates_siblings, fileStore_refines; done.
Qed.

(** ** Keys that are paths *)

(** C10.  The file of a key is the directory joined with the key as it is:
    for the directory [/data/store], the key [../x] names [/data/x], which
    is not under the directory, and there [Set] writes the file, [Get]
    reads it and [Delete] removes it. *)
Theorem fileStore_key_escapes_directory :
  let s := {| directory := "/data/store" |} in
  Join [directory s; "../x"] = "/data/x"
  ∧ namei store_fs "/data/x" = inr ["data"; "x"]
  ∧ namei store_fs (directory s) = inr ["data"; "store"]
  ∧ ¬ ["data"; "store"] `prefix_of` ["data"; "x"]
  ∧ (∀ value,
       fileStore_Set s "../x" value store_fs
       = match Marshal value with
         | Err e => (Some e, store_fs)
         | Ok data => (None, neighbour_fs data)
         end)
  ∧ (∀ data,
       fileStore_Get s "../x" (neighbour_fs data) = (Unmarshal data, neighbour_fs data))
  ∧ (∀ data,
       fileStore_Delete s "../x" (neighbour_fs data)
       = (None, {| cwd := []; nodes := {[ ["data"] := Dir ]} |})).
Proof.
  intros s. split; [done|]. split; [done|]. split; [done|]. split.
  - intros [k Hk]. discriminate Hk.
  - split; [|split].
    + intros value. unfold fileStore_Set. destruct (Marshal value) as [data|e]; [|done].
      by vm_compute.
    + intros data. unfold fileStore_Get.
      change (ReadFile (Join [directory s; "../x"]) (neighbour_fs data))
        with (ReadFile "/data/x" (neighbour_fs data)).
      assert (Hr : ReadFile "/data/x" (neighbour_fs data) = (Ok data, neighbour_fs data))
        by by vm_compute.
      by rewrite Hr.
    + intros data. by vm_compute.
Qed.

End Stores.

Arguments cms_client {W} _.
Arguments cms_name {W} _.
Arguments ss_client {W} _.
Arguments ss_name {W} _.
Arguments as_client {W} _.
Arguments as_name {W} _.
Arguments configMapStore_Get {Value} Unmarshal {W} c key w.
Arguments configMapStore_Set {Value} Marshal {W} fuel c key value w.
Arguments configMapStore_List {W} c w.
Arguments configMapStore_Delete {W} c key w.
Arguments NewConfigMapStore {Value} Marshal Unmarshal {W} c.
Arguments secretStore_Get {Value} Unmarshal {W} c key w.
Arguments secretStore_Set {Value} Marshal {W} fuel c key value w.
Arguments secretStore_List {W} c w.
Arguments secretStore_Delete {W} c key w.
Arguments NewSecretStore {Value} Marshal Unmarshal {W} c.
Arguments annotationStore_Get {Value} Unmarshal {W} c key w.
Arguments annotationStore_Set {Value} Marshal {W} c key value w.
Arguments annotationStore_List {W} c w.
Arguments annotationStore_Delete {W} c key w.
Arguments NewAnnotationStore {Value} Marshal Unmarshal {W} c.
Arguments fileStore_Get {Value} Unmarshal s key fs.
Arguments fileStore_Set {Value} Marshal s key value fs.
Arguments NewFileStore {Value} Marshal Unmarshal directory.
Arguments List_follows_writes {Value W} s inv ok.
Arguments Delete_forgets {Value W} s inv ok.

(** ** Where the file store departs from the other stores *)

Lemma ReadDir_fs dirname fs : snd (ReadDir dirname fs) = fs.
Proof.
  unfold ReadDir. destruct (namei fs dirname); [done|].
  by destruct (lookup_node (nodes fs) _) as [[|]|].
Qed.

(** C1.  [Delete] of a key that was never written: the file store returns
    the error of [os.Remove], both when the directory is absent and when
    it is there without the file; against the API server the ConfigMap,
    Secret and annotation stores return no error, whatever is stored. *)
Theorem fileStore_Delete_absent_key_fails :
  fileStore_Delete {| directory := "/data/store" |} "a" bare_fs
    = (Some (PathError "remove" "/data/store/a" ENOENT), bare_fs)
  ∧ fileStore_Delete {| directory := "/data/store" |} "a" store_fs
    = (Some (PathError "remove" "/data/store/a" ENOENT), store_fs)
  ∧ (∀ name key w,
       fst (configMapStore_Delete
              {| cms_client := configMap_apiserver; cms_name := name |} key w) = None)
  ∧ (∀ base64_decode name key w,
       fst (secretStore_Delete
              {| ss_client := secret_apiserver base64_decode; ss_name := name |} key w) = None)
  ∧ (∀ name key w,
       fst (annotationStore_Delete
              {| as_client := dynamic_apiserver; as_name := name |} key w) = None).
Proof.
  split; [by vm_compute|]. split; [by vm_compute|]. split; [|split].
  - intros name key w. destruct (configMapStore_Delete_apiserver name key w) as (w' & -> & _).
    done.
  - intros base64_decode name key w.
    destruct (secretStore_Delete_apiserver base64_decode name key w) as (w' & -> & _). done.
  - intros name key w. by rewrite annotationStore_Delete_apiserver.
Qed.

(** C3.  [List] of the file store never returns an error: where the
    directory's path names a regular file, reading the directory fails
    with an error that is not "does not exist", and [List] returns no keys
    and no error. *)
Theorem fileStore_List_hides_every_failure :
  ReadDir "/data/store" blocked_fs
    = (Err (PathError "readdirent" "/data/store" ENOTDIR), blocked_fs)
  ∧ IsNotExist (PathError "readdirent" "/data/store" ENOTDIR) = false
  ∧ fileStore_List {| directory := "/data/store" |} blocked_fs = (Ok [], blocked_fs)
  ∧ (∀ s fs, ∃ keys, fileStore_List s fs = (Ok keys, fs)).
Proof.
  split; [by vm_compute|]. split; [done|]. split; [by vm_compute|].
  intros s fs. unfold fileStore_List.
  pose proof (ReadDir_fs (directory s) fs) as Hfs.
  destruct (ReadDir (directory s) fs) as [[keys|e] fs']; simpl in Hfs; subst fs'; by eexists.
Qed.

(** ** Runs *)

(** C4: the creation fails because the container exists already, and
    [Set] returns that error after one patch and one creation. *)
Lemma Set_returns_AlreadyExists :
  configMapStore_Set scalar_Marshal 2
    {| cms_client := recording scripted; cms_name := "store" |} "x" (VNumber 1)
    ([], [Err NotFound; Err AlreadyExists])
  = Some (Some AlreadyExists,
          ([CallPatch "store" MergePatchType (configMap_set_payload "x" "1");
            CallCreate (empty_ConfigMap "store")], []))
  ∧ secretStore_Set scalar_Marshal 2
      {| ss_client := recording scripted; ss_name := "store" |} "x" (VNumber 1)
      ([], [Err NotFound; Err AlreadyExists])
    = Some (Some AlreadyExists,
            ([CallPatch "store" MergePatchType (secret_set_payload "x" "1");
              CallCreate (empty_Secret "store")], [])).
Proof. split; by vm_compute. Qed.

Lemma Set_returns_creation_failure_run :
  configMapStore_Set scalar_Marshal 1
    {| cms_client := recording scripted; cms_name := "store" |} "x" (VBool true)
    ([], [Err NotFound; Err Forbidden])
  = Some (Some Forbidden,
          ([CallPatch "store" MergePatchType (configMap_set_payload "x" "true");
            CallCreate (empty_ConfigMap "store")], []))
  ∧ secretStore_Set scalar_Marshal 1
      {| ss_client := recording scripted; ss_name := "store" |} "x" (VBool true)
      ([], [Err NotFound; Err Forbidden])
    = Some (Some Forbidden,
            ([CallPatch "store" MergePatchType (secret_set_payload "x" "true");
              CallCreate (empty_Secret "store")], [])).
Proof.
  split.
  - apply (proj1 (Set_returns_creation_failure scalar scalar_Marshal))
      with (e := NotFound) (w1 := [Err Forbidden]); reflexivity.
  - apply (proj2 (Set_returns_creation_failure scalar scalar_Marshal))
      with (e := NotFound) (w1 := [Err Forbidden]); reflexivity.
Defined.

(** C5: the container is missing at the first two patches, and [Set] makes
    a third. *)
Lemma Set_patches_three_times :
  ∃ log,
    configMapStore_Set scalar_Marshal 3
      {| cms_client := recording scripted; cms_name := "store" |} "x" (VNumber 1)
      ([], [Err NotFound; Ok (empty_ConfigMap "store");
            Err NotFound; Ok (empty_ConfigMap "store");
            Ok (empty_ConfigMap "store")])
    = Some (None, (log, []))
    ∧ length (List.filter is_patch log) = 3%nat.
Proof. eexists. split; by vm_compute. Qed.

Lemma Set_retries_after_every_creation_run :
  ∃ log,
    secretStore_Set scalar_Marshal 5
      {| ss_client := recording scripted; ss_name := "store" |} "x" VNull
      ([], rounds 4 (empty_Secret "store"))
    = Some (None, (log, []))
    ∧ length (List.filter is_patch log) = 5%nat
    ∧ length (List.filter is_create log) = 4%nat.
Proof.
  exact (proj1 (proj2 (Set_retries_after_every_creation scalar scalar_Marshal
                         4 "store" "x" VNull "null" eq_refl))).
Defined.

(** C2: a number is set and read back, with each store. *)
Lemma Get_after_Set_run :
  (∃ fs, Store_Set (NewFileStore scalar_Marshal scalar_Unmarshal "/data/store")
           1 "a" (VNumber 42) bare_fs = Some (None, fs)
         ∧ Store_Get (NewFileStore scalar_Marshal scalar_Unmarshal "/data/store") "a" fs
           = (Ok (VNumber 42), fs))
  ∧ (∃ w, Store_Set (NewConfigMapStore scalar_Marshal scalar_Unmarshal
                       {| cms_client := configMap_apiserver; cms_name := "store" |})
            2 "x" (VNumber 42) ∅ = Some (None, w)
          ∧ Store_Get (NewConfigMapStore scalar_Marshal scalar_Unmarshal
                         {| cms_client := configMap_apiserver; cms_name := "store" |}) "x" w
            = (Ok (VNumber 42), w))
  ∧ (∃ w, Store_Set (NewSecretStore scalar_Marshal scalar_Unmarshal
                       {| ss_client := secret_apiserver Some; ss_name := "store" |})
            2 "x" (VNumber 42) ∅ = Some (None, w)
          ∧ Store_Get (NewSecretStore scalar_Marshal scalar_Unmarshal
                         {| ss_client := secret_apiserver Some; ss_name := "store" |}) "x" w
            = (Ok (VNumber 42), w))
  ∧ (∃ w, Store_Set (NewAnnotationStore scalar_Marshal scalar_Unmarshal
                       {| as_client := dynamic_apiserver; as_name := "pod" |})
            1 "x" (VNumber 42) pod_world = Some (None, w)
          ∧ Store_Get (NewAnnotationStore scalar_Marshal scalar_Unmarshal
                         {| as_client := dynamic_apiserver; as_name := "pod" |}) "x" w
            = (Ok (VNumber 42), w)).
Proof.
  destruct (Get_after_Set_returns_value scalar scalar_Marshal scalar_Unmarshal)
    as (Hfile & Hcm & Hsec & Hann).
  split; [|split; [|split]].
  - eexists. split; [vm_compute; reflexivity|].
    eapply (Hfile "/data/store" 1%nat "a" (VNumber 42) bare_fs); [exact I | exact I | |].
    + intros data [= <-]. reflexivity.
    + vm_compute. reflexivity.
  - eexists. split; [vm_compute; reflexivity|].
    eapply (proj1 (Hcm "store") 2%nat "x" (VNumber 42) ∅); [exact I | exact I | |].
    + intros data [= <-]. reflexivity.
    + vm_compute. reflexivity.
  - eexists. split; [vm_compute; reflexivity|].
    eapply (proj1 (Hsec Some "store") 2%nat "x" (VNumber 42) ∅); [exact I | exact I | |].
    + intros data [= <-]. reflexivity.
    + vm_compute. reflexivity.
  - eexists. split; [vm_compute; reflexivity|].
    eapply (Hann "pod" 1%nat "x" (VNumber 42) pod_world); [exact I | exact I | |].
    + intros data [= <-]. reflexivity.
    + vm_compute. reflexivity.
Defined.

(** C6: the deletion of the container fails after the last key is gone,
    or the directory still has a file, and [Delete] returns no error. *)
Lemma Delete_cleanup_failure_run :
  configMapStore_Delete {| cms_client := scripted; cms_name := "store" |} "x"
    [Ok (empty_ConfigMap "store"); Err Forbidden] = (None, [])
  ∧ secretStore_Delete {| ss_client := scripted; ss_name := "store" |} "x"
      [Ok (empty_Secret "store"); Err Forbidden] = (None, [])
  ∧ fileStore_Delete {| directory := "/data/store" |} "a" shared_fs
    = (None, with_nodes store_fs (<[ ["data"; "store"; "b"] := File "2" ]> (nodes store_fs))).
Proof.
  destruct Delete_cleanup_failure_not_surfaced as (Hcm & Hsec & Hfile).
  split; [|split].
  - apply (Hcm _ {| cms_client := scripted; cms_name := "store" |} "x" _
             (empty_ConfigMap "store") [Err Forbidden] (Some Forbidden)); reflexivity.
  - apply (Hsec _ {| ss_client := scripted; ss_name := "store" |} "x" _
             (empty_Secret "store") [Err Forbidden] (Some Forbidden)); reflexivity.
  - apply (Hfile {| directory := "/data/store" |} "a" shared_fs
             (with_nodes store_fs (<[ ["data"; "store"; "b"] := File "2" ]> (nodes store_fs)))
             (Some (PathError "remove" "/data/store" ENOTEMPTY))); vm_compute; reflexivity.
Defined.

(** C7: a Secret is created on demand and patched; what [Get] returns is
    what [data] holds, not what [stringData] holds. *)
Lemma secretStore_fields_run :
  (∃ log,
     secretStore_Set scalar_Marshal 2
       {| ss_client := recording scripted; ss_name := "store" |} "x" (VNumber 1)
       ([], rounds 1 (empty_Secret "store")) = Some (None, (log, []))
     ∧ Forall (λ called, is_patch called = true →
                 called = CallPatch "store" MergePatchType (secret_set_payload "x" "1")) log)
  ∧ secretStore_Get scalar_Unmarshal {| ss_client := scripted; ss_name := "store" |} "x"
      [Ok {| sec_Name := "store"; sec_Data := {[ "x" := "1" ]};
             sec_StringData := {[ "x" := "2" ]} |}]
    = (Ok (VNumber 1), []).
Proof.
  destruct (secretStore_writes_stringData_reads_data scalar scalar_Marshal scalar_Unmarshal)
    as (_ & _ & Hset & Hget & _).
  split.
  - eexists. split; [vm_compute; reflexivity|].
    refine (proj1 (Hset _ scripted "store" 2%nat "x" (VNumber 1) "1"
                     (rounds 1 (empty_Secret "store")) None _ [] eq_refl _)).
    vm_compute. reflexivity.
  - rewrite (Hget _ {| ss_client := scripted; ss_name := "store" |} "x" _
               {| sec_Name := "store"; sec_Data := {[ "x" := "1" ]};
                  sec_StringData := {[ "x" := "2" ]} |} []) by reflexivity.
    vm_compute. reflexivity.
Defined.

(** C9: a 404 status inside another error is not "the container is
    absent"; the stores return the error they were given. *)
Lemma wrapped_404_is_propagated_run :
  isResourceMissingError (wrapError "get" NotFound) = false
  ∧ configMapStore_Get scalar_Unmarshal {| cms_client := scripted; cms_name := "store" |} "x"
      [Err (wrapError "get" NotFound)] = (Err (wrapError "get" NotFound), [])
  ∧ secretStore_List {| ss_client := scripted; ss_name := "store" |}
      [Err (wrapError "get" NotFound)] = (Err (wrapError "get" NotFound), [])
  ∧ annotationStore_Delete {| as_client := scripted; as_name := "pod" |} "x"
      [Err (wrapError "patch" NotFound)] = (Some (wrapError "patch" NotFound), []).
Proof.
  split; [reflexivity|]. split; [|split].
  - destruct (isResourceMissingError_direct_404_only scalar scalar_Unmarshal
                (wrapError "get" NotFound)) as (_ & _ & H).
    destruct (H eq_refl) as (Hcm & _ & _).
    apply (proj1 (Hcm _ {| cms_client := scripted; cms_name := "store" |} "x"
                    [Err (wrapError "get" NotFound)] [])). reflexivity.
  - destruct (isResourceMissingError_direct_404_only scalar scalar_Unmarshal
                (wrapError "get" NotFound)) as (_ & _ & H).
    destruct (H eq_refl) as (_ & Hsec & _).
    apply (proj1 (Hsec _ {| ss_client := scripted; ss_name := "store" |} "x"
                    [Err (wrapError "get" NotFound)] [])). reflexivity.
  - destruct (isResourceMissingError_direct_404_only scalar scalar_Unmarshal
                (wrapError "patch" NotFound)) as (_ & _ & H).
    destruct (H eq_refl) as (_ & _ & Hann).
    apply (proj2 (Hann _ {| as_client := scripted; as_name := "pod" |} "x"
                    [Err (wrapError "patch" NotFound)] [])). reflexivity.
Defined.

(** C8: two keys of the file store that name one file.  After [Set "a"],
    [Set "./a"] and [Delete "a"], the key ["./a"] is not found and [List]
    is empty. *)
Lemma fileStore_keys_name_one_file :
  Join ["/data/store"; "a"] = Join ["/data/store"; "./a"]
  ∧ ∃ w1 w2 w3,
      Store_Set (NewFileStore scalar_Marshal scalar_Unmarshal "/data/store")
        1 "a" (VNumber 1) bare_fs = Some (None, w1)
      ∧ Store_Set (NewFileStore scalar_Marshal scalar_Unmarshal "/data/store")
          1 "./a" (VNumber 2) w1 = Some (None, w2)
      ∧ Store_Delete (NewFileStore scalar_Marshal scalar_Unmarshal "/data/store") "a" w2
        = (None, w3)
      ∧ Store_Get (NewFileStore scalar_Marshal scalar_Unmarshal "/data/store") "./a" w3
        = (Err ErrorKeyNotFound, w3)
      ∧ Store_List (NewFileStore scalar_Marshal scalar_Unmarshal "/data/store") w3
        = (Ok [], w3).
Proof.
  split; [reflexivity|]. eexists _, _, _.
  split; [vm_compute; reflexivity|]. split; [vm_compute; reflexivity|].
  split; [vm_compute; reflexivity|]. split; vm_compute; reflexivity.
Qed.

Lemma file_inv_bare dir : file_inv dir bare_fs.
Proof.
  split; [|split]; simpl.
  - intros p n Hp. by rewrite lookup_empty in Hp.
  - intros p data _. by rewrite lookup_empty.
  - intros k. by rewrite lookup_empty.
Qed.

Lemma file_name_a : file_name "a".
Proof. by repeat split. Qed.

Lemma file_name_b : file_name "b".
Proof. by repeat split. Qed.

(** C8: two file names in a fresh directory, and an annotation of another
    owner next to the store's. *)
Lemma Set_and_Delete_keep_other_keys_run :
  (∃ fs,
     Store_Get (NewFileStore scalar_Marshal scalar_Unmarshal "/data/store") "b" fs
       = (Ok (VNumber 2), fs)
     ∧ Store_List (NewFileStore scalar_Marshal scalar_Unmarshal "/data/store") fs
       = (Ok ["b"], fs))
  ∧ (∃ w,
       Store_Get (NewConfigMapStore scalar_Marshal scalar_Unmarshal
                    {| cms_client := configMap_apiserver; cms_name := "store" |}) "b" w
         = (Ok (VNumber 2), w)
       ∧ Store_List (NewConfigMapStore scalar_Marshal scalar_Unmarshal
                       {| cms_client := configMap_apiserver; cms_name := "store" |}) w
         = (Ok ["b"], w))
  ∧ (∃ w,
       annotationStore_Set scalar_Marshal
         {| as_client := dynamic_apiserver; as_name := "pod" |} "a" (VNumber 1) pod_world
         = (None, w)
       ∧ annotation_at "pod" w "other/unrelated" = Some "123").
Proof.
  destruct (Set_and_Delete_keep_other_keys scalar scalar_Marshal scalar_Unmarshal)
    as (Hcm & _ & Hann & Hfile).
  assert (Hne : "/data/store" ≠ "") by discriminate.
  assert (Hdd : ".." ∉ split_path "/data/store")
    by (simpl; intros H;
        repeat (apply elem_of_cons in H as [H|H]; [discriminate H|]);
        by apply elem_of_nil in H).
  split; [|split].
  - eexists.
    eapply (proj2 (Hfile "/data/store" Hne Hdd)
              1%nat 1%nat "a" "b" (VNumber 1) (VNumber 2) bare_fs).
    + apply file_inv_bare.
    + apply file_name_a.
    + apply file_name_b.
    + discriminate.
    + intros data [= <-]. reflexivity.
    + vm_compute. reflexivity.
    + vm_compute. reflexivity.
    + vm_compute. reflexivity.
    + vm_compute. reflexivity.
  - eexists.
    eapply (proj2 (Hcm "store") 2%nat 1%nat "a" "b" (VNumber 1) (VNumber 2) ∅).
    + exact I.
    + exact I.
    + exact I.
    + discriminate.
    + intros data [= <-]. reflexivity.
    + vm_compute. reflexivity.
    + vm_compute. reflexivity.
    + vm_compute. reflexivity.
    + vm_compute. reflexivity.
  - exists (snd (annotationStore_Set scalar_Marshal
                   {| as_client := dynamic_apiserver; as_name := "pod" |}
                   "a" (VNumber 1) pod_world)).
    split; [vm_compute; reflexivity|].
    destruct (Hann "pod") as (_ & _ & _ & Hother).
    destruct (Hother "other/unrelated" eq_refl) as (_ & Hset & _).
    rewrite (Hset "a" (VNumber 1) pod_world None
               (snd (annotationStore_Set scalar_Marshal
                       {| as_client := dynamic_apiserver; as_name := "pod" |}
                       "a" (VNumber 1) pod_world)))
      by (vm_compute; reflexivity).
    vm_compute. reflexivity.
Defined.

(** * Further properties of the stores *)

Section Calls.
Variable Value : Type.
Variable Marshal : Value -> result string.
Variable Unmarshal : string -> result Value.

(** ** Keys that are not there *)

(** X1.  [Get] returns the sentinel [ErrorKeyNotFound], and the state the
    fetch left, both when the fetch fails with an error that is classified
    as "absent" and when the fetched container has no entry for the key:
    the caller cannot tell the two apart.  For the Kubernetes stores this
    holds with every client, for the file store with every file system. *)
Theorem Get_of_absent_key_is_ErrorKeyNotFound :
  (∀ W (c : configMapStore W) key w w1,
     (∀ e, Get (cms_client c) (cms_name c) w = (Err e, w1) →
           isResourceMissingError e = true →
           configMapStore_Get Unmarshal c key w = (Err ErrorKeyNotFound, w1))
     ∧ (∀ configMap, Get (cms_client c) (cms_name c) w = (Ok configMap, w1) →
           cm_Data configMap !! key = None →
           configMapStore_Get Unmarshal c key w = (Err ErrorKeyNotFound, w1)))
  ∧ (∀ W (c : secretStore W) key w w1,
     (∀ e, Get (ss_client c) (ss_name c) w = (Err e, w1) →
           isResourceMissingError e = true →
           secretStore_Get Unmarshal c key w = (Err ErrorKeyNotFound, w1))
     ∧ (∀ secret, Get (ss_client c) (ss_name c) w = (Ok secret, w1) →
           sec_Data secret !! key = None →
           secretStore_Get Unmarshal c key w = (Err ErrorKeyNotFound, w1)))
  ∧ (∀ W (c : annotationStore W) key w w1,
     (∀ e, Get (as_client c) (as_name c) w = (Err e, w1) →
           isResourceMissingError e = true →
           annotationStore_Get Unmarshal c key w = (Err ErrorKeyNotFound, w1))
     ∧ (∀ resource, Get (as_client c) (as_name c) w = (Ok resource, w1) →
           GetAnnotations resource !! annotation_of key = None →
           annotationStore_Get Unmarshal c key w = (Err ErrorKeyNotFound, w1)))
  ∧ (∀ (s : fileStore) key fs,
     (∀ e, namei fs (Join [directory s; key]) = inl e → e = ENOENT →
           fileStore_Get Unmarshal s key fs = (Err ErrorKeyNotFound, fs))
     ∧ (∀ p, namei fs (Join [directory s; key]) = inr p →
             lookup_node (nodes fs) p = None →
             fileStore_Get Unmarshal s key fs = (Err ErrorKeyNotFound, fs))).
Proof.
  split; [|split; [|split]].
  - intros W c key w w1. split.
    + intros e Hg He. unfold configMapStore_Get. by rewrite Hg, He.
    + intros configMap Hg Hk. unfold configMapStore_Get. by rewrite Hg, Hk.
  - intros W c key w w1. split.
    + intros e Hg He. unfold secretStore_Get. by rewrite Hg, He.
    + intros secret Hg Hk. unfold secretStore_Get. by rewrite Hg, Hk.
  - intros W c key w w1. split.
    + intros e Hg He. unfold annotationStore_Get. by rewrite Hg, He.
    + intros resource Hg Hk. unfold annotationStore_Get. by rewrite Hg, Hk.
  - intros s key fs. split.
    + intros e Hn ->. unfold fileStore_Get, ReadFile. by rewrite Hn.
    + intros p Hn Hp. unfold fileStore_Get, ReadFile. by rewrite Hn, Hp.
Qed.

(** ** What [List] returns *)

(** X2.  With every client, [List] of the ConfigMap, Secret and annotation
    stores returns no keys and no error when the fetch fails with an error
    classified as "absent"; when the fetch succeeds it returns each key
    once, and a key is returned exactly when the container's data map has
    an entry for it (for the annotation store: when the resource has the
    annotation [kubestore/key]). *)
Theorem List_returns_the_keys_of_the_container :
  (∀ W (c : configMapStore W) w w1,
     (∀ e, Get (cms_client c) (cms_name c) w = (Err e, w1) →
           isResourceMissingError e = true →
           configMapStore_List c w = (Ok [], w1))
     ∧ (∀ configMap, Get (cms_client c) (cms_name c) w = (Ok configMap, w1) →
           ∃ keys, configMapStore_List c w = (Ok keys, w1) ∧ NoDup keys
                   ∧ ∀ k, k ∈ keys ↔ is_Some (cm_Data configMap !! k)))
  ∧ (∀ W (c : secretStore W) w w1,
     (∀ e, Get (ss_client c) (ss_name c) w = (Err e, w1) →
           isResourceMissingError e = true →
           secretStore_List c w = (Ok [], w1))
     ∧ (∀ secret, Get (ss_client c) (ss_name c) w = (Ok secret, w1) →
           ∃ keys, secretStore_List c w = (Ok keys, w1) ∧ NoDup keys
                   ∧ ∀ k, k ∈ keys ↔ is_Some (sec_Data secret !! k)))
  ∧ (∀ W (c : annotationStore W) w w1,
     (∀ e, Get (as_client c) (as_name c) w = (Err e, w1) →
           isResourceMissingError e = true →
           annotationStore_List c w = (Ok [], w1))
     ∧ (∀ resource, Get (as_client c) (as_name c) w = (Ok resource, w1) →
           ∃ keys, annotationStore_List c w = (Ok keys, w1) ∧ NoDup keys
                   ∧ ∀ k, k ∈ keys
                          ↔ is_Some (GetAnnotations resource !! annotation_of k))).
Proof.
  split; [|split].
  - intros W c w w1. split.
    + intros e Hg He. unfold configMapStore_List. by rewrite Hg, He.
    + intros configMap Hg. unfold configMapStore_List. rewrite Hg.
      eexists. split; [done|]. split; [apply NoDup_keys | apply elem_of_keys].
  - intros W c w w1. split.
    + intros e Hg He. unfold secretStore_List. by rewrite Hg, He.
    + intros secret Hg. unfold secretStore_List. rewrite Hg.
      eexists. split; [done|]. split; [apply NoDup_keys | apply elem_of_keys].
  - intros W c w w1. split.
    + intros e Hg He. unfold annotationStore_List. by rewrite Hg, He.
    + intros resource Hg. unfold annotationStore_List. rewrite Hg.
      eexists. split; [done|]. split.
      * apply NoDup_omap_inj; [|apply NoDup_keys].
        intros x y z Hx%listed_key_spec Hy%listed_key_spec. congruence.
      * intros k. rewrite list_elem_of_omap. split.
        -- intros (a & Ha & Hk%listed_key_spec). subst a. by apply elem_of_keys.
        -- intros Hk. exists (annotation_of k). split; [by apply elem_of_keys|].
           by apply listed_key_spec.
Qed.

(** ** Values that cannot be encoded *)

(** X3.  When the value cannot be encoded, [Set] returns the codec's error
    before anything else happens: the Kubernetes stores make no call to
    their client, and the file store leaves the file system as it is (the
    directory is not created). *)
Theorem Set_of_unencodable_value_does_nothing (value : Value) (e : error) :
  Marshal value = Err e →
  (∀ W (c0 : ResourceInterface ConfigMap W) name fuel key w,
     configMapStore_Set Marshal (S fuel) {| cms_client := recording c0; cms_name := name |}
       key value ([], w) = Some (Some e, ([], w)))
  ∧ (∀ W (c0 : ResourceInterface Secret W) name fuel key w,
     secretStore_Set Marshal (S fuel) {| ss_client := recording c0; ss_name := name |}
       key value ([], w) = Some (Some e, ([], w)))
  ∧ (∀ W (c0 : ResourceInterface Unstructured W) name key w,
     annotationStore_Set Marshal {| as_client := recording c0; as_name := name |}
       key value ([], w) = (Some e, ([], w)))
  ∧ (∀ s key fs, fileStore_Set Marshal s key value fs = (Some e, fs)).
Proof.
  intros Hm. split; [|split; [|split]].
  - intros. simpl. by rewrite Hm.
  - intros. simpl. by rewrite Hm.
  - intros. unfold annotationStore_Set. by rewrite Hm.
  - intros. unfold fileStore_Set. by rewrite Hm.
Qed.

(** ** Reading does not write *)

(** X4.  [Get] and [List] of the Kubernetes stores make exactly one call to
    their client, a fetch of the store's own container, whatever it
    answers; [Get] and [List] of the file store leave the file system as
    it is. *)
Theorem Get_and_List_only_fetch :
  (∀ W (c0 : ResourceInterface ConfigMap W) name key w,
     fst (snd (configMapStore_Get Unmarshal
                 {| cms_client := recording c0; cms_name := name |} key ([], w)))
       = [CallGet name]
     ∧ fst (snd (configMapStore_List
                   {| cms_client := recording c0; cms_name := name |} ([], w)))
       = [CallGet name])
  ∧ (∀ W (c0 : ResourceInterface Secret W) name key w,
     fst (snd (secretStore_Get Unmarshal
                 {| ss_client := recording c0; ss_name := name |} key ([], w)))
       = [CallGet name]
     ∧ fst (snd (secretStore_List
                   {| ss_client := recording c0; ss_name := name |} ([], w)))
       = [CallGet name])
  ∧ (∀ W (c0 : ResourceInterface Unstructured W) name key w,
     fst (snd (annotationStore_Get Unmarshal
                 {| as_client := recording c0; as_name := name |} key ([], w)))
       = [CallGet name]
     ∧ fst (snd (annotationStore_List
                   {| as_client := recording c0; as_name := name |} ([], w)))
       = [CallGet name])
  ∧ (∀ s key fs,
     snd (fileStore_Get Unmarshal s key fs) = fs ∧ snd (fileStore_List s fs) = fs).
Proof.
  split; [|split; [|split]].
  - intros W c0 name key w. split.
    + unfold configMapStore_Get. simpl. destruct (Get c0 name w) as [[cm|e] w1]; simpl.
      * by destruct (cm_Data cm !! key).
      * by destruct (isResourceMissingError e).
    + unfold configMapStore_List. simpl. destruct (Get c0 name w) as [[cm|e] w1]; simpl; [done|].
      by destruct (isResourceMissingError e).
  - intros W c0 name key w. split.
    + unfold secretStore_Get. simpl. destruct (Get c0 name w) as [[secret|e] w1]; simpl.
      * by destruct (sec_Data secret !! key).
      * by destruct (isResourceMissingError e).
    + unfold secretStore_List. simpl. destruct (Get c0 name w) as [[secret|e] w1]; simpl; [done|].
      by destruct (isResourceMissingError e).
  - intros W c0 name key w. split.
    + unfold annotationStore_Get. simpl. destruct (Get c0 name w) as [[resource|e] w1]; simpl.
      * by destruct (GetAnnotations resource !! annotation_of key).
      * by destruct (isResourceMissingError e).
    + unfold annotationStore_List. simpl.
      destruct (Get c0 name w) as [[resource|e] w1]; simpl; [done|].
      by destruct (isResourceMissingError e).
  - intros s key fs. split.
    + unfold fileStore_Get, ReadFile.
      destruct (namei fs (Join [directory s; key])) as [e|p]; [by destruct e|].
      by destruct (lookup_node (nodes fs) p) as [[|]|].
    + unfold fileStore_List. pose proof (ReadDir_fs (directory s) fs) as Hfs.
      by destruct (ReadDir (directory s) fs) as [[keys|e] fs'].
Qed.

(** ** The calls that [Set] and [Delete] make *)

Lemma configMapStore_Set_calls {W} (c0 : ResourceInterface ConfigMap W) name fuel key value
    data log w res log' w' :
  Marshal value = Ok data →
  configMapStore_Set Marshal fuel {| cms_client := recording c0; cms_name := name |}
    key value (log, w) = Some (res, (log', w')) →
  ∃ n, log' = log ++ retry_calls n
                       (CallPatch name MergePatchType (configMap_set_payload key data))
                       (CallCreate (empty_ConfigMap name))
       ∨ log' = log ++ retry_calls n
                         (CallPatch name MergePatchType (configMap_set_payload key data))
                         (CallCreate (empty_ConfigMap name))
                    ++ [CallCreate (empty_ConfigMap name)].
Proof.
  intros Hm. revert log w. induction fuel as [|fuel IH]; intros log w; [done|].
  simpl. rewrite Hm. fold (configMap_set_payload key data).
  destruct (Patch c0 name MergePatchType (configMap_set_payload key data) w)
    as [[r|e] w1] eqn:Hp.
  - intros [= <- <- <-]. exists 0%nat. by left.
  - destruct (isResourceMissingError e).
    + unfold configMapStore_create. simpl. fold (empty_ConfigMap name).
      destruct (Create c0 (empty_ConfigMap name) w1) as [[r|e'] w2] eqn:Hc.
      * intros Hs. apply IH in Hs as [n [-> | ->]]; exists (S n); [left|right];
          simpl; by rewrite <- !app_assoc.
      * intros [= <- <- <-]. exists 0%nat. right. by rewrite <- !app_assoc.
    + intros [= <- <- <-]. exists 0%nat. by left.
Qed.

(** X5.  With every client, whatever it answers, [Set] of the ConfigMap
    and Secret stores calls nothing but merge-patches of the store's own
    container that carry the one entry, and creations of that container
    with its name and no entries; the first call is a patch, and a
    creation only ever follows a patch.  No other container is addressed
    and nothing is fetched or deleted. *)
Theorem Set_calls_patch_and_create_only (value : Value) (data : string) :
  Marshal value = Ok data →
  (∀ W (c0 : ResourceInterface ConfigMap W) name fuel key w res log w',
     configMapStore_Set Marshal fuel {| cms_client := recording c0; cms_name := name |}
       key value ([], w) = Some (res, (log, w')) →
     Forall (λ called,
               called = CallPatch name MergePatchType
                          (JObject [("data", JObject [(key, JString data)])])
               ∨ called = CallCreate {| cm_Name := name; cm_Data := ∅ |}) log
     ∧ head log = Some (CallPatch name MergePatchType
                          (JObject [("data", JObject [(key, JString data)])]))
     ∧ (length (List.filter is_create log) ≤ length (List.filter is_patch log))%nat)
  ∧ (∀ W (c0 : ResourceInterface Secret W) name fuel key w res log w',
     secretStore_Set Marshal fuel {| ss_client := recording c0; ss_name := name |}
       key value ([], w) = Some (res, (log, w')) →
     Forall (λ called,
               called = CallPatch name MergePatchType
                          (JObject [("stringData", JObject [(key, JString data)])])
               ∨ called = CallCreate
                            {| sec_Name := name; sec_Data := ∅; sec_StringData := ∅ |}) log
     ∧ head log = Some (CallPatch name MergePatchType
                          (JObject [("stringData", JObject [(key, JString data)])]))
     ∧ (length (List.filter is_create log) ≤ length (List.filter is_patch log))%nat).
Proof.
  intros Hm.
  assert (Hshape : ∀ R (patch create : call R) (log : list (call R)),
    is_patch patch = true → is_create patch = false →
    is_patch create = false → is_create create = true →
    (∃ n, log = [] ++ retry_calls n patch create
          ∨ log = [] ++ retry_calls n patch create ++ [create]) →
    Forall (λ called, called = patch ∨ called = create) log
    ∧ head log = Some patch
    ∧ (length (List.filter is_create log) ≤ length (List.filter is_patch log))%nat).
  { intros R patch create log Hpp Hpc Hcp Hcc Hex.
    assert (Hcounts : ∀ n,
              length (List.filter is_create (retry_calls n patch create)) = n
              ∧ length (List.filter is_patch (retry_calls n patch create)) = S n).
    { induction n as [|n [IH1 IH2]]; simpl; rewrite ?Hpp, ?Hpc, ?Hcp, ?Hcc; simpl; [done|].
      by rewrite IH1, IH2. }
    destruct Hex as [n Hlog]. destruct (Hcounts n) as [Hc Hp].
    assert (Hall : Forall (λ called : call R, called = patch ∨ called = create)
                     (retry_calls n patch create))
      by (apply retry_calls_Forall; auto).
    assert (Hhead : head (retry_calls n patch create) = Some patch) by by destruct n.
    simpl in Hlog. destruct Hlog as [-> | ->].
    - split; [done|]. split; [done|]. lia.
    - split; [apply Forall_app; split; [done|]; repeat constructor; by right|].
      split; [by destruct (retry_calls n patch create)|].
      rewrite !List.filter_app, !length_app, Hc, Hp. simpl. rewrite Hcc, Hcp. simpl. lia. }
  split.
  - intros W c0 name fuel key w res log w' Hs.
    rewrite <- configMap_set_payload_eq. apply Hshape; try done.
    by eapply configMapStore_Set_calls.
  - intros W c0 name fuel key w res log w' Hs.
    rewrite <- secret_set_payload_eq. apply Hshape; try done.
    by eapply secretStore_Set_calls.
Qed.

(** X6.  With every client, [Delete] of the ConfigMap and Secret stores
    sends one merge-patch that carries the null for the key; it then
    deletes the container exactly when the patch succeeded and the
    container that came back has no entries, and makes no further call
    otherwise, so a container that still has entries is kept.  It returns
    the patch's error only when that error is not classified as "absent". *)
Theorem Delete_deletes_the_container_only_when_empty :
  (∀ W (c0 : ResourceInterface ConfigMap W) name key w,
     configMapStore_Delete {| cms_client := recording c0; cms_name := name |} key ([], w)
     = let patch := CallPatch name MergePatchType
                      (JObject [("data", JObject [(key, JNull)])]) in
       match Patch c0 name MergePatchType (JObject [("data", JObject [(key, JNull)])]) w with
       | (Ok configMap, w1) =>
           if decide (cm_Data configMap = ∅)
           then (None, ([patch; CallDelete name], snd (Delete c0 name w1)))
           else (None, ([patch], w1))
       | (Err e, w1) =>
           (if isResourceMissingError e then None else Some e, ([patch], w1))
       end)
  ∧ (∀ W (c0 : ResourceInterface Secret W) name key w,
     secretStore_Delete {| ss_client := recording c0; ss_name := name |} key ([], w)
     = let patch := CallPatch name MergePatchType
                      (JObject [("data", JObject [(key, JNull)])]) in
       match Patch c0 name MergePatchType (JObject [("data", JObject [(key, JNull)])]) w with
       | (Ok secret, w1) =>
           if decide (sec_Data secret = ∅)
           then (None, ([patch; CallDelete name], snd (Delete c0 name w1)))
           else (None, ([patch], w1))
       | (Err e, w1) =>
           (if isResourceMissingError e then None else Some e, ([patch], w1))
       end).
Proof.
  split.
  - intros W c0 name key w. unfold configMapStore_Delete, configMapStore_delete.
    fold (configMap_delete_payload key). rewrite configMap_delete_payload_eq. simpl.
    destruct (Patch c0 name MergePatchType _ w) as [[cm|e] w1]; simpl.
    + destruct (decide (size (cm_Data cm) = 0%nat)) as [Hz|Hnz].
      * rewrite decide_True by by apply map_size_empty_inv.
        by destruct (Delete c0 name w1).
      * rewrite decide_False; [done|]. intros He. by rewrite He, map_size_empty in Hnz.
    + by destruct (isResourceMissingError e).
  - intros W c0 name key w. unfold secretStore_Delete, secretStore_delete.
    fold (secret_delete_payload key). rewrite secret_delete_payload_eq. simpl.
    destruct (Patch c0 name MergePatchType _ w) as [[secret|e] w1]; simpl.
    + destruct (decide (size (sec_Data secret) = 0%nat)) as [Hz|Hnz].
      * rewrite decide_True by by apply map_size_empty_inv.
        by destruct (Delete c0 name w1).
      * rewrite decide_False; [done|]. intros He. by rewrite He, map_size_empty in Hnz.
    + by destruct (isResourceMissingError e).
Qed.

(** X7.  The annotation store never creates or deletes the resource it is
    bound to.  With every client, [Set] makes one call, a merge-patch of
    the one annotation [kubestore/key] on that resource, and returns the
    patch's error whatever it is, "not found" included; [Delete] makes one
    call, the merge-patch that carries the null for that annotation, and
    hides the patch's error only when it is classified as "absent". *)
Theorem annotationStore_only_patches (value : Value) (data : string) :
  Marshal value = Ok data →
  ∀ W (c0 : ResourceInterface Unstructured W) name key w,
    annotationStore_Set Marshal {| as_client := recording c0; as_name := name |}
      key value ([], w)
    = (let set := JObject [("metadata", JObject [("annotations",
                     JObject [("kubestore/" +:+ key, JString data)])])] in
       match Patch c0 name MergePatchType set w with
       | (Ok _, w1) => (None, ([CallPatch name MergePatchType set], w1))
       | (Err e, w1) => (Some e, ([CallPatch name MergePatchType set], w1))
       end)
    ∧ annotationStore_Delete {| as_client := recording c0; as_name := name |} key ([], w)
      = (let unset := JObject [("metadata", JObject [("annotations",
                         JObject [("kubestore/" +:+ key, JNull)])])] in
         match Patch c0 name MergePatchType unset w with
         | (Ok _, w1) => (None, ([CallPatch name MergePatchType unset], w1))
         | (Err e, w1) =>
             (if isResourceMissingError e then None else Some e,
              ([CallPatch name MergePatchType unset], w1))
         end).
Proof.
  intros Hm W c0 name key w. split.
  - unfold annotationStore_Set. rewrite Hm.
    fold (annotation_set_payload key data). rewrite annotation_set_payload_eq. simpl.
    change (annotation_of key) with ("kubestore/" +:+ key).
    by destruct (Patch c0 name MergePatchType _ w) as [[r|e] w1].
  - unfold annotationStore_Delete.
    fold (annotation_delete_payload key). rewrite annotation_delete_payload_eq. simpl.
    change (annotation_of key) with ("kubestore/" +:+ key).
    destruct (Patch c0 name MergePatchType _ w) as [[r|e] w1]; simpl; [done|].
    by destruct (isResourceMissingError e).
Qed.

End Calls.

(** ** The life of a container behind the API server *)

Section Lifecycle.
Variable Value : Type.
Variable Marshal : Value -> result string.
Variable Unmarshal : string -> result Value.

Section ConfigMapLifecycle.
Variable name : string.

Let store : configMapStore (gmap string ConfigMap) :=
  {| cms_client := configMap_apiserver; cms_name := name |}.

Lemma configMapStore_Set_state fuel key value w w' :
  configMapStore_Set Marshal fuel store key value w = Some (None, w') →
  ∃ data, Marshal value = Ok data
    ∧ w' = <[name := {| cm_Name := match w !! name with
                                   | Some cm => cm_Name cm
                                   | None => name
                                   end;
                        cm_Data := <[key := data]> match w !! name with
                                                   | Some cm => cm_Data cm
                                                   | None => ∅
                                                   end |}]> w.
Proof.
  destruct fuel as [|fuel]; [done|].
  destruct (Marshal value) as [data|e] eqn:Hm.
  2:{ by erewrite configMapStore_Set_unmarshalable by done. }
  intros Hs. exists data. split; [done|].
  destruct (w !! name) as [cm|] eqn:Hw.
  - unfold store in Hs. erewrite configMapStore_Set_present in Hs by done. by injection Hs as <-.
  - destruct fuel as [|fuel].
    + erewrite configMapStore_Set_retries in Hs;
        [| done | by apply apiserver_Patch_absent | done | by apply apiserver_Create_absent].
      done.
    + unfold store in Hs. erewrite configMapStore_Set_absent in Hs by done.
      injection Hs as <-. by rewrite insert_empty.
Qed.

Lemma configMapStore_Delete_state key w :
  configMapStore_Delete store key w
  = (None, match w !! name with
           | None => w
           | Some cm =>
               if decide (delete key (cm_Data cm) = ∅) then delete name w
               else <[name := {| cm_Name := cm_Name cm;
                                 cm_Data := delete key (cm_Data cm) |}]> w
           end).
Proof.
  unfold configMapStore_Delete, configMapStore_delete, store.
  fold (configMap_delete_payload key).
  cbn [cms_client cms_name]. unfold configMap_apiserver.
  destruct (w !! name) as [cm|] eqn:Hw.
  - erewrite apiserver_Patch_present; [| done | apply merge_ConfigMap_delete]. simpl cm_Data.
    destruct (decide (size (delete key (cm_Data cm)) = 0%nat)) as [Hz|Hnz].
    + rewrite decide_True by by apply map_size_empty_inv.
      erewrite apiserver_Delete_present by apply lookup_insert_eq.
      by rewrite delete_insert_eq.
    + rewrite decide_False; [done|]. intros He. by rewrite He, map_size_empty in Hnz.
  - by erewrite apiserver_Patch_absent.
Qed.

Lemma configMapStore_lifecycle :
  (∀ fuel key value w w',
     configMapStore_Set Marshal fuel store key value w = Some (None, w') →
     (∃ cm, w' !! name = Some cm ∧ is_Some (cm_Data cm !! key))
     ∧ ∀ other, other ≠ name → w' !! other = w !! other)
  ∧ (∀ key w,
     let w' := snd (configMapStore_Delete store key w) in
     (∀ cm, w' !! name = Some cm → cm_Data cm ≠ ∅)
     ∧ (∀ other, other ≠ name → w' !! other = w !! other)
     ∧ snd (configMapStore_Delete store key w') = w')
  ∧ (∀ fuel key value w w',
     w !! name = None →
     configMapStore_Set Marshal fuel store key value w = Some (None, w') →
     configMapStore_Delete store key w' = (None, w)).
Proof.
  split; [|split].
  - intros fuel key value w w' (data & Hm & ->)%configMapStore_Set_state. split.
    + eexists. split; [apply lookup_insert_eq|]. simpl. rewrite lookup_insert_eq. by eexists.
    + intros other Hne. by rewrite lookup_insert_ne.
  - intros key w w'. subst w'. rewrite !configMapStore_Delete_state. simpl.
    destruct (w !! name) as [cm|] eqn:Hw.
    + destruct (decide (delete key (cm_Data cm) = ∅)) as [He|Hne].
      * split; [|split].
        -- intros cm'. by rewrite lookup_delete_eq.
        -- intros other Hother. by rewrite lookup_delete_ne.
        -- by rewrite lookup_delete_eq.
      * split; [|split].
        -- intros cm'. rewrite lookup_insert_eq. by intros [= <-].
        -- intros other Hother. by rewrite lookup_insert_ne.
        -- rewrite lookup_insert_eq. simpl. rewrite delete_delete_eq.
           rewrite decide_False by done. by rewrite insert_insert_eq.
    + split; [|split].
      * intros cm'. by rewrite Hw.
      * done.
      * by rewrite Hw.
  - intros fuel key value w w' Hw (data & Hm & ->)%configMapStore_Set_state.
    rewrite configMapStore_Delete_state, lookup_insert_eq, Hw. simpl.
    rewrite insert_empty, delete_singleton_eq, decide_True by done.
    by rewrite delete_insert_id.
Qed.

End ConfigMapLifecycle.

Section SecretLifecycle.
Variable base64_decode : string → option string.
Variable name : string.

Let store : secretStore (gmap string Secret) :=
  {| ss_client := secret_apiserver base64_decode; ss_name := name |}.

Lemma secretStore_Set_state fuel key value w w' :
  secretStore_Set Marshal fuel store key value w = Some (None, w') →
  ∃ data, Marshal value = Ok data
    ∧ w' = <[name := {| sec_Name := match w !! name with
                                    | Some secret => sec_Name secret
                                    | None => name
                                    end;
                        sec_Data := <[key := data]> match w !! name with
                                                    | Some secret => sec_Data secret
                                                    | None => ∅
                                                    end;
                        sec_StringData := ∅ |}]> w.
Proof.
  destruct fuel as [|fuel]; [done|].
  destruct (Marshal value) as [data|e] eqn:Hm.
  2:{ by erewrite secretStore_Set_unmarshalable by done. }
  intros Hs. exists data. split; [done|].
  destruct (w !! name) as [secret|] eqn:Hw.
  - unfold store in Hs. erewrite secretStore_Set_present in Hs by done. by injection Hs as <-.
  - destruct fuel as [|fuel].
    + erewrite secretStore_Set_retries in Hs;
        [| done | by apply apiserver_Patch_absent | done | by apply apiserver_Create_absent].
      done.
    + unfold store in Hs. erewrite secretStore_Set_absent in Hs by done.
      injection Hs as <-. by rewrite insert_empty.
Qed.

Lemma secretStore_Delete_state key w :
  secretStore_Delete store key w
  = (None, match w !! name with
           | None => w
           | Some secret =>
               if decide (delete key (sec_Data secret) = ∅) then delete name w
               else <[name := {| sec_Name := sec_Name secret;
                                 sec_Data := delete key (sec_Data secret);
                                 sec_StringData := ∅ |}]> w
           end).
Proof.
  unfold secretStore_Delete, secretStore_delete, store.
  fold (secret_delete_payload key).
  cbn [ss_client ss_name]. unfold secret_apiserver.
  destruct (w !! name) as [secret|] eqn:Hw.
  - erewrite apiserver_Patch_present; [| done | apply merge_Secret_delete]. simpl sec_Data.
    destruct (decide (size (delete key (sec_Data secret)) = 0%nat)) as [Hz|Hnz].
    + rewrite decide_True by by apply map_size_empty_inv.
      erewrite apiserver_Delete_present by apply lookup_insert_eq.
      by rewrite delete_insert_eq.
    + rewrite decide_False; [done|]. intros He. by rewrite He, map_size_empty in Hnz.
  - by erewrite apiserver_Patch_absent.
Qed.

Lemma secretStore_lifecycle :
  (∀ fuel key value w w',
     secretStore_Set Marshal fuel store key value w = Some (None, w') →
     (∃ secret, w' !! name = Some secret ∧ is_Some (sec_Data secret !! key))
     ∧ ∀ other, other ≠ name → w' !! other = w !! other)
  ∧ (∀ key w,
     let w' := snd (secretStore_Delete store key w) in
     (∀ secret, w' !! name = Some secret → sec_Data secret ≠ ∅)
     ∧ (∀ other, other ≠ name → w' !! other = w !! other)
     ∧ snd (secretStore_Delete store key w') = w')
  ∧ (∀ fuel key value w w',
     w !! name = None →
     secretStore_Set Marshal fuel store key value w = Some (None, w') →
     secretStore_Delete store key w' = (None, w)).
Proof.
  split; [|split].
  - intros fuel key value w w' (data & Hm & ->)%secretStore_Set_state. split.
    + eexists. split; [apply lookup_insert_eq|]. simpl. rewrite lookup_insert_eq. by eexists.
    + intros other Hne. by rewrite lookup_insert_ne.
  - intros key w w'. subst w'. rewrite !secretStore_Delete_state. simpl.
    destruct (w !! name) as [secret|] eqn:Hw.
    + destruct (decide (delete key (sec_Data secret) = ∅)) as [He|Hne].
      * split; [|split].
        -- intros secret'. by rewrite lookup_delete_eq.
        -- intros other Hother. by rewrite lookup_delete_ne.
        -- by rewrite lookup_delete_eq.
      * split; [|split].
        -- intros secret'. rewrite lookup_insert_eq. by intros [= <-].
        -- intros other Hother. by rewrite lookup_insert_ne.
        -- rewrite lookup_insert_eq. simpl. rewrite delete_delete_eq.
           rewrite decide_False by done. by rewrite insert_insert_eq.
    + split; [|split].
      * intros secret'. by rewrite Hw.
      * done.
      * by rewrite Hw.
  - intros fuel key value w w' Hw (data & Hm & ->)%secretStore_Set_state.
    rewrite secretStore_Delete_state, lookup_insert_eq, Hw. simpl.
    rewrite insert_empty, delete_singleton_eq, decide_True by done.
    by rewrite delete_insert_id.
Qed.

End SecretLifecycle.

(** X8.  Against the API server, for the ConfigMap and Secret stores: a
    [Set] that succeeds leaves the store's container in place with an
    entry for the key; after a [Delete] the container is either gone or
    still has an entry, never left empty, and a second [Delete] of the
    same key changes nothing; [Set] on a missing container followed by
    [Delete] of the same key gives back exactly the state before the
    [Set]; and neither [Set] nor [Delete] changes a resource of another
    name. *)
Theorem container_is_created_on_Set_and_removed_when_empty :
  (∀ name,
     let store := {| cms_client := configMap_apiserver; cms_name := name |} in
     (∀ fuel key value w w',
        configMapStore_Set Marshal fuel store key value w = Some (None, w') →
        (∃ cm, w' !! name = Some cm ∧ is_Some (cm_Data cm !! key))
        ∧ ∀ other, other ≠ name → w' !! other = w !! other)
     ∧ (∀ key w,
        let w' := snd (configMapStore_Delete store key w) in
        (∀ cm, w' !! name = Some cm → cm_Data cm ≠ ∅)
        ∧ (∀ other, other ≠ name → w' !! other = w !! other)
        ∧ snd (configMapStore_Delete store key w') = w')
     ∧ (∀ fuel key value w w',
        w !! name = None →
        configMapStore_Set Marshal fuel store key value w = Some (None, w') →
        configMapStore_Delete store key w' = (None, w)))
  ∧ (∀ base64_decode name,
     let store := {| ss_client := secret_apiserver base64_decode; ss_name := name |} in
     (∀ fuel key value w w',
        secretStore_Set Marshal fuel store key value w = Some (None, w') →
        (∃ secret, w' !! name = Some secret ∧ is_Some (sec_Data secret !! key))
        ∧ ∀ other, other ≠ name → w' !! other = w !! other)
     ∧ (∀ key w,
        let w' := snd (secretStore_Delete store key w) in
        (∀ secret, w' !! name = Some secret → sec_Data secret ≠ ∅)
        ∧ (∀ other, other ≠ name → w' !! other = w !! other)
        ∧ snd (secretStore_Delete store key w') = w')
     ∧ (∀ fuel key value w w',
        w !! name = None →
        secretStore_Set Marshal fuel store key value w = Some (None, w') →
        secretStore_Delete store key w' = (None, w))).
Proof.
  split.
  - intros name. apply configMapStore_lifecycle.
  - intros base64_decode name. apply secretStore_lifecycle.
Qed.

End Lifecycle.

(** ** [List] after [Set] and [Delete] *)

Section Listing.
Variable Value : Type.
Variable Marshal : Value -> result string.
Variable Unmarshal : string -> result Value.

Lemma refines_List_follows_writes {W} (s : Store Value W) inv ok view :
  refines Value Marshal Unmarshal s inv ok view → List_follows_writes s inv ok.
Proof.
  intros Href key w w' Hinv Hok.
  destruct (refines_List _ _ _ _ _ _ _ Href _ Hinv) as (keys & Hl & Hnd & Hkeys).
  exists keys. split; [done|]. split; [done|]. split.
  - intros fuel value Hs.
    destruct (refines_Set _ _ _ _ _ _ _ Href _ _ _ _ _ Hinv Hok Hs) as (Hinv' & data & _ & Hv).
    destruct (refines_List _ _ _ _ _ _ _ Href _ Hinv') as (keys' & Hl' & Hnd' & Hkeys').
    exists keys'. split; [done|]. split; [done|].
    intros k. rewrite Hkeys', Hkeys, Hv. case_decide.
    + split; [by left | by eexists].
    + split; [by right | by intros [?|?]].
  - intros Hd.
    destruct (refines_Delete _ _ _ _ _ _ _ Href _ _ _ Hinv Hok Hd) as (Hinv' & Hv).
    destruct (refines_List _ _ _ _ _ _ _ Href _ Hinv') as (keys' & Hl' & Hnd' & Hkeys').
    exists keys'. split; [done|]. split; [done|].
    intros k. rewrite Hkeys', Hkeys, Hv. case_decide.
    + split; [by intros [? ?] | by intros [? _]].
    + split; [by split | by intros [_ ?]].
Qed.

(** X9.  For the ConfigMap, Secret and annotation stores against the API
    server, and for the file store with a directory path that is not empty
    and has no [..] element, keys that are single file names and a file
    system in which no element of the directory's path is a regular file
    and the directory holds no directory: [List] returns each key once;
    after a [Set] that succeeds it returns the keys it returned before and
    the key that was set, and after a [Delete] that succeeds the keys it
    returned before without the key that was deleted. *)
Theorem List_follows_Set_and_Delete :
  (∀ name,
     List_follows_writes
       (NewConfigMapStore Marshal Unmarshal
          {| cms_client := configMap_apiserver; cms_name := name |})
       (λ _, True) (λ _, True))
  ∧ (∀ base64_decode name,
     List_follows_writes
       (NewSecretStore Marshal Unmarshal
          {| ss_client := secret_apiserver base64_decode; ss_name := name |})
       (λ _, True) (λ _, True))
  ∧ (∀ name,
     List_follows_writes
       (NewAnnotationStore Marshal Unmarshal
          {| as_client := dynamic_apiserver; as_name := name |})
       (λ _, True) (λ _, True))
  ∧ (∀ directory,
     directory ≠ "" → ".." ∉ split_path directory →
     List_follows_writes (NewFileStore Marshal Unmarshal directory)
       (file_inv directory) file_name).
Proof.
  split; [|split; [|split]].
  - intros name. eapply refines_List_follows_writes, configMapStore_refines.
  - intros base64_decode name. eapply refines_List_follows_writes, secretStore_refines.
  - intros name. eapply refines_List_follows_writes, annotationStore_refines.
  - intros directory Hne Hdd. eapply refines_List_follows_writes, fileStore_refines; done.
Qed.

End Listing.

(** ** What is found after a [Delete] *)

Section Deleting.
Variable Value : Type.
Variable Marshal : Value -> result string.
Variable Unmarshal : string -> result Value.

Lemma refines_Delete_forgets {W} (s : Store Value W) inv ok view :
  refines Value Marshal Unmarshal s inv ok view → Delete_forgets s inv ok.
Proof.
  intros Href key w w' Hinv Hok Hd.
  destruct (refines_Delete _ _ _ _ _ _ _ Href _ _ _ Hinv Hok Hd) as (Hinv' & Hv).
  rewrite (refines_Get _ _ _ _ _ _ _ Href _ _ Hinv' Hok), Hv.
  by rewrite decide_True.
Qed.

(** X10.  [Get] of a key directly after a [Delete] of that key that
    succeeded returns the sentinel [ErrorKeyNotFound] and changes nothing,
    whether the container is still there or went with its last key: for
    the ConfigMap, Secret and annotation stores against the API server in
    every state, and for the file store with a directory path that is not
    empty and has no [..] element, keys that are single file names and a
    file system in which no element of the directory's path is a regular
    file and the directory holds no directory. *)
Theorem Get_after_Delete_is_ErrorKeyNotFound :
  (∀ name,
     Delete_forgets
       (NewConfigMapStore Marshal Unmarshal
          {| cms_client := configMap_apiserver; cms_name := name |})
       (λ _, True) (λ _, True))
  ∧ (∀ base64_decode name,
     Delete_forgets
       (NewSecretStore Marshal Unmarshal
          {| ss_client := secret_apiserver base64_decode; ss_name := name |})
       (λ _, True) (λ _, True))
  ∧ (∀ name,
     Delete_forgets
       (NewAnnotationStore Marshal Unmarshal
          {| as_client := dynamic_apiserver; as_name := name |})
       (λ _, True) (λ _, True))
  ∧ (∀ directory,
     directory ≠ "" → ".." ∉ split_path directory →
     Delete_forgets (NewFileStore Marshal Unmarshal directory)
       (file_inv directory) file_name).
Proof.
  split; [|split; [|split]].
  - intros name. eapply refines_Delete_forgets, configMapStore_refines.
  - intros base64_decode name. eapply refines_Delete_forgets, secretStore_refines.
  - intros name. eapply refines_Delete_forgets, annotationStore_refines.
  - intros directory Hne Hdd. eapply refines_Delete_forgets, fileStore_refines; done.
Qed.

End Deleting.

(** ** The directory of the file store *)

Section Directory.
Variable Value : Type.
Variable Marshal : Value -> result string.
Variable Unmarshal : string -> result Value.
Variable dir : string.
Hypothesis dir_nonempty : dir ≠ "".
Hypothesis dir_no_dotdot : ".." ∉ split_path dir.

Let store : fileStore := {| directory := dir |}.

Lemma MkdirAll_only_adds fs fs1 :
  MkdirAll dir fs = (None, fs1) →
  cwd fs1 = cwd fs
  ∧ (∀ q n, nodes fs !! q = Some n → nodes fs1 !! q = Some n)
  ∧ (∀ q, nodes fs !! q = None → is_Some (nodes fs1 !! q) →
          q `prefix_of` dir_path dir fs ∧ nodes fs1 !! q = Some Dir).
Proof.
  unfold MkdirAll. rewrite decide_False by done.
  destruct (lookup_node (nodes fs) (start fs dir)) as [[data|]|] eqn:Hstart; [done | | done].
  destruct (mkdir_walk (nodes fs) (start fs dir) (split_path dir)) as [e|nd1] eqn:Hmk; [done|].
  intros [= <-].
  destruct (mkdir_walk_spec Value Unmarshal _ _ _ _ Hstart dir_no_dotdot Hmk) as (Hi & Hii & Hiii).
  split; [done|]. split; [done|]. cbn [nodes with_nodes].
  intros q Hq Hsome. destruct (Hiii q Hq Hsome) as (Hq1 & Hne & Hqd).
  split; [done|]. specialize (Hi q Hq1 Hqd).
  rewrite lookup_node_cons in Hi; [done|].
  intros ->. apply Hne. symmetry. by apply prefix_nil_inv.
Qed.

(** X11.  A key that is a single file name never leaves the directory and
    never shares its file: with a directory path that is not empty and has
    no [..] element, whenever the path of such a key resolves, it resolves
    to the entry of that name in the directory the directory path leads
    to, and the paths of two different such keys resolve to different
    nodes. *)
Theorem file_name_key_names_an_entry_of_the_directory fs key p :
  file_name key →
  namei fs (Join [directory store; key]) = inr p →
  p = dir_path dir fs ++ [key]
  ∧ lookup_node (nodes fs) (dir_path dir fs) = Some Dir
  ∧ (∀ d, namei fs (directory store) = inr d → d = dir_path dir fs)
  ∧ (∀ key' p', file_name key' → key' ≠ key →
                namei fs (Join [directory store; key']) = inr p' → p' ≠ p).
Proof.
  intros Hkey Hn. destruct (namei_file_inr Value Unmarshal dir dir_nonempty dir_no_dotdot _ _ _ Hkey Hn)
    as [-> Hd].
  split; [done|]. split; [done|]. split.
  - intros d Hdn. by eapply (namei_dir_inr Value Unmarshal).
  - intros key' p' Hkey' Hne Hn'.
    destruct (namei_file_inr Value Unmarshal dir dir_nonempty dir_no_dotdot _ _ _ Hkey' Hn') as [-> _].
    by intros [= ?]%(inj (app _)).
Qed.

(** X12.  [List] of the file store names every entry of the directory,
    directories included, and [Get] of a key that names a directory inside
    the store's directory fails with the read error "is a directory",
    which is neither the not-found sentinel nor a decoding error. *)
Theorem fileStore_List_names_directories_that_Get_cannot_read fs key :
  well_formed (nodes fs) → file_name key →
  nodes fs !! (dir_path dir fs ++ [key]) = Some Dir →
  (∃ keys, fileStore_List store fs = (Ok keys, fs) ∧ key ∈ keys)
  ∧ fileStore_Get Unmarshal store key fs
    = (Err (PathError "read" (Join [dir; key]) EISDIR), fs).
Proof.
  intros Hwf Hkey Hk.
  assert (Hd : lookup_node (nodes fs) (dir_path dir fs) = Some Dir).
  { apply Hwf in Hk. by rewrite parent_snoc in Hk. }
  split.
  - unfold fileStore_List, ReadDir. cbn [directory store].
    rewrite (namei_dir_Dir Value Unmarshal), Hd by done. eexists. split; [done|].
    apply elem_of_entries. by rewrite Hk.
  - unfold fileStore_Get, ReadFile. cbn [directory store].
    rewrite (namei_file_Dir Value Unmarshal) by done.
    rewrite lookup_node_cons by by destruct (dir_path dir fs).
    by rewrite Hk.
Qed.

(** X13.  A [Set] of the file store that succeeds writes the encoded value
    to the key's file in the directory and adds nothing else but the
    directory and the directories above it that were missing; every other
    node of the file system stays as it was. *)
Theorem fileStore_Set_only_adds key value fs fs' :
  file_inv dir fs → file_name key →
  fileStore_Set Marshal store key value fs = (None, fs') →
  ∃ data,
    Marshal value = Ok data
    ∧ nodes fs' !! (dir_path dir fs ++ [key]) = Some (File data)
    ∧ lookup_node (nodes fs') (dir_path dir fs) = Some Dir
    ∧ (∀ q n, q ≠ dir_path dir fs ++ [key] →
              nodes fs !! q = Some n → nodes fs' !! q = Some n)
    ∧ (∀ q, nodes fs !! q = None → is_Some (nodes fs' !! q) →
            q = dir_path dir fs ++ [key]
            ∨ (q `prefix_of` dir_path dir fs ∧ nodes fs' !! q = Some Dir)).
Proof.
  intros Hinv Hkey. unfold fileStore_Set. cbn [directory store].
  destruct (Marshal value) as [data|e]; [|done].
  destruct (MkdirAll dir fs) as [[e|] fs1] eqn:Hmk; [done|].
  destruct (MkdirAll_spec Value Unmarshal dir dir_nonempty dir_no_dotdot _ _ Hinv Hmk)
    as (Hinv1 & Hpath & Hd & _).
  destruct (MkdirAll_only_adds _ _ Hmk) as (_ & Hkeep & Hnew).
  pose proof Hinv1 as (Hwf1 & _ & Hentries1).
  unfold WriteFile. rewrite <- Hpath in Hd.
  rewrite (namei_file_Dir Value Unmarshal dir dir_nonempty dir_no_dotdot) by done.
  rewrite lookup_node_cons by by destruct (dir_path dir fs1).
  rewrite Hpath in *. set (d := dir_path dir fs) in *.
  assert (Hfs' : fs' = with_nodes fs1 (<[d ++ [key] := File data]> (nodes fs1)) →
    ∃ data0, Ok data = Ok data0
      ∧ nodes fs' !! (d ++ [key]) = Some (File data0)
      ∧ lookup_node (nodes fs') d = Some Dir
      ∧ (∀ q n, q ≠ d ++ [key] → nodes fs !! q = Some n → nodes fs' !! q = Some n)
      ∧ (∀ q, nodes fs !! q = None → is_Some (nodes fs' !! q) →
              q = d ++ [key] ∨ (q `prefix_of` d ∧ nodes fs' !! q = Some Dir))).
  { intros ->. exists data. cbn [nodes with_nodes].
    split; [done|]. split; [apply lookup_insert_eq|]. split; [|split].
    - rewrite lookup_node_insert_ne; [done|]. symmetry. apply snoc_ne.
    - intros q n Hq Hn. rewrite lookup_insert_ne by done. by apply Hkeep.
    - intros q Hq Hsome. destruct (decide (q = d ++ [key])) as [|Hne]; [by left|].
      right. rewrite lookup_insert_ne in * by done. by apply Hnew. }
  destruct (nodes fs1 !! (d ++ [key])) as [[data'|]|] eqn:Hk.
  - intros [= <-]. by apply Hfs'.
  - by destruct (Hentries1 key).
  - intros [= <-]. by apply Hfs'.
Qed.


End Directory.

(** ** Runs *)

Lemma well_formed_nested : well_formed (nodes nested_fs).
Proof.
  intros p n Hp. unfold nested_fs, store_fs in Hp. cbn [nodes with_nodes] in Hp.
  rewrite !lookup_insert_Some, lookup_singleton_Some in Hp.
  destruct Hp as [[<- _] | [_ [[<- _] | [_ [<- _]]]]]; reflexivity.
Qed.


(** X3: the refused value, with a client that would answer and on a file
    system without the directory. *)
Lemma Set_of_unencodable_value_run :
  partial_Marshal None = Err (SyntaxError "json: unsupported value")
  ∧ configMapStore_Set partial_Marshal 1
      {| cms_client := recording scripted; cms_name := "store" |} "x" None
      ([], [Err NotFound])
    = Some (Some (SyntaxError "json: unsupported value"), ([], [Err NotFound]))
  ∧ fileStore_Set partial_Marshal {| directory := "/data/store" |} "a" None bare_fs
    = (Some (SyntaxError "json: unsupported value"), bare_fs).
Proof.
  destruct (Set_of_unencodable_value_does_nothing (option nat) partial_Marshal None _ eq_refl)
    as (Hcm & _ & _ & Hfile).
  split; [reflexivity|]. split; [apply Hcm | apply Hfile].
Defined.

(** X5: a patch that finds no ConfigMap, the creation, and the patch
    again. *)
Lemma Set_calls_patch_and_create_only_run :
  scalar_Marshal (VNumber 1) = Ok "1"
  ∧ ∃ log,
      configMapStore_Set scalar_Marshal 2
        {| cms_client := recording scripted; cms_name := "store" |} "x" (VNumber 1)
        ([], [Err NotFound; Ok (empty_ConfigMap "store"); Ok (empty_ConfigMap "store")])
      = Some (None, (log, []))
      ∧ length log = 3%nat
      ∧ Forall (λ called,
                  called = CallPatch "store" MergePatchType
                             (JObject [("data", JObject [("x", JString "1")])])
                  ∨ called = CallCreate {| cm_Name := "store"; cm_Data := ∅ |}) log
      ∧ head log = Some (CallPatch "store" MergePatchType
                           (JObject [("data", JObject [("x", JString "1")])])).
Proof.
  split; [reflexivity|]. eexists. split; [vm_compute; reflexivity|]. split; [reflexivity|].
  edestruct (proj1 (Set_calls_patch_and_create_only scalar scalar_Marshal
                      (VNumber 1) "1" eq_refl)
               _ scripted "store" 2%nat "x"
               [Err NotFound; Ok (empty_ConfigMap "store"); Ok (empty_ConfigMap "store")])
    as (Hall & Hhead & _); [vm_compute; reflexivity|].
  split; [exact Hall | exact Hhead].
Defined.

(** X7: the resource is missing; [Set] says so, [Delete] does not. *)
Lemma annotationStore_only_patches_run :
  scalar_Marshal (VNumber 1) = Ok "1"
  ∧ annotationStore_Set scalar_Marshal
      {| as_client := recording scripted; as_name := "pod" |} "x" (VNumber 1)
      ([], [Err NotFound])
    = (Some NotFound,
       ([CallPatch "pod" MergePatchType
           (JObject [("metadata", JObject [("annotations",
              JObject [("kubestore/x", JString "1")])])])], []))
  ∧ annotationStore_Delete {| as_client := recording scripted; as_name := "pod" |} "x"
      ([], [Err NotFound])
    = (None,
       ([CallPatch "pod" MergePatchType
           (JObject [("metadata", JObject [("annotations",
              JObject [("kubestore/x", JNull)])])])], [])).
Proof.
  destruct (annotationStore_only_patches scalar scalar_Marshal (VNumber 1) "1" eq_refl
              _ scripted "pod" "x" [Err NotFound]) as [Hset Hdel].
  split; [reflexivity|]. split.
  - rewrite Hset. reflexivity.
  - rewrite Hdel. reflexivity.
Defined.

(** X11: the key [a] in [/data/store]. *)
Lemma file_name_key_names_an_entry_run :
  "/data/store" ≠ "" ∧ (".." ∉ split_path "/data/store") ∧ file_name "a"
  ∧ namei store_fs (Join ["/data/store"; "a"]) = inr ["data"; "store"; "a"]
  ∧ ["data"; "store"; "a"] = dir_path "/data/store" store_fs ++ ["a"]
  ∧ lookup_node (nodes store_fs) (dir_path "/data/store" store_fs) = Some Dir.
Proof.
  assert (Hne : "/data/store" ≠ "") by discriminate.
  assert (Hdd : ".." ∉ split_path "/data/store").
  { vm_compute. intros H. repeat (apply elem_of_cons in H as [H|H]; [discriminate H|]).
    by apply elem_of_nil in H. }
  assert (Hn : namei store_fs (Join ["/data/store"; "a"]) = inr ["data"; "store"; "a"])
    by (vm_compute; reflexivity).
  destruct (file_name_key_names_an_entry_of_the_directory scalar scalar_Unmarshal
              "/data/store" Hne Hdd store_fs "a" _ file_name_a Hn) as (Hp & Hd & _).
  split; [exact Hne|]. split; [exact Hdd|]. split; [exact file_name_a|].
  split; [exact Hn|]. split; [exact Hp | exact Hd].
Defined.

(** X12: the sub-directory [sub] of [/data/store]. *)
Lemma fileStore_List_names_directories_run :
  well_formed (nodes nested_fs) ∧ file_name "sub"
  ∧ nodes nested_fs !! (dir_path "/data/store" nested_fs ++ ["sub"]) = Some Dir
  ∧ fileStore_List {| directory := "/data/store" |} nested_fs = (Ok ["sub"], nested_fs)
  ∧ fileStore_Get scalar_Unmarshal {| directory := "/data/store" |} "sub" nested_fs
    = (Err (PathError "read" "/data/store/sub" EISDIR), nested_fs).
Proof.
  assert (Hne : "/data/store" ≠ "") by discriminate.
  assert (Hdd : ".." ∉ split_path "/data/store").
  { vm_compute. intros H. repeat (apply elem_of_cons in H as [H|H]; [discriminate H|]).
    by apply elem_of_nil in H. }
  assert (Hsub : file_name "sub") by by repeat split.
  assert (Hk : nodes nested_fs !! (dir_path "/data/store" nested_fs ++ ["sub"]) = Some Dir)
    by (vm_compute; reflexivity).
  destruct (fileStore_List_names_directories_that_Get_cannot_read scalar scalar_Unmarshal
              "/data/store" Hne Hdd nested_fs "sub" well_formed_nested Hsub Hk)
    as [_ Hget].
  split; [exact well_formed_nested|]. split; [exact Hsub|]. split; [exact Hk|].
  split; [vm_compute; reflexivity | exact Hget].
Defined.

(** X13: the first [Set] below the root creates [/data] and
    [/data/store] for the file. *)
Lemma fileStore_Set_only_adds_run :
  "/data/store" ≠ "" ∧ (".." ∉ split_path "/data/store")
  ∧ file_inv "/data/store" bare_fs ∧ file_name "a"
  ∧ ∃ fs', fileStore_Set scalar_Marshal {| directory := "/data/store" |} "a" (VNumber 1)
             bare_fs = (None, fs')
           ∧ nodes fs' !! ["data"; "store"; "a"] = Some (File "1")
           ∧ lookup_node (nodes fs') ["data"; "store"] = Some Dir.
Proof.
  assert (Hne : "/data/store" ≠ "") by discriminate.
  assert (Hdd : ".." ∉ split_path "/data/store").
  { vm_compute. intros H. repeat (apply elem_of_cons in H as [H|H]; [discriminate H|]).
    by apply elem_of_nil in H. }
  split; [exact Hne|]. split; [exact Hdd|]. split; [exact (file_inv_bare _)|].
  split; [exact file_name_a|]. eexists. split; [vm_compute; reflexivity|].
  match goal with
  | |- nodes ?fs !! _ = _ ∧ _ =>
      destruct (fileStore_Set_only_adds scalar scalar_Marshal scalar_Unmarshal
                  "/data/store" Hne Hdd "a" (VNumber 1) bare_fs fs
                  (file_inv_bare _) file_name_a)
        as (data & Hm & Hfile & Hdir & _); [vm_compute; reflexivity|]
  end.
  injection Hm as <-. split; [exact Hfile | exact Hdir].
Defined.

